(** * PPAP language processor (ppap.py): instruction list, interpreter,
      lowering to C, and the PLY-driven front end.

    The development follows the layout of [ppap.py]:
    - the instruction tuples produced by the grammar actions,
    - [run], the abstract register machine,
    - [to_c], the lowering pass,
    - the lexer rules and the grammar actions, driven by an LALR(1)
      automaton computed from the grammar written in the docstrings. *)

From Stdlib Require Import ZArith List String Ascii Lia Bool.
From stdpp Require Import base gmap strings list pretty.

Local Open Scope string_scope.
Local Open Scope list_scope.
Local Open Scope Z_scope.

(** The line feed and the double-quote character. *)
Definition nl : string := String "010" EmptyString.
Definition dq : string := String "034" EmptyString.

(* ===================================================================== *)
(** * Instruction list *)
(* ===================================================================== *)

(** The tuples built by the grammar actions: [('REGISTER', name, value)],
    [('LABEL', name)], [('MOV', a, b)], ..., [('PUTC', r1, ..., rn)]. *)
Inductive instr : Type :=
| REGISTER (name : string) (value : Z)
| LABEL (name : string)
| MOV (a b : string)
| ADD (a b : string)
| SUB (a b : string)
| MUL (a b : string)
| DIV (a b : string)
| STORE (a b : string)
| LOAD (a b : string)
| PRINT (a : string)
| PUTC (rs : list string)
| GETC (a : string)
| EQ (a b : string)
| JEQ (a b l : string)
| NE (a b : string)
| JNE (a b l : string)
| GT (a b : string)
| JGT (a b l : string)
| GE (a b : string)
| JGE (a b l : string)
| JMP (l : string).

(** Exceptions the interpreter can raise. *)
Inductive py_error : Type :=
| KeyError (key : string)
| ValueError (msg : string)
| ZeroDivisionError
| OverflowError
| TypeError.

(* ===================================================================== *)
(** * Host arithmetic: [int(a / b)] *)
(* ===================================================================== *)

Module PyFloat.

(** [a / b] on Python integers is true division: the result is the binary64
    number nearest to the exact quotient (ties to even); [int(...)] then
    truncates that float toward zero. *)

Definition shl (x k : Z) : Z := if 0 <=? k then x * 2 ^ k else x.

(** [floor (log2 (n / d))] for positive [n], [d]. *)
Definition ilog2_ratio (n d : Z) : Z :=
  let k := Z.log2 n - Z.log2 d in
  if shl d k <=? shl n (- k) then k else k - 1.

(** The 53-bit significand [m] and exponent [e] of the binary64 nearest to
    [n / d] (value [m * 2^e], [2^52 <= m <= 2^53]). Results below the normal
    range are rounded as if normal: they are below 1 either way. *)
Definition nearest_binary64 (n d : Z) : Z * Z :=
  let e := ilog2_ratio n d - 52 in
  let num := shl n (- e) in
  let den := shl d e in
  let q := num / den in
  let r := num mod den in
  let m := if 2 * r <? den then q
           else if den <? 2 * r then q + 1
           else if Z.even q then q else q + 1 in
  (m, e).

(** [int(a / b)]. *)
Definition int_truediv (a b : Z) : py_error + Z :=
  if b =? 0 then inl ZeroDivisionError
  else if a =? 0 then inr 0
  else
    let '(m, e) := nearest_binary64 (Z.abs a) (Z.abs b) in
    if 2 ^ 1024 <=? shl m e then inl OverflowError
    else
      let t := if 0 <=? e then m * 2 ^ e else m / 2 ^ (- e) in
      inr (Z.sgn a * Z.sgn b * t).

End PyFloat.

(* ===================================================================== *)
(** * The interpreter: [run] *)
(* ===================================================================== *)

Module Interp.

(** [stdin] and [stdout] are text streams, kept as code points. *)
Record machine : Type := Machine {
  pc : nat;
  registers : gmap string Z;
  memory : gmap Z Z;
  stdin : list Z;
  stdout : list Z
}.

Definition set_pc (n : nat) (m : machine) : machine :=
  Machine n (registers m) (memory m) (stdin m) (stdout m).
Definition set_register (r : string) (v : Z) (m : machine) : machine :=
  Machine (pc m) (<[r := v]> (registers m)) (memory m) (stdin m) (stdout m).
Definition set_memory (a v : Z) (m : machine) : machine :=
  Machine (pc m) (registers m) (<[a := v]> (memory m)) (stdin m) (stdout m).
Definition set_stdin (i : list Z) (m : machine) : machine :=
  Machine (pc m) (registers m) (memory m) i (stdout m).
Definition write (s : list Z) (m : machine) : machine :=
  Machine (pc m) (registers m) (memory m) (stdin m) (stdout m ++ s).

Definition memory_size : Z := Z.shiftl 1 24.

(** Code points of a string of 8-bit characters. *)
Fixpoint codepoints (s : string) : list Z :=
  match s with
  | EmptyString => []
  | String c s' => Z.of_N (N_of_ascii c) :: codepoints s'
  end.

(** Outcome of one instruction: the machine carries on, or an exception is
    raised in the given machine state. *)
Inductive outcome : Type :=
| Continue (m : machine)
| Raise (e : py_error) (m : machine).

(** [registers[r]] followed by [k]. *)
Definition with_reg (m : machine) (r : string) (k : Z -> outcome) : outcome :=
  match registers m !! r with
  | Some v => k v
  | None => Raise (KeyError r) m
  end.

(** [pc = label_map[l]]. *)
Definition jump (label_map : gmap string nat) (l : string) (m : machine) : outcome :=
  match label_map !! l with
  | Some i => Continue (set_pc i m)
  | None => Raise (KeyError l) m
  end.

(** The [for i in range(1, len(op))] loop of PUTC. *)
Fixpoint putc (rs : list string) (m : machine) : outcome :=
  match rs with
  | [] => Continue m
  | r :: rs' =>
      with_reg m r (fun c =>
        if (0 <=? c) && (c <? 1114112)
        then putc rs' (write [c] m)
        else Raise (ValueError "chr() arg not in range(0x110000)") m)
  end.

Definition compare (m : machine) (a b : string) (cond : Z -> Z -> bool) : outcome :=
  with_reg m a (fun x => with_reg m b (fun y =>
    Continue (set_register a (if cond x y then 1 else 0) m))).

Definition cond_jump (label_map : gmap string nat) (m : machine)
    (a b l : string) (cond : Z -> Z -> bool) : outcome :=
  with_reg m a (fun x => with_reg m b (fun y =>
    if cond x y then jump label_map l m else Continue m)).

(** The dispatch of the [while] loop body, after [pc += 1]. *)
Definition exec (label_map : gmap string nat) (op : instr) (m : machine) : outcome :=
  match op with
  | REGISTER r v => Continue (set_register r v m)
  | LABEL _ => Continue m
  | MOV a b => with_reg m b (fun y => Continue (set_register a y m))
  | ADD a b => with_reg m a (fun x => with_reg m b (fun y =>
                 Continue (set_register a (x + y) m)))
  | SUB a b => with_reg m a (fun x => with_reg m b (fun y =>
                 Continue (set_register a (x - y) m)))
  | MUL a b => with_reg m a (fun x => with_reg m b (fun y =>
                 Continue (set_register a (x * y) m)))
  | DIV a b => with_reg m a (fun x => with_reg m b (fun y =>
                 match PyFloat.int_truediv x y with
                 | inr q => Continue (set_register a q m)
                 | inl e => Raise e m
                 end))
  | STORE a b =>
      with_reg m b (fun addr =>
        if (memory_size <=? addr) || (addr <? 0)
        then Raise (ValueError "memory address to store is out of range") m
        else with_reg m a (fun v => Continue (set_memory addr v m)))
  | LOAD a b =>
      with_reg m b (fun addr =>
        if (memory_size <=? addr) || (addr <? 0)
        then Raise (ValueError "memory address to load is out of range") m
        else Continue (set_register a (default 0 (memory m !! addr)) m))
  | PRINT a => with_reg m a (fun v => Continue (write (codepoints (pretty v)) m))
  | PUTC rs => putc rs m
  | GETC a =>
      match stdin m with
      | c :: rest => Continue (set_register a c (set_stdin rest m))
      | [] => Raise TypeError m
      end
  | EQ a b => compare m a b Z.eqb
  | JEQ a b l => cond_jump label_map m a b l Z.eqb
  | NE a b => compare m a b (fun x y => negb (x =? y))
  | JNE a b l => cond_jump label_map m a b l (fun x y => negb (x =? y))
  | GT a b => compare m a b Z.gtb
  | JGT a b l => cond_jump label_map m a b l Z.gtb
  | GE a b => compare m a b Z.geb
  | JGE a b l => cond_jump label_map m a b l Z.geb
  | JMP l => jump label_map l m
  end.

(** The first loop of [run]: [label_map[op[1]] = i] for every LABEL. *)
Fixpoint build_label_map (data : list instr) (i : nat)
    (label_map : gmap string nat) : gmap string nat :=
  match data with
  | [] => label_map
  | LABEL l :: rest => build_label_map rest (S i) (<[l := i]> label_map)
  | _ :: rest => build_label_map rest (S i) label_map
  end.

Inductive result : Type :=
| Finished (m : machine)
| Raised (e : py_error) (m : machine)
| Running (m : machine).

(** One iteration of [while pc < len(data)]. *)
Definition step (data : list instr) (label_map : gmap string nat)
    (m : machine) : result :=
  match data !! pc m with
  | None => Finished m
  | Some op =>
      match exec label_map op (set_pc (S (pc m)) m) with
      | Continue m' => Running m'
      | Raise e m' => Raised e m'
      end
  end.

(** The loop, for at most [fuel] iterations. *)
Fixpoint loop (fuel : nat) (data : list instr) (label_map : gmap string nat)
    (m : machine) : result :=
  match fuel with
  | O => Running m
  | S fuel' =>
      match step data label_map m with
      | Running m' => loop fuel' data label_map m'
      | r => r
      end
  end.

Definition initial (input : list Z) : machine := Machine 0 ∅ ∅ input [].

(** [m'] is reached from [m] by iterations of the loop of [run] on [data]
    (each one fetches [data[pc]], adds one to [pc] and executes the
    instruction), none of which executes a STORE to the address [addr]. *)
Inductive undisturbed (data : list instr) (label_map : gmap string nat)
    (addr : Z) : machine -> machine -> Prop :=
| undisturbed_refl m : undisturbed data label_map addr m m
| undisturbed_step m m1 m2 :
    undisturbed data label_map addr m m1 ->
    step data label_map m1 = Running m2 ->
    (forall a b, data !! pc m1 = Some (STORE a b) ->
                 registers m1 !! b <> Some addr) ->
    undisturbed data label_map addr m m2.

(** The four comparison instructions with the test each one computes. *)
Definition comparisons : list ((string -> string -> instr) * (Z -> Z -> bool)) :=
  [ (EQ, Z.eqb); (NE, fun x y => negb (x =? y)); (GT, Z.gtb); (GE, Z.geb) ].

Definition run (fuel : nat) (data : list instr) (input : list Z) : result :=
  loop fuel data (build_label_map data 0 ∅) (initial input).

(** C3, as stated: a comparison leaves the second operand register as it
    was.  This formulation is refuted below. *)
Definition comparison_keeps_second_operand : Prop :=
  forall label_map tag cond a b m m',
    In (tag, cond) comparisons ->
    exec label_map (tag a b) m = Continue m' ->
    (registers m' !! a = Some 0 \/ registers m' !! a = Some 1)
    /\ registers m' !! b = registers m !! b.

(** C6, as stated: inside the range no error at all is raised.  This
    formulation is refuted below. *)
Definition in_range_never_raises : Prop :=
  forall label_map op a b m addr,
    op = STORE a b \/ op = LOAD a b ->
    registers m !! b = Some addr ->
    (~ 0 <= addr < 16777216 ->
     exists msg, exec label_map op m = Raise (ValueError msg) m)
    /\ (0 <= addr < 16777216 -> exists m', exec label_map op m = Continue m').

(** The machine state a result carries: the state at the end of the loop,
    at the exception, or when the iterations allowed are used up. *)
Definition machine_of (r : result) : machine :=
  match r with
  | Finished m | Raised _ m | Running m => m
  end.

(** The instructions whose branch of [run] assigns [pc]. *)
Definition is_jump (op : instr) : bool :=
  match op with
  | JEQ _ _ _ | JNE _ _ _ | JGT _ _ _ | JGE _ _ _ | JMP _ => true
  | _ => false
  end.

End Interp.

(* ===================================================================== *)
(** * The lexer *)
(* ===================================================================== *)

Module Lexer.

(** Token types: [tokens], with the two symbols the parser adds, [error] and
    [$end]. *)
Inductive terminal : Type :=
| T_I | T_UH
| T_REPLACE | T_APPEND | T_RIP | T_MULTIPLY | T_CHOP
| T_PUSH | T_PULL | T_PRINT | T_PUT | T_PICK
| T_COMPARE | T_SUPERIOR | T_JUMP
| T_HAVE | T_NO | T_A | T_NUMBER | T_REGISTER
| T_HYPHEN | T_SPACE | T_NEWLINE
| T_QUESTION_MARK | T_EXCLAMATION_MARK
| T_error | T_end.

(** [keyword_map]. *)
Definition keyword_map : list (string * terminal) :=
  [ ("I", T_I); ("Uh", T_UH);
    ("Replace", T_REPLACE); ("Append", T_APPEND); ("Rip", T_RIP);
    ("Multiply", T_MULTIPLY); ("Chop", T_CHOP);
    ("Push", T_PUSH); ("Pull", T_PULL); ("Print", T_PRINT); ("Put", T_PUT);
    ("Pick", T_PICK);
    ("Compare", T_COMPARE); ("Superior", T_SUPERIOR); ("Jump", T_JUMP) ].

Fixpoint keyword_lookup (m : list (string * terminal)) (s : string) : option terminal :=
  match m with
  | [] => None
  | (k, t) :: m' => if String.eqb k s then Some t else keyword_lookup m' s
  end.

(** A token value is the matched text, or an integer after [t_NUMBER]. *)
Inductive tokval : Type :=
| TokStr (s : string)
| TokInt (n : Z).

Record LexToken : Type := Token {
  type : terminal;
  value : tokval;
  lineno : Z
}.

Definition in_range (lo hi : N) (c : ascii) : bool :=
  let n := N_of_ascii c in (N.leb lo n && N.leb n hi)%bool.

Definition is_digit (c : ascii) : bool := in_range 48 57 c.
Definition is_upper (c : ascii) : bool := in_range 65 90 c.
Definition is_lower (c : ascii) : bool := in_range 97 122 c.
Definition is_alnum (c : ascii) : bool := (is_upper c || is_lower c || is_digit c)%bool.
Definition is_blank (c : ascii) : bool :=
  (Ascii.eqb c " " || Ascii.eqb c "009")%bool.
Definition is_newline (c : ascii) : bool := Ascii.eqb c "010".

(** Longest prefix of characters satisfying [p], and the rest. *)
Fixpoint span (p : ascii -> bool) (s : string) : string * string :=
  match s with
  | EmptyString => (EmptyString, EmptyString)
  | String c s' =>
      if p c then let '(a, b) := span p s' in (String c a, b)
      else (EmptyString, s)
  end.

(** The number a string of digits denotes: what [int] returns when it
    accepts the string. *)
Fixpoint int_of_digits (s : string) (acc : Z) : Z :=
  match s with
  | EmptyString => acc
  | String c s' =>
      int_of_digits s' (10 * acc + (Z.of_N (N_of_ascii c) - 48))
  end.

(** What the master regular expression finds at one position: a token (type,
    text, rest of the input), an ignored comment, or nothing. *)
Inductive matched : Type :=
| MToken (t : terminal) (text : string) (rest : string)
| MComment
| MNone.

Definition has_prefix (p s : string) : option string :=
  if String.prefix p s then Some (String.substring (String.length p)
                                     (String.length s - String.length p) s)
  else None.

Definition master (c : ascii) (rest : string) : matched :=
  let s := String c rest in
  if is_digit c then                       (* t_NUMBER  \d+ *)
    let '(d, r) := span is_digit s in MToken T_NUMBER d r
  else if is_upper c then                  (* t_REGISTER  [A-Z][A-Za-z0-9]* *)
    let '(w, r) := span is_alnum s in
    match keyword_lookup keyword_map w with
    | Some k => MToken k w r
    | None => MToken T_REGISTER w r
    end
  else if is_newline c then                (* t_NEWLINE  \r?\n *)
    MToken T_NEWLINE (String c EmptyString) rest
  else if Ascii.eqb c "013" then
    match rest with
    | String c' rest' =>
        if is_newline c' then
          MToken T_NEWLINE (String c (String c' EmptyString)) rest'
        else MNone
    | EmptyString => MNone
    end
  else if Ascii.eqb c "#" then MComment    (* t_ignore_COMMENT  \#[^\n]* *)
  else if is_blank c then                  (* t_SPACE  [ \t]+ *)
    let '(w, r) := span is_blank s in MToken T_SPACE w r
  else if Ascii.eqb c "h" then             (* t_HAVE  have *)
    match has_prefix "have" s with
    | Some r => MToken T_HAVE "have" r
    | None => MNone
    end
  else if Ascii.eqb c "a" then             (* t_A  an? *)
    match rest with
    | String "n" r => MToken T_A "an" r
    | _ => MToken T_A "a" rest
    end
  else if Ascii.eqb c "n" then             (* t_NO  no *)
    match rest with
    | String "o" r => MToken T_NO "no" r
    | _ => MNone
    end
  else if Ascii.eqb c "?" then MToken T_QUESTION_MARK "?" rest
  else if Ascii.eqb c "!" then MToken T_EXCLAMATION_MARK "!" rest
  else if Ascii.eqb c "-" then MToken T_HYPHEN "-" rest
  else MNone.

(** Lexer state: the unread input and [lexer.lineno]. *)
Record lexer : Type := Lex {
  lexdata : string;
  lexlineno : Z
}.

(** [t_error]. *)
Definition t_error (c : ascii) : string :=
  "Illegal character '" +:+ String c "'".

(** [sys.int_info.default_max_str_digits]: [int] refuses a string of more
    digit characters than this. *)
Definition max_str_digits : nat := 4300.

(** [int(t.value)] in [t_NUMBER], on the text matched by [\d+]. *)
Definition int_of_text (d : string) : py_error + Z :=
  if (String.length d <=? max_str_digits)%nat then inr (int_of_digits d 0)
  else inl (ValueError
              ("Exceeds the limit (4300 digits) for integer string conversion: "
               +:+ "value has " +:+ pretty (String.length d)
               +:+ " digits; use sys.set_int_max_str_digits() to increase the limit")).

(** What one call of [lexer.token()] comes to, with the lines printed by
    [t_error] on the way and the new state: a token, the end of the input,
    or the exception raised by a rule function. *)
Inductive scanned : Type :=
| Found (msgs : list string) (t : LexToken) (l : lexer)
| AtEnd (msgs : list string) (l : lexer)
| Failed (msgs : list string) (e : py_error) (l : lexer).

(** One call of [lexer.token()].  [in_comment] is set while the characters
    of a comment are skipped. *)
Fixpoint scan (in_comment : bool) (s : string) (line : Z) (msgs : list string)
    : scanned :=
  match s with
  | EmptyString => AtEnd msgs (Lex EmptyString line)
  | String c rest =>
      if (in_comment && negb (is_newline c))%bool then scan true rest line msgs
      else
        match master c rest with
        | MToken T_NUMBER d r =>
            match int_of_text d with
            | inr n => Found msgs (Token T_NUMBER (TokInt n) line) (Lex r line)
            | inl e => Failed msgs e (Lex r line)
            end
        | MToken T_NEWLINE w r =>
            Found msgs (Token T_NEWLINE (TokStr w) line) (Lex r (line + 1))
        | MToken t w r =>
            Found msgs (Token t (TokStr w) line) (Lex r line)
        | MComment => scan true rest line msgs
        | MNone => scan false rest line (msgs ++ [t_error c])
        end
  end.

(** The token a call returns ([None] when it returns none: at the end of
    the input, or because it raises). *)
Definition token (l : lexer) : list string * option LexToken * lexer :=
  match scan false (lexdata l) (lexlineno l) [] with
  | Found msgs t l' => (msgs, Some t, l')
  | AtEnd msgs l' => (msgs, None, l')
  | Failed msgs _ l' => (msgs, None, l')
  end.

(** All the calls of [token()] the parser can make on an input, in order:
    each token with the lines printed before it, then the lines printed by
    the call that returns no token. *)
Fixpoint tokens_from (fuel : nat) (l : lexer)
    : list (list string * LexToken) * list string :=
  match fuel with
  | O => ([], [])
  | S fuel' =>
      match token l with
      | (msgs, Some t, l') =>
          let '(ts, last) := tokens_from fuel' l' in ((msgs, t) :: ts, last)
      | (msgs, None, _) => ([], msgs)
      end
  end.

(** [lexer.input(data)] with [lexobj.lineno = 1]; every token takes at least
    one character, so [length data + 1] calls reach the end. *)
Definition tokenize (data : string) : list (list string * LexToken) * list string :=
  tokens_from (S (String.length data)) (Lex data 1).

(** The exception that ends the calls of [token()], if one does. *)
Fixpoint raises_from (fuel : nat) (l : lexer) : option py_error :=
  match fuel with
  | O => None
  | S fuel' =>
      match scan false (lexdata l) (lexlineno l) [] with
      | Found _ _ l' => raises_from fuel' l'
      | AtEnd _ _ => None
      | Failed _ e _ => Some e
      end
  end.

Definition tokenize_raises (data : string) : option py_error :=
  raises_from (S (String.length data)) (Lex data 1).

(** The number of end-of-line tokens in a list of tokens. *)
Definition line_breaks (toks : list (list string * LexToken)) : Z :=
  Z.of_nat (length (List.filter (fun x => match type (snd x) with
                                          | T_NEWLINE => true
                                          | _ => false
                                          end) toks)).

End Lexer.

(* ===================================================================== *)
(** * The grammar *)
(* ===================================================================== *)

Module Grammar.
Import Lexer.

Inductive nonterminal : Type :=
| N_start
| N_program | N_line | N_uh | N_empty_or_space | N_register_declaration
| N_number | N_label | N_register | N_command
| N_replace | N_append | N_rip | N_multiply | N_chop | N_push | N_pull
| N_print | N_put | N_registers | N_pick | N_compare | N_superior | N_jump.

Inductive symbol : Type :=
| T (t : terminal)
| N (n : nonterminal).

(** The grammar functions of the source, one per [p_...] definition. *)
Inductive rule : Type :=
| p_start
| p_program | p_program_error | p_line | p_uh | p_empty_or_space
| p_register_declaration | p_number | p_label | p_register | p_command
| p_replace | p_append | p_rip | p_multiply | p_chop | p_push | p_pull
| p_print | p_put | p_registers | p_pick | p_compare | p_superior | p_jump.

Record production : Type := Prod {
  callable : rule;
  lhs : nonterminal;
  rhs : list symbol
}.

Definition binary (f : rule) (n : nonterminal) (kw : terminal) : production :=
  Prod f n [T kw; T T_HYPHEN; N N_register; T T_HYPHEN; N N_register].

Definition unary (f : rule) (n : nonterminal) (kw : terminal) (arg : nonterminal)
    : production :=
  Prod f n [T kw; T T_HYPHEN; N arg].

(** The four shapes of [compare] and [superior]. *)
Definition comparison (f : rule) (n : nonterminal) (kw : terminal) : list production :=
  let base := [T kw; T T_HYPHEN; N N_register; T T_HYPHEN; N N_register] in
  [ Prod f n base;
    Prod f n (base ++ [T T_QUESTION_MARK]);
    Prod f n (base ++ [T T_HYPHEN; N N_label; T T_EXCLAMATION_MARK]);
    Prod f n (base ++ [T T_HYPHEN; N N_label; T T_EXCLAMATION_MARK;
                       T T_QUESTION_MARK]) ].

(** The productions of the docstrings, in source order, after the
    augmenting production [S' -> program]. *)
Definition productions : list production :=
  [ Prod p_start N_start [N N_program];
    Prod p_program N_program [N N_program; N N_line];
    Prod p_program N_program [N N_line];
    Prod p_program_error N_program [T T_error];
    Prod p_line N_line [N N_empty_or_space; N N_register_declaration;
                        N N_empty_or_space; T T_NEWLINE];
    Prod p_line N_line [N N_empty_or_space; N N_label;
                        N N_empty_or_space; T T_NEWLINE];
    Prod p_line N_line [N N_empty_or_space; N N_uh; T T_SPACE; N N_label;
                        N N_empty_or_space; T T_NEWLINE];
    Prod p_line N_line [N N_empty_or_space; N N_uh; T T_SPACE; N N_command;
                        N N_empty_or_space; T T_NEWLINE];
    Prod p_line N_line [N N_empty_or_space; T T_NEWLINE];
    Prod p_uh N_uh [T T_UH; T T_EXCLAMATION_MARK];
    Prod p_empty_or_space N_empty_or_space [];
    Prod p_empty_or_space N_empty_or_space [T T_SPACE];
    Prod p_register_declaration N_register_declaration
         [T T_I; T T_SPACE; T T_HAVE; T T_SPACE; N N_number; T T_SPACE;
          T T_REGISTER];
    Prod p_register_declaration N_register_declaration
         [T T_I; T T_SPACE; T T_HAVE; T T_SPACE; T T_REGISTER];
    Prod p_number N_number [T T_NO];
    Prod p_number N_number [T T_A];
    Prod p_number N_number [T T_NUMBER];
    Prod p_label N_label [N N_label; T T_HYPHEN; N N_register];
    Prod p_label N_label [N N_register; T T_HYPHEN; N N_register];
    Prod p_register N_register [T T_REGISTER];
    Prod p_command N_command [N N_replace];
    Prod p_command N_command [N N_append];
    Prod p_command N_command [N N_rip];
    Prod p_command N_command [N N_multiply];
    Prod p_command N_command [N N_chop];
    Prod p_command N_command [N N_push];
    Prod p_command N_command [N N_pull];
    Prod p_command N_command [N N_print];
    Prod p_command N_command [N N_put];
    Prod p_command N_command [N N_pick];
    Prod p_command N_command [N N_compare];
    Prod p_command N_command [N N_superior];
    Prod p_command N_command [N N_jump];
    binary p_replace N_replace T_REPLACE;
    binary p_append N_append T_APPEND;
    binary p_rip N_rip T_RIP;
    binary p_multiply N_multiply T_MULTIPLY;
    binary p_chop N_chop T_CHOP;
    binary p_push N_push T_PUSH;
    binary p_pull N_pull T_PULL;
    unary p_print N_print T_PRINT N_register;
    unary p_put N_put T_PUT N_registers;
    Prod p_registers N_registers [N N_registers; T T_HYPHEN; N N_register];
    Prod p_registers N_registers [N N_register];
    unary p_pick N_pick T_PICK N_register ]
  ++ comparison p_compare N_compare T_COMPARE
  ++ comparison p_superior N_superior T_SUPERIOR
  ++ [ unary p_jump N_jump T_JUMP N_label ].

End Grammar.

(* ===================================================================== *)
(** * LALR(1) table construction *)
(* ===================================================================== *)

(** [yacc.yacc()] turns the grammar into LALR(1) tables.  They are computed
    here from [Grammar.productions]: the canonical LR(1) collection is built
    and the states with the same core are merged. *)

Module LALR.
Import Lexer Grammar.
Local Open Scope nat_scope.

Scheme Equality for terminal.
Scheme Equality for nonterminal.

Definition symbol_beq (x y : symbol) : bool :=
  match x, y with
  | T a, T b => terminal_beq a b
  | N a, N b => nonterminal_beq a b
  | _, _ => false
  end.

(** An LR(1) item: production number, position of the dot, lookahead. *)
Record item : Type := Item { iprod : nat; idot : nat; ila : terminal }.

Definition item_beq (x y : item) : bool :=
  (Nat.eqb (iprod x) (iprod y) && Nat.eqb (idot x) (idot y)
   && terminal_beq (ila x) (ila y))%bool.

(** Parser actions. *)
Inductive action : Type :=
| Shift (s : nat)
| Reduce (p : nat)
| Accept.

Definition action_beq (x y : action) : bool :=
  match x, y with
  | Shift a, Shift b => Nat.eqb a b
  | Reduce a, Reduce b => Nat.eqb a b
  | Accept, Accept => true
  | _, _ => false
  end.

Record tables : Type := Tables {
  action_table : list (list (terminal * action));
  goto_table : list (list (nonterminal * nat))
}.

Section Generator.

Variable prods : list production.

Definition add {A} (eqb : A -> A -> bool) (x : A) (l : list A) : list A :=
  if existsb (eqb x) l then l else l ++ [x].

Definition union {A} (eqb : A -> A -> bool) (l more : list A) : list A :=
  fold_left (fun acc x => add eqb x acc) more l.

Definition rhs_of (p : nat) : list symbol :=
  match nth_error prods p with
  | Some pr => rhs pr
  | None => []
  end.

Definition after_dot (it : item) : list symbol :=
  skipn (idot it) (rhs_of (iprod it)).

(** Nonterminals deriving the empty string. *)
Definition nullable_step (nl : list nonterminal) : list nonterminal :=
  fold_left (fun acc pr =>
    if forallb (fun s => match s with
                         | N n => existsb (nonterminal_beq n) acc
                         | T _ => false
                         end) (rhs pr)
    then add nonterminal_beq (lhs pr) acc else acc) prods nl.

Definition nullable : list nonterminal :=
  Nat.iter (length prods) nullable_step [].

(** FIRST sets, as a relation between nonterminals and terminals. *)
Definition pair_beq (x y : nonterminal * terminal) : bool :=
  (nonterminal_beq (fst x) (fst y) && terminal_beq (snd x) (snd y))%bool.

Fixpoint first_seq (nl : list nonterminal) (fs : list (nonterminal * terminal))
    (beta : list symbol) : list terminal * bool :=
  match beta with
  | [] => ([], true)
  | T t :: _ => ([t], false)
  | N n :: beta' =>
      let here := map snd (filter (fun p => nonterminal_beq (fst p) n) fs) in
      if existsb (nonterminal_beq n) nl
      then let '(r, e) := first_seq nl fs beta' in (here ++ r, e)
      else (here, false)
  end.

Definition first_step (nl : list nonterminal) (fs : list (nonterminal * terminal))
    : list (nonterminal * terminal) :=
  fold_left (fun acc pr =>
    union pair_beq acc (map (fun t => (lhs pr, t)) (fst (first_seq nl acc (rhs pr)))))
    prods fs.

Definition first (nl : list nonterminal) : list (nonterminal * terminal) :=
  Nat.iter (length prods) (first_step nl) [].

(** The grammar analysis shared by the construction. *)
Record analysis : Type := Analysis {
  an_nullable : list nonterminal;
  an_first : list (nonterminal * terminal)
}.

Definition analyse : analysis :=
  let nl := nullable in Analysis nl (first nl).

(** Productions of a nonterminal, by number. *)
Definition prods_of (n : nonterminal) : list nat :=
  map fst (filter (fun ip => nonterminal_beq (lhs (snd ip)) n)
                  (combine (seq 0 (length prods)) prods)).

(** The items an item adds to a closure. *)
Definition expand (an : analysis) (it : item) : list item :=
  match after_dot it with
  | N b :: beta =>
      let '(fs, e) := first_seq (an_nullable an) (an_first an) beta in
      let las := if e then fs ++ [ila it] else fs in
      flat_map (fun p => map (fun a => Item p 0 a) las) (prods_of b)
  | _ => []
  end.

Fixpoint closure_loop (an : analysis) (fuel i : nat) (acc : list item)
    : list item :=
  match fuel with
  | O => acc
  | S fuel' =>
      match nth_error acc i with
      | None => acc
      | Some it => closure_loop an fuel' (S i) (union item_beq acc (expand an it))
      end
  end.

Definition closure_fuel : nat := 4000.

Definition closure (an : analysis) (kernel : list item) : list item :=
  closure_loop an closure_fuel 0 kernel.

Definition advance (x : symbol) (items : list item) : list item :=
  flat_map (fun it =>
    match after_dot it with
    | y :: _ => if symbol_beq x y then [Item (iprod it) (S (idot it)) (ila it)] else []
    | [] => []
    end) items.

Definition next_symbols (items : list item) : list symbol :=
  fold_left (fun acc it =>
    match after_dot it with
    | y :: _ => add symbol_beq y acc
    | [] => acc
    end) items [].

(** An LR(1) state: its kernel and its closure. *)
Record state : Type := State { kernel : list item; items : list item }.

Definition same_set {A} (eqb : A -> A -> bool) (k1 k2 : list A) : bool :=
  (Nat.eqb (length k1) (length k2)
   && forallb (fun x => existsb (eqb x) k2) k1)%bool.

Fixpoint find_index {A} (p : A -> bool) (l : list A) (i : nat) : option nat :=
  match l with
  | [] => None
  | x :: l' => if p x then Some i else find_index p l' (S i)
  end.

Definition transition : Type := (nat * symbol * nat)%type.

(** The transitions of state [i] on the symbols [syms], adding the states
    met for the first time. *)
Fixpoint explore (an : analysis) (i : nat) (its : list item) (syms : list symbol)
    (states : list state) (trans : list transition)
    : list state * list transition :=
  match syms with
  | [] => (states, trans)
  | x :: syms' =>
      let k := advance x its in
      match find_index (fun st => same_set item_beq k (kernel st)) states 0 with
      | Some j => explore an i its syms' states (trans ++ [(i, x, j)])
      | None =>
          explore an i its syms' (states ++ [State k (closure an k)])
                  (trans ++ [(i, x, length states)])
      end
  end.

Fixpoint collection_loop (an : analysis) (fuel i : nat) (states : list state)
    (trans : list transition) : list state * list transition :=
  match fuel with
  | O => (states, trans)
  | S fuel' =>
      match nth_error states i with
      | None => (states, trans)
      | Some st =>
          let '(states', trans') :=
            explore an i (items st) (next_symbols (items st)) states trans in
          collection_loop an fuel' (S i) states' trans'
      end
  end.

Definition collection_fuel : nat := 4000.

(** The canonical LR(1) collection, from [S' -> . program, $end]. *)
Definition collection : list state * list transition :=
  let an := analyse in
  let k0 := [Item 0 0 T_end] in
  collection_loop an collection_fuel 0 [State k0 (closure an k0)] [].

(** The core of a state: its kernel without the lookaheads. *)
Definition core_beq (x y : nat * nat) : bool :=
  (Nat.eqb (fst x) (fst y) && Nat.eqb (snd x) (snd y))%bool.

Definition core (st : state) : list (nat * nat) :=
  fold_left (fun acc it => add core_beq (iprod it, idot it) acc) (kernel st) [].

(** Cores in order of first appearance: the LALR(1) states. *)
Definition cores (states : list state) : list (list (nat * nat)) :=
  fold_left (fun acc st => add (same_set core_beq) (core st) acc) states [].

Definition class_of (cs : list (list (nat * nat))) (st : state) : nat :=
  match find_index (same_set core_beq (core st)) cs 0 with
  | Some j => j
  | None => 0
  end.

Definition action_entry_beq (x y : terminal * action) : bool :=
  (terminal_beq (fst x) (fst y) && action_beq (snd x) (snd y))%bool.

Definition goto_entry_beq (x y : nonterminal * nat) : bool :=
  (nonterminal_beq (fst x) (fst y) && Nat.eqb (snd x) (snd y))%bool.

Definition target (trans : list transition) (i : nat) (x : symbol) : option nat :=
  match find (fun tr => (Nat.eqb (fst (fst tr)) i
                         && symbol_beq (snd (fst tr)) x)%bool) trans with
  | Some tr => Some (snd tr)
  | None => None
  end.

(** The actions an LR(1) state contributes to its LALR(1) state. *)
Definition actions_of (classes : list nat) (trans : list transition)
    (i : nat) (st : state) : list (terminal * action) :=
  fold_left (fun acc it =>
    match after_dot it with
    | [] => add action_entry_beq
              (ila it, if Nat.eqb (iprod it) 0 then Accept else Reduce (iprod it)) acc
    | T a :: _ =>
        match target trans i (T a) with
        | Some j => add action_entry_beq (a, Shift (nth j classes 0)) acc
        | None => acc
        end
    | N _ :: _ => acc
    end) (items st) [].

Definition gotos_of (classes : list nat) (trans : list transition) (i : nat)
    : list (nonterminal * nat) :=
  flat_map (fun tr =>
    match tr with
    | (i', N n, j) => if Nat.eqb i i' then [(n, nth j classes 0)] else []
    | _ => []
    end) trans.

Definition build : tables :=
  let '(states, trans) := collection in
  let cs := cores states in
  let classes := map (class_of cs) states in
  let indexed := combine (seq 0 (length states)) (combine classes states) in
  let row {A} (eqb : A -> A -> bool) (f : nat -> state -> list A) (c : nat) :=
    fold_left (fun acc e =>
      let '(i, (c', st)) := e in
      if Nat.eqb c c' then union eqb acc (f i st) else acc) indexed [] in
  Tables
    (map (row action_entry_beq (actions_of classes trans)) (seq 0 (length cs)))
    (map (row goto_entry_beq (fun i _ => gotos_of classes trans i)) (seq 0 (length cs))).

End Generator.

End LALR.

(* ===================================================================== *)
(** * The LR driver *)
(* ===================================================================== *)

(** The loop of [parser.parse]: a table-driven LR automaton with the error
    recovery of the parser generator.  It is written once, for any type [V]
    of semantic values and any type [U] of user state, so that its control
    can be studied apart from the grammar actions. *)

Module Driver.
Import Lexer Grammar LALR.
Local Open Scope nat_scope.

Section Engine.

Context {V U : Type}.

(** A symbol on the parser's stacks: a token or a grammar symbol with its
    value; [sline] is the [lineno] attribute, 0 when there is none. *)
Record sym : Type := Sym { stype : symbol; sval : V; sline : Z }.

(** What the grammar module provides. *)
Record semantics : Type := Semantics {
  reduce_fn : rule -> list sym -> U -> V * U;   (* p.callable(pslice) *)
  error_fn : option sym -> U -> U;              (* p_error(token) *)
  emit : list string -> U -> U;                 (* lines printed by the lexer *)
  error_value : sym -> V;                       (* value of an [error] symbol *)
  none_value : V                                (* None *)
}.

Variable tabs : tables.
Variable prods : list production.
Variable sem : semantics.

Record config : Type := Config {
  state : nat;
  statestack : list nat;        (* top first *)
  symstack : list sym;          (* top first *)
  lookahead : option sym;
  lookaheadstack : list sym;    (* top first *)
  errorcount : nat;
  input : list (list string * sym);
  at_eof : list string;
  user : U
}.

Inductive outcome : Type :=
| Next (c : config)
| Return (result : option V) (u : U)
| Crash.

Definition error_count : nat := 3.

Definition actions (st : nat) : list (terminal * action) :=
  nth st (action_table tabs) [].

Definition lookup_action (st : nat) (t : terminal) : option action :=
  match find (fun e => terminal_beq (fst e) t) (actions st) with
  | Some e => Some (snd e)
  | None => None
  end.

(** [defaulted_states]: states whose only action is one reduction. *)
Definition defaulted (st : nat) : option action :=
  match actions st with
  | [(_, Reduce p)] => Some (Reduce p)
  | _ => None
  end.

Definition goto (st : nat) (n : nonterminal) : option nat :=
  match find (fun e => nonterminal_beq (fst e) n) (nth st (goto_table tabs) []) with
  | Some e => Some (snd e)
  | None => None
  end.

Definition end_sym : sym := Sym (T T_end) (none_value sem) 0.

Definition terminal_of (y : sym) : terminal :=
  match stype y with
  | T t => t
  | N _ => T_error
  end.

(** Make sure there is a lookahead symbol: the pushed-back one, or the next
    token of the lexer, or [$end]. *)
Definition fetch (c : config) : config :=
  match lookahead c with
  | Some _ => c
  | None =>
      match lookaheadstack c with
      | y :: rest =>
          Config (state c) (statestack c) (symstack c) (Some y) rest
                 (errorcount c) (input c) (at_eof c) (user c)
      | [] =>
          match input c with
          | (msgs, tok) :: rest =>
              Config (state c) (statestack c) (symstack c) (Some tok) []
                     (errorcount c) rest (at_eof c) (emit sem msgs (user c))
          | [] =>
              Config (state c) (statestack c) (symstack c) (Some end_sym) []
                     (errorcount c) [] [] (emit sem (at_eof c) (user c))
          end
      end
  end.

Definition shift (t : nat) (y : sym) (c : config) : outcome :=
  Next (Config t (t :: statestack c) (y :: symstack c) None (lookaheadstack c)
               (errorcount c - 1) (input c) (at_eof c) (user c)).

Definition reduce (p : nat) (c : config) : outcome :=
  match nth_error prods p with
  | None => Crash
  | Some pr =>
      let plen := length (rhs pr) in
      let args := rev (firstn plen (symstack c)) in
      let '(v, u) := reduce_fn sem (callable pr) args (user c) in
      let states := skipn plen (statestack c) in
      match states with
      | [] => Crash
      | top :: _ =>
          match goto top (lhs pr) with
          | None => Crash
          | Some s =>
              Next (Config s (s :: states)
                           (Sym (N (lhs pr)) v 0 :: skipn plen (symstack c))
                           (lookahead c) (lookaheadstack c) (errorcount c)
                           (input c) (at_eof c) u)
          end
      end
  end.

(** The branch taken when the table has no action for the lookahead [y]. *)
Definition recover (y : sym) (c : config) : outcome :=
  let u := if Nat.eqb (errorcount c) 0
           then error_fn sem (match stype y with
                              | T T_end => None
                              | _ => Some y
                              end) (user c)
           else user c in
  let is_end := match stype y with T T_end => true | _ => false end in
  let is_error := match stype y with T T_error => true | _ => false end in
  if (Nat.leb (length (statestack c)) 1 && negb is_end)%bool then
    (* the whole parse is rolled back: the token is discarded *)
    Next (Config 0 (statestack c) (symstack c) None [] error_count
                 (input c) (at_eof c) u)
  else if is_end then Return None u
  else if negb is_error then
    match symstack c with
    | top :: _ =>
        match stype top with
        | T T_error =>
            (* error already on top of the stack: drop the input symbol *)
            Next (Config (state c) (statestack c) (symstack c) None
                         (lookaheadstack c) error_count (input c) (at_eof c) u)
        | _ =>
            Next (Config (state c) (statestack c) (symstack c)
                         (Some (Sym (T T_error) (error_value sem y) (sline y)))
                         (y :: lookaheadstack c) error_count
                         (input c) (at_eof c) u)
        end
    | [] => Crash
    end
  else
    match symstack c, statestack c with
    | _ :: syms, _ :: (s :: _) as states =>
        Next (Config s states syms (lookahead c) (lookaheadstack c) error_count
                     (input c) (at_eof c) u)
    | _, _ => Crash
    end.

Definition perform (a : action) (y : option sym) (c : config) : outcome :=
  match a, y with
  | Shift t, Some y => shift t y c
  | Shift _, None => Crash
  | Reduce p, _ => reduce p c
  | Accept, _ =>
      match symstack c with
      | top :: _ => Return (Some (sval top)) (user c)
      | [] => Crash
      end
  end.

(** One iteration of the [while True] loop. *)
Definition step (c : config) : outcome :=
  match defaulted (state c) with
  | Some a => perform a (lookahead c) c
  | None =>
      let c' := fetch c in
      match lookahead c' with
      | None => Crash
      | Some y =>
          match lookup_action (state c') (terminal_of y) with
          | Some a => perform a (Some y) c'
          | None => recover y c'
          end
      end
  end.

Fixpoint iterate (fuel : nat) (c : config) : option (option V * U) :=
  match fuel with
  | O => None
  | S fuel' =>
      match step c with
      | Next c' => iterate fuel' c'
      | Return r u => Some (r, u)
      | Crash => None
      end
  end.

(** [n] iterations, unless the loop stops before. *)
Fixpoint advance (n : nat) (c : config) : outcome :=
  match n with
  | O => Next c
  | S n' =>
      match step c with
      | Next c' => advance n' c'
      | o => o
      end
  end.

(** The next iteration finds no action for the lookahead symbol [y]. *)
Definition rejects (c : config) (y : sym) : Prop :=
  defaulted (state c) = None
  /\ lookahead (fetch c) = Some y
  /\ lookup_action (state c) (terminal_of y) = None.

(** The driver is recovering from an error: [error] is on top of the stack. *)
Definition recovering (c : config) : Prop :=
  exists top rest, symstack c = top :: rest /\ stype top = T T_error.

(** The state at the start of [parse]: state 0 with [$end] on the stack. *)
Definition start (toks : list (list string * sym)) (last : list string) (u : U)
    : config :=
  Config 0 [0] [end_sym] None [] 0 toks last u.

End Engine.

Arguments sym : clear implicits.
Arguments semantics : clear implicits.
Arguments config : clear implicits.
Arguments outcome : clear implicits.

End Driver.

(* ===================================================================== *)
(** * The control of the driver *)
(* ===================================================================== *)

(** The driver's control (states, symbol types, pending lookahead) does not
    depend on the semantic values.  Running it on values of type [unit]
    gives a finite-state machine whose reachable configurations can be
    listed. *)

Module Control.
Import Lexer Grammar LALR Driver.
Local Open Scope nat_scope.

Abbreviation aconfig := (config unit unit).

Definition plain : semantics unit unit :=
  Semantics (fun _ _ u => (tt, u)) (fun _ u => u) (fun _ u => u) (fun _ => tt) tt.

Definition erase_sym {V} (y : sym V) : sym unit := Sym (stype y) tt 0.

(** Forget the values, the user state, the error counter and the input. *)
Definition erase {V U} (c : config V U) : aconfig :=
  Config (state c) (statestack c) (map erase_sym (symstack c))
         (option_map erase_sym (lookahead c))
         (map erase_sym (lookaheadstack c)) 0 [] [] tt.

(** The token types the lexer produces. *)
Definition token_types : list terminal :=
  [ T_I; T_UH; T_REPLACE; T_APPEND; T_RIP; T_MULTIPLY; T_CHOP; T_PUSH; T_PULL;
    T_PRINT; T_PUT; T_PICK; T_COMPARE; T_SUPERIOR; T_JUMP; T_HAVE; T_NO; T_A;
    T_NUMBER; T_REGISTER; T_HYPHEN; T_SPACE; T_NEWLINE; T_QUESTION_MARK;
    T_EXCLAMATION_MARK ].

(** The next iteration asks the lexer for a token. *)
Definition needs_token {V U} (tabs : tables) (c : config V U) : bool :=
  match defaulted tabs (state c), lookahead c, lookaheadstack c with
  | None, None, [] => true
  | _, _, _ => false
  end.

(** What the lexer will answer: a token type, or the end of the input. *)
Definition feed (k : aconfig) (next : option terminal) : aconfig :=
  Config (state k) (statestack k) (symstack k) (lookahead k) (lookaheadstack k)
         0 (match next with
            | Some t => [([], Sym (T t) tt 0)]
            | None => []
            end) [] tt.

Inductive aoutcome : Type :=
| ANext (k : aconfig)
| AReturn (accepted : bool)
| ACrash.

Definition erase_outcome {V U} (o : outcome V U) : aoutcome :=
  match o with
  | Next c => ANext (erase c)
  | Return r _ => AReturn (match r with Some _ => true | None => false end)
  | Crash => ACrash
  end.

Definition astep (tabs : tables) (prods : list production) (k : aconfig)
    (next : option terminal) : aoutcome :=
  erase_outcome (step tabs prods plain (feed k next)).

Fixpoint list_beq {A} (eqb : A -> A -> bool) (a b : list A) : bool :=
  match a, b with
  | [], [] => true
  | x :: a', y :: b' => if eqb x y then list_beq eqb a' b' else false
  | _, _ => false
  end.

Definition sym_beq (x y : sym unit) : bool := symbol_beq (stype x) (stype y).

Definition aconfig_beq (a b : aconfig) : bool :=
  if match lookahead a, lookahead b with
     | Some x, Some y => sym_beq x y
     | None, None => true
     | _, _ => false
     end
  then if list_beq sym_beq (lookaheadstack a) (lookaheadstack b)
  then if Nat.eqb (state a) (state b)
  then if list_beq Nat.eqb (statestack a) (statestack b)
  then list_beq sym_beq (symstack a) (symstack b)
  else false else false else false else false.

Definition oracles : list (option terminal) := None :: map Some token_types.

(** Successors of a configuration, for every answer of the lexer when one is
    asked for. *)
Definition successors (tabs : tables) (prods : list production) (k : aconfig)
    : list aoutcome :=
  if needs_token tabs k then map (astep tabs prods k) oracles
  else [astep tabs prods k None].

(** The configurations met so far, filed by current state. *)
Definition known (seen : list (list aconfig)) (k : aconfig) : bool :=
  existsb (aconfig_beq k) (nth (state k) seen []).

Fixpoint file (i : nat) (k : aconfig) (seen : list (list aconfig))
    : list (list aconfig) :=
  match seen, i with
  | [], _ => []
  | b :: seen', O => (k :: b) :: seen'
  | b :: seen', S i' => b :: file i' k seen'
  end.

Fixpoint explore_loop (tabs : tables) (prods : list production)
    (fuel : nat) (queue : list aconfig) (seen : list (list aconfig))
    : list (list aconfig) :=
  match fuel with
  | O => seen
  | S fuel' =>
      match queue with
      | [] => seen
      | k :: queue' =>
          let '(queue'', seen') :=
            fold_left (fun acc o =>
              match o with
              | ANext k' =>
                  if known (snd acc) k' then acc
                  else (k' :: fst acc, file (state k') k' (snd acc))
              | _ => acc
              end) (successors tabs prods k) (queue', seen) in
          explore_loop tabs prods fuel' queue'' seen'
      end
  end.

Definition initial : aconfig := Config 0 [0] [Sym (T T_end) tt 0] None [] 0 [] [] tt.

Definition explore_fuel : nat := 100 * 200.

(** The configurations reachable from [initial]. *)
Definition explore (tabs : tables) (prods : list production)
    : list (list aconfig) :=
  explore_loop tabs prods explore_fuel [initial]
    (file 0 initial (map (fun _ => []) (action_table tabs))).

(** Every successor of a listed configuration is listed, and none is a
    crash. *)
Definition closed (tabs : tables) (prods : list production)
    (seen : list (list aconfig)) : bool :=
  forallb (forallb (fun k =>
    forallb (fun o =>
      match o with
      | ANext k' => known seen k'
      | AReturn _ => true
      | ACrash => false
      end) (successors tabs prods k))) seen.

(** Iterations that do not ask the lexer for a token: from [k], the driver
    returns ([Some None]) or comes to ask for a token ([Some (Some k')])
    within [n] iterations. *)
Fixpoint coast (tabs : tables) (prods : list production) (n : nat) (k : aconfig)
    : option (option aconfig) :=
  if needs_token tabs k then Some (Some k)
  else
    match n with
    | O => None
    | S n' =>
        match astep tabs prods k None with
        | ANext k' => coast tabs prods n' k'
        | AReturn _ => Some None
        | ACrash => None
        end
    end.

(** A configuration in the form [erase] gives. *)
Definition plain_sym (y : sym unit) : bool := (sline y =? 0)%Z.

Definition normal (k : aconfig) : bool :=
  (Nat.eqb (errorcount k) 0
   && match input k with [] => true | _ => false end
   && match at_eof k with [] => true | _ => false end
   && forallb plain_sym (symstack k)
   && forallb plain_sym (lookaheadstack k)
   && match lookahead k with Some y => plain_sym y | None => true end)%bool.

(** The symbol is an [error] symbol. *)
Definition is_error_sym {V} (y : sym V) : bool :=
  match stype y with T T_error => true | _ => false end.

(** The type of the token the lexer gives next. *)
Definition next_of {V U} (c : config V U) : option terminal :=
  match input c with
  | (_, y) :: _ => Some (terminal_of y)
  | [] => None
  end.

(** The input holds tokens of the lexer. *)
Definition token_like {V} (y : sym V) : Prop :=
  exists t, stype y = T t /\ In t token_types.

Definition input_ok {V U} (c : config V U) : Prop :=
  Forall (fun e => token_like (snd e)) (input c).

End Control.

(* ===================================================================== *)
(** * The grammar actions and [parse] *)
(* ===================================================================== *)

Module Parser.
Import Lexer Grammar LALR Driver.

(** Values held by grammar symbols. *)
Inductive pyval : Type :=
| PyNone
| PyStr (s : string)
| PyInt (n : Z)
| PyTuple (i : instr)             (* an instruction tuple *)
| PyNames (rs : list string)      (* the tuple built by [p_registers] *)
| PyList (l : list instr)         (* the list built by [p_program] *)
| PyToken (t : LexToken).         (* the token kept by an [error] symbol *)

(** Truth value of [if v]. *)
Definition truthy (v : pyval) : bool :=
  match v with
  | PyNone => false
  | PyStr s => negb (String.eqb s EmptyString)
  | PyInt n => negb (n =? 0)
  | PyTuple _ => true
  | PyNames rs => match rs with [] => false | _ => true end
  | PyList l => match l with [] => false | _ => true end
  | PyToken _ => true
  end.

(** A register name read from a grammar symbol; the grammar puts a string
    wherever this is used. *)
Definition str (v : pyval) : string :=
  match v with
  | PyStr s => s
  | _ => EmptyString
  end.

(** [t[1]] on an instruction tuple. *)
Definition item1 (i : instr) : string :=
  match i with
  | REGISTER a _ | LABEL a | MOV a _ | ADD a _ | SUB a _ | MUL a _ | DIV a _
  | STORE a _ | LOAD a _ | PRINT a | GETC a | EQ a _ | JEQ a _ _ | NE a _
  | JNE a _ _ | GT a _ | JGT a _ _ | GE a _ | JGE a _ _ | JMP a => a
  | PUTC rs => hd EmptyString rs
  end.

(** [v[1]] where [v] is the value of a [label]. *)
Definition label_of (v : pyval) : string :=
  match v with
  | PyTuple i => item1 i
  | _ => EmptyString
  end.

(** The module-level state the actions share: the two name tables,
    [parser.error], and what has been printed on [sys.stderr]. *)
Record pstate : Type := PState {
  register_names : list string;
  label_names : list string;
  error : bool;
  stderr : list string
}.

Definition print (line : string) (st : pstate) : pstate :=
  PState (register_names st) (label_names st) (error st) (stderr st ++ [line]).

Definition print_all (lines : list string) (st : pstate) : pstate :=
  match lines with
  | [] => st
  | _ => PState (register_names st) (label_names st) (error st)
                (stderr st ++ lines)
  end.

(** [if cond: print(line)]. *)
Definition print_when (cond : bool) (line : string) (st : pstate) : pstate :=
  PState (register_names st) (label_names st) (error st)
         (stderr st ++ if cond then [line] else []).

Definition mem (s : string) (l : list string) : bool := existsb (String.eqb s) l.

Definition quoted (s : string) : string := "'" +:+ s +:+ "'".

(** [add_program], on the list [p[0]]: the instruction is appended; a
    register name not yet in [register_names] is added to it; a label name is
    added to [label_names] unless it is in [register_names], in which case the
    warning is printed. *)
Definition add_program (p0 : list instr) (program : instr) (st : pstate)
    : list instr * pstate :=
  (p0 ++ [program],
   match program with
   | REGISTER name _ =>
       PState (register_names st
               ++ if mem name (register_names st) then [] else [name])
              (label_names st) (error st) (stderr st)
   | LABEL name =>
       PState (register_names st)
              (label_names st
               ++ if mem name (register_names st) then [] else [name])
              (error st)
              (stderr st
               ++ if mem name (register_names st)
                  then [quoted name +:+ " label already exists"] else [])
   | _ => st
   end).

Abbreviation args := (list (sym pyval)).

(** [p[i]], for [i >= 1]. *)
Definition arg (p : args) (i : nat) : pyval :=
  match nth_error p (Nat.pred i) with
  | Some y => sval y
  | None => PyNone
  end.

(** [p.lineno(i)]. *)
Definition arg_lineno (p : args) (i : nat) : Z :=
  match nth_error p (Nat.pred i) with
  | Some y => sline y
  | None => 0
  end.

(** [len(p)]. *)
Definition len (p : args) : nat := S (length p).

Definition p_program_fn (p : args) (st : pstate) : pyval * pstate :=
  if Nat.eqb (len p) 3 then
    match arg p 1, arg p 2 with
    | PyList l, PyTuple program =>
        let '(l', st') := add_program l program st in (PyList l', st')
    | p0, _ => (p0, st)
    end
  else
    match arg p 1 with
    | PyTuple program =>
        let '(l', st') := add_program [] program st in (PyList l', st')
    | _ => (PyList [], st)
    end.

(** The text of an f-string field. *)
Definition format (v : tokval) : string :=
  match v with
  | TokStr s => s
  | TokInt n => pretty n
  end.

Definition p_program_error_fn (p : args) (st : pstate) : pyval * pstate :=
  match arg p 1 with
  | PyToken t =>
      let value := match type t with
                   | T_NEWLINE => "\n"
                   | _ => format (value t)
                   end in
      let st := print ("line " +:+ pretty (lineno t) +:+ ": " +:+ quoted value
                       +:+ " syntax error") st in
      (PyNone, PState (register_names st) (label_names st) true (stderr st))
  | _ => (PyNone, st)
  end.

Definition p_line_fn (p : args) (st : pstate) : pyval * pstate :=
  if Nat.eqb (len p) 5 then (arg p 2, st)
  else if Nat.eqb (len p) 7 then (arg p 4, st)
  else (PyNone, st).

(** ['p' not in name.lower()]. *)
Fixpoint includes_p (name : string) : bool :=
  match name with
  | EmptyString => false
  | String c rest =>
      (Ascii.eqb c "p" || Ascii.eqb c "P" || includes_p rest)%bool
  end.

Definition p_register_declaration_fn (p : args) (st : pstate) : pyval * pstate :=
  let '(name, value, lineno) :=
    if Nat.eqb (len p) 8
    then (str (arg p 7), match arg p 5 with PyInt n => n | _ => 0 end,
          arg_lineno p 7)
    else (str (arg p 5), 0, arg_lineno p 5) in
  let st := print_when (negb (includes_p name))
              ("line " +:+ pretty lineno +:+ ": " +:+ quoted name
               +:+ " does not include 'p' or 'P'") st in
  (PyTuple (REGISTER name value), st).

Definition p_number_fn (p : args) (st : pstate) : pyval * pstate :=
  match arg p 1 with
  | PyInt n => (PyInt n, st)
  | PyStr (String "a" _) => (PyInt 1, st)
  | _ => (PyInt 0, st)
  end.

Definition p_label_fn (p : args) (st : pstate) : pyval * pstate :=
  if (truthy (arg p 1) && truthy (arg p 3))%bool then
    let label := match arg p 1 with
                 | PyTuple i => item1 i
                 | v => str v
                 end in
    (PyTuple (LABEL (label +:+ "-" +:+ str (arg p 3))), st)
  else (PyNone, st).

Definition p_register_fn (p : args) (st : pstate) : pyval * pstate :=
  let st := print_when (negb (mem (str (arg p 1)) (register_names st)))
              ("line " +:+ pretty (arg_lineno p 1) +:+ ": "
               +:+ quoted (str (arg p 1)) +:+ " is an undeclared register") st in
  (arg p 1, st).

(** The body shared by [p_replace] ... [p_pull]. *)
Definition two_registers (tag : string -> string -> instr) (p : args)
    (st : pstate) : pyval * pstate :=
  if (truthy (arg p 3) && truthy (arg p 5))%bool
  then (PyTuple (tag (str (arg p 3)) (str (arg p 5))), st)
  else (PyNone, st).

(** The body shared by [p_print] and [p_pick]. *)
Definition one_register (tag : string -> instr) (p : args) (st : pstate)
    : pyval * pstate :=
  if truthy (arg p 3) then (PyTuple (tag (str (arg p 3))), st) else (PyNone, st).

Definition p_put_fn (p : args) (st : pstate) : pyval * pstate :=
  if truthy (arg p 3)
  then (PyTuple (PUTC (match arg p 3 with PyNames rs => rs | _ => [] end)), st)
  else (PyNone, st).

Definition p_registers_fn (p : args) (st : pstate) : pyval * pstate :=
  if Nat.eqb (len p) 4 then
    if (truthy (arg p 1) && truthy (arg p 3))%bool
    then (PyNames (match arg p 1 with PyNames rs => rs | _ => [] end
                   ++ [str (arg p 3)]), st)
    else (PyNone, st)
  else
    if truthy (arg p 1) then (PyNames [str (arg p 1)], st) else (PyNone, st).

(** The body shared by [p_compare] and [p_superior]. *)
Definition four_shapes (plain inverted : string -> string -> instr)
    (jump jump_inverted : string -> string -> string -> instr)
    (p : args) (st : pstate) : pyval * pstate :=
  let a := str (arg p 3) in
  let b := str (arg p 5) in
  if Nat.eqb (len p) 6 then
    if (truthy (arg p 3) && truthy (arg p 5))%bool
    then (PyTuple (plain a b), st) else (PyNone, st)
  else if Nat.eqb (len p) 7 then
    if (truthy (arg p 3) && truthy (arg p 5))%bool
    then (PyTuple (inverted a b), st) else (PyNone, st)
  else if Nat.eqb (len p) 9 then
    if (truthy (arg p 3) && truthy (arg p 5) && truthy (arg p 7))%bool
    then (PyTuple (jump a b (label_of (arg p 7))), st) else (PyNone, st)
  else
    if (truthy (arg p 3) && truthy (arg p 5) && truthy (arg p 7))%bool
    then (PyTuple (jump_inverted a b (label_of (arg p 7))), st) else (PyNone, st).

Definition p_jump_fn (p : args) (st : pstate) : pyval * pstate :=
  if truthy (arg p 3) then (PyTuple (JMP (label_of (arg p 3))), st)
  else (PyNone, st).

(** The function attached to each production. *)
Definition call (f : rule) (p : args) (st : pstate) : pyval * pstate :=
  match f with
  | p_start => (PyNone, st)
  | p_program => p_program_fn p st
  | p_program_error => p_program_error_fn p st
  | p_line => p_line_fn p st
  | p_uh => (PyNone, st)
  | p_empty_or_space => (PyNone, st)
  | p_register_declaration => p_register_declaration_fn p st
  | p_number => p_number_fn p st
  | p_label => p_label_fn p st
  | p_register => p_register_fn p st
  | p_command => (arg p 1, st)
  | p_replace => two_registers MOV p st
  | p_append => two_registers ADD p st
  | p_rip => two_registers SUB p st
  | p_multiply => two_registers MUL p st
  | p_chop => two_registers DIV p st
  | p_push => two_registers STORE p st
  | p_pull => two_registers LOAD p st
  | p_print => one_register PRINT p st
  | p_put => p_put_fn p st
  | p_registers => p_registers_fn p st
  | p_pick => one_register GETC p st
  | p_compare => four_shapes EQ NE JEQ JNE p st
  | p_superior => four_shapes GT GE JGT JGE p st
  | p_jump => p_jump_fn p st
  end.

(** [p_error]. *)
Definition p_error (tok : option (sym pyval)) (st : pstate) : pstate :=
  match tok with
  | None => print "syntax error at eof" st
  | Some _ => st
  end.

Definition token_value (v : tokval) : pyval :=
  match v with
  | TokStr s => PyStr s
  | TokInt n => PyInt n
  end.

Definition token_sym (t : LexToken) : sym pyval :=
  Sym (T (type t)) (token_value (value t)) (lineno t).

(** The token behind a lookahead symbol. *)
Definition sym_token (y : sym pyval) : LexToken :=
  Token (terminal_of y)
        (match sval y with
         | PyInt n => TokInt n
         | v => TokStr (str v)
         end)
        (sline y).

Definition ppap : semantics pyval pstate :=
  Semantics call p_error print_all (fun y => PyToken (sym_token y)) PyNone.

(** [parser = yacc.yacc(...)]. *)
Definition parser : tables := Eval vm_compute in build productions.

Definition source (data : string)
    : list (list string * sym pyval) * list string :=
  let '(toks, last) := tokenize data in
  (map (fun e => (fst e, token_sym (snd e))) toks, last).

(** Iterations allowed for an input of [n] tokens: the driver asks for a
    token at least every 21 iterations. *)
Definition budget (n : nat) : nat := (21 * (n + 2))%nat.

(** The exception [parse(data)] raises, if it raises: the one a call of
    [token()] raises, which nothing catches.  The driver asks for every token
    of the text before it returns (proved in the section on the whole
    text). *)
Definition parse_raises (data : string) : option py_error :=
  tokenize_raises data.

(** [parser.parse(data)]: what it returns, when it returns. *)
Definition yacc_parse (data : string) : option (option pyval * pstate) :=
  match parse_raises data with
  | Some _ => None
  | None =>
      let '(toks, last) := source data in
      iterate parser productions ppap (budget (length toks))
              (start ppap toks last (PState [] [] false []))
  end.

(** [parse(data)]: what is returned ([PyNone] for a failed parse), with the
    final module state; [None] when nothing is returned: [parse_raises] then
    gives the exception (the loop itself always ends within the budget). *)
Definition parse (data : string) : option (pyval * pstate) :=
  match yacc_parse data with
  | Some (result, st) =>
      if error st then Some (PyNone, st)
      else Some (match result with Some v => v | None => PyNone end, st)
  | None => None
  end.

(** The configuration at the start of [parser.parse(data)]. *)
Definition start_of (data : string) : config pyval pstate :=
  let '(toks, last) := source data in
  start ppap toks last (PState [] [] false []).

(** [c] is a configuration the driver goes through on [data]. *)
Definition reached (data : string) (c : config pyval pstate) : Prop :=
  exists n, advance parser productions ppap n (start_of data) = Next c.

(** The line [p_program_error] prints for a token. *)
Definition syntax_error_line (t : LexToken) : string :=
  "line " +:+ pretty (lineno t) +:+ ": "
  +:+ quoted (match type t with
              | T_NEWLINE => "\n"
              | _ => format (value t)
              end)
  +:+ " syntax error".

(** [st'] comes after [st]: a raised [parser.error] stays raised, and the
    lines printed are still there. *)
Definition extends (st st' : pstate) : Prop :=
  (error st = true -> error st' = true)
  /\ exists lines, stderr st' = stderr st ++ lines.



(** A token a line can start with, or the end of the text. *)
Definition starts_line (next : option LexToken) : Prop :=
  match next with
  | Some t => In (type t) [T_NEWLINE; T_SPACE; T_I; T_UH; T_REGISTER]
  | None => True
  end.

(** The configurations the control of the driver can be in. *)
Definition visited : list (list Control.aconfig) :=
  Eval vm_compute in Control.explore parser productions.

(** C9, as stated, on one source text: a line-numbered syntax error is
    reported. *)
Definition reports_syntax_error (st : pstate) : Prop :=
  exists (n : Z) (text : string),
    In ("line " +:+ pretty n +:+ ": " +:+ quoted text +:+ " syntax error")
       (stderr st).



(** The warning of [p_register] for a name, when it is printed. *)
Definition undeclared_warning (name : string) (line : Z) (st : pstate)
    : list string :=
  if negb (mem name (register_names st))
  then ["line " +:+ pretty line +:+ ": " +:+ quoted name
        +:+ " is an undeclared register"]
  else [].

(** The tokens of the label line [<a>-<b>]. *)
Definition label_line (a b : string) (line : Z) : list LexToken :=
  [ Token T_REGISTER (TokStr a) line; Token T_HYPHEN (TokStr "-") line;
    Token T_REGISTER (TokStr b) line; Token T_NEWLINE (TokStr nl) line ].




(** [st'] comes after [st] in the table of declared registers: names are
    only appended, and no name is entered twice. *)
Definition grows (st st' : pstate) : Prop :=
  (List.NoDup (register_names st) -> List.NoDup (register_names st'))
  /\ exists more, register_names st' = register_names st ++ more.













(** [n] times the character [c]. *)
Fixpoint repeated (c : ascii) (n : nat) : string :=
  match n with
  | O => EmptyString
  | S n' => String c (repeated c n')
  end.










(** Where a line starts: at the start of the text, or after other lines,
    with the value of [program] for these lines: the instruction list, or
    [None] after a syntax error. *)
Inductive line_start : Type :=
| FirstLine
| LaterLine (program : option (list instr)).

Definition program_value (program : option (list instr)) : pyval :=
  match program with
  | Some l => PyList l
  | None => PyNone
  end.

(** The stacks where a line starts: state 0 over [$end], or state 1 over
    [program]. *)
Definition stack_states (w : line_start) : list nat :=
  match w with
  | FirstLine => [0]
  | LaterLine _ => [1; 0]
  end%nat.

Definition stack_symbols (w : line_start) : list (sym pyval) :=
  match w with
  | FirstLine => [end_sym ppap]
  | LaterLine program =>
      [Sym (N N_program) (program_value program) 0; end_sym ppap]
  end.

(** The driver where a line starts.  [toks] are the tokens of the text from
    that line on, each with the lines [t_error] printed before it: the driver
    has asked for the first of them, which is its lookahead ([$end] when
    there is none), and [st] is the module state after that call. *)
Definition at_line (w : line_start) (errorcount : nat)
    (toks : list (list string * LexToken)) (last : list string) (st : pstate)
    : config pyval pstate :=
  Config (hd 0%nat (stack_states w)) (stack_states w) (stack_symbols w)
         (Some (match toks with
                | (_, t) :: _ => token_sym t
                | [] => end_sym ppap
                end))
         [] errorcount
         (map (fun e => (fst e, token_sym (snd e))) (tl toks))
         (match toks with [] => [] | _ => last end) st.

(** The tokens of a line, read without a message. *)
Definition quiet (line : list LexToken) : list (list string * LexToken) :=
  map (fun t => ([], t)) line.

(** The first token after a line, if there is one. *)
Definition first_of (toks : list (list string * LexToken)) : option LexToken :=
  match toks with
  | (_, t) :: _ => Some t
  | [] => None
  end.

(** What the lexer prints when the driver asks for the token after a line:
    the lines before that token, or the last ones at the end of the text. *)
Definition heard (toks : list (list string * LexToken)) (last : list string)
    : list string :=
  match toks with
  | (msgs, _) :: _ => msgs
  | [] => last
  end.

(** [p_program] on a line with the instruction [i]: the new value of
    [program], and the module state after [add_program] when it is called. *)
Definition with_line (w : line_start) (i : instr) : option (list instr) :=
  match w with
  | FirstLine => Some [i]
  | LaterLine program => option_map (fun l => l ++ [i]) program
  end.













(** The end marker is the lookahead, or waits to be one, only once the
    lexer has been asked for a token past the last one. *)
Definition end_is_last (c : config pyval pstate) : Prop :=
  (forall y, lookahead c = Some y -> stype y = T T_end -> input c = [])
  /\ (forall y, In y (lookaheadstack c) -> stype y = T T_end -> input c = []).

End Parser.

(* ===================================================================== *)
(** * The lowering pass: [to_c] *)
(* ===================================================================== *)

Module Lower.


(** [c_label]: ['_'.join(label.split('-'))]. *)
Fixpoint c_label (label : string) : string :=
  match label with
  | EmptyString => EmptyString
  | String c rest =>
      String (if Ascii.eqb c "-" then "_"%char else c) (c_label rest)
  end.

Definition ternary_operator (a b cond : string) : string :=
  "    " +:+ a +:+ " = (" +:+ a +:+ " " +:+ cond +:+ " " +:+ b +:+ " ? 1 : 0)".

Definition conditional_jump (a b l cond : string) : string :=
  "    if (" +:+ a +:+ " " +:+ cond +:+ " " +:+ b +:+ ") {" +:+ nl
  +:+ "        goto " +:+ c_label l +:+ ";" +:+ nl +:+ "    }".

(** The first loop: one declaration per register met for the first time. *)
Fixpoint declarations (data : list instr) (register_names : list string)
    : list string :=
  match data with
  | [] => []
  | REGISTER name _ :: rest =>
      if negb (existsb (String.eqb name) register_names)
      then ("    int " +:+ name +:+ ";")
             :: declarations rest (register_names ++ [name])
      else declarations rest register_names
  | _ :: rest => declarations rest register_names
  end.

Definition need_memory (data : list instr) : bool :=
  existsb (fun op => match op with
                     | STORE _ _ | LOAD _ _ => true
                     | _ => false
                     end) data.

(** The lines printed for one instruction by the second loop. *)
Definition statement (op : instr) : list string :=
  match op with
  | REGISTER a v => ["    " +:+ a +:+ " = " +:+ pretty v +:+ ";"]
  | LABEL l => [nl +:+ c_label l +:+ ":"]
  | MOV a b => ["    " +:+ a +:+ " = " +:+ b +:+ ";"]
  | ADD a b => ["    " +:+ a +:+ " += " +:+ b +:+ ";"]
  | SUB a b => ["    " +:+ a +:+ " -= " +:+ b +:+ ";"]
  | MUL a b => ["    " +:+ a +:+ " *= " +:+ b +:+ ";"]
  | DIV a b => ["    " +:+ a +:+ " /= " +:+ b +:+ ";"]
  | STORE a b => ["    memory[" +:+ b +:+ "] = " +:+ a +:+ ";"]
  | LOAD a b => ["    " +:+ a +:+ " = memory[" +:+ b +:+ "];"]
  | PRINT a => ["    printf(" +:+ dq +:+ "%d" +:+ dq +:+ ", " +:+ a +:+ ");"]
  | PUTC rs => map (fun r => "    putchar(" +:+ r +:+ ");") rs
  | GETC a => ["    " +:+ a +:+ " = getchar();"]
  | EQ a b => [ternary_operator a b "=="]
  | JEQ a b l => [conditional_jump a b l "=="]
  | NE a b => [ternary_operator a b "!="]
  | JNE a b l => [conditional_jump a b l "!="]
  | GT a b => [ternary_operator a b ">"]
  | JGT a b l => [conditional_jump a b l ">"]
  | GE a b => [ternary_operator a b ">="]
  | JGE a b l => [conditional_jump a b l ">="]
  | JMP l => ["    goto " +:+ c_label l +:+ ";"]
  end.

(** The arguments of the successive [print] calls. *)
Definition to_c (data : list instr) : list string :=
  ["#include <stdio.h>" +:+ nl +:+ "#include <stdlib.h>" +:+ nl +:+ nl
   +:+ "int main(void) {"]
  ++ declarations data []
  ++ [EmptyString]
  ++ (if need_memory data
      then ["#define MEMORY_SIZE (1 << 24)";
            "    int *memory = calloc(MEMORY_SIZE, sizeof(int));" +:+ nl]
      else [])
  ++ flat_map statement data
  ++ ["    return 0;" +:+ nl +:+ "}"].

(** What reaches standard output: each [print] ends its text with a newline. *)
Definition listing (data : list instr) : string :=
  fold_right (fun line out => line +:+ nl +:+ out) EmptyString (to_c data).

End Lower.

(* ===================================================================== *)
(** * The control of the driver is independent of the semantic values *)
(* ===================================================================== *)

Section Simulation.
Import Lexer Grammar LALR Driver Control.
Local Open Scope nat_scope.

Context {V1 U1 V2 U2 : Type}.
Variable tabs : tables.
Variable prods : list production.
Variable sem1 : semantics V1 U1.
Variable sem2 : semantics V2 U2.

Lemma erase_inv (c1 : config V1 U1) (c2 : config V2 U2) :
  erase c1 = erase c2 ->
  state c1 = state c2 /\ statestack c1 = statestack c2
  /\ map erase_sym (symstack c1) = map erase_sym (symstack c2)
  /\ option_map erase_sym (lookahead c1) = option_map erase_sym (lookahead c2)
  /\ map erase_sym (lookaheadstack c1) = map erase_sym (lookaheadstack c2).
Proof. unfold erase. intros H. injection H. auto. Qed.

Lemma erase_sym_eq (y1 : sym V1) (y2 : sym V2) :
  erase_sym y1 = erase_sym y2 <-> stype y1 = stype y2.
Proof.
  unfold erase_sym. split; [intros H; injection H; auto | intros ->; reflexivity].
Qed.

Lemma terminal_of_eq (y1 : sym V1) (y2 : sym V2) :
  stype y1 = stype y2 -> terminal_of y1 = terminal_of y2.
Proof. unfold terminal_of. intros ->. reflexivity. Qed.

Lemma shift_sim t (y1 : sym V1) (y2 : sym V2)
    (c1 : config V1 U1) (c2 : config V2 U2) :
  erase c1 = erase c2 -> stype y1 = stype y2 ->
  erase_outcome (shift t y1 c1) = erase_outcome (shift t y2 c2).
Proof.
  intros He Hy. apply erase_inv in He as (Hs & Hss & Hsy & Hla & Hls).
  unfold shift, erase_outcome, erase. simpl.
  apply erase_sym_eq in Hy. rewrite Hss, Hsy, Hls, Hy. reflexivity.
Qed.

Lemma reduce_sim p (c1 : config V1 U1) (c2 : config V2 U2) :
  erase c1 = erase c2 ->
  erase_outcome (reduce tabs prods sem1 p c1)
  = erase_outcome (reduce tabs prods sem2 p c2).
Proof.
  intros He. apply erase_inv in He as (Hs & Hss & Hsy & Hla & Hls).
  unfold reduce. destruct (nth_error prods p) as [pr |]; [| reflexivity].
  destruct (reduce_fn sem1 _ _ _) as [v1 u1].
  destruct (reduce_fn sem2 _ _ _) as [v2 u2].
  rewrite Hss. destruct (skipn _ (statestack c2)) as [| top rest]; [reflexivity |].
  destruct (goto tabs top (lhs pr)) as [s |]; [| reflexivity].
  unfold erase_outcome, erase. simpl.
  rewrite <- !skipn_map, Hsy, Hla, Hls. reflexivity.
Qed.

Lemma accept_sim (c1 : config V1 U1) (c2 : config V2 U2) :
  erase c1 = erase c2 ->
  erase_outcome (match symstack c1 with
                 | top :: _ => Return (Some (sval top)) (user c1)
                 | [] => Crash
                 end)
  = erase_outcome (match symstack c2 with
                   | top :: _ => Return (Some (sval top)) (user c2)
                   | [] => Crash
                   end).
Proof.
  intros He. apply erase_inv in He as (Hs & Hss & Hsy & Hla & Hls).
  destruct (symstack c1), (symstack c2); try discriminate; reflexivity.
Qed.

Lemma perform_sim a (y1 : option (sym V1)) (y2 : option (sym V2))
    (c1 : config V1 U1) (c2 : config V2 U2) :
  erase c1 = erase c2 ->
  option_map erase_sym y1 = option_map erase_sym y2 ->
  erase_outcome (perform tabs prods sem1 a y1 c1)
  = erase_outcome (perform tabs prods sem2 a y2 c2).
Proof.
  intros He Hy. destruct a as [t | p |]; simpl.
  - destruct y1 as [y1 |], y2 as [y2 |]; try discriminate; [| reflexivity].
    apply shift_sim; [exact He |]. apply erase_sym_eq. simpl in Hy. congruence.
  - apply reduce_sim. exact He.
  - apply accept_sim. exact He.
Qed.

Lemma recover_sim (y1 : sym V1) (y2 : sym V2)
    (c1 : config V1 U1) (c2 : config V2 U2) :
  erase c1 = erase c2 -> stype y1 = stype y2 ->
  erase_outcome (recover sem1 y1 c1) = erase_outcome (recover sem2 y2 c2).
Proof.
  intros He Hy. apply erase_inv in He as (Hs & Hss & Hsy & Hla & Hls).
  unfold recover. rewrite Hy, Hss.
  destruct (Nat.leb (length (statestack c2)) 1
            && negb match stype y2 with T T_end => true | _ => false end)%bool.
  { unfold erase_outcome, erase. simpl. rewrite Hsy. reflexivity. }
  destruct (match stype y2 with T T_end => true | _ => false end); [reflexivity |].
  destruct (negb match stype y2 with T T_error => true | _ => false end).
  - destruct (symstack c1) as [| top1 syms1], (symstack c2) as [| top2 syms2];
      try discriminate; [reflexivity |].
    assert (Htop : stype top1 = stype top2)
      by (simpl in Hsy; unfold erase_sym in Hsy; congruence).
    assert (Hsyms : map erase_sym syms1 = map erase_sym syms2)
      by (simpl in Hsy; congruence).
    assert (Htop' : erase_sym top1 = erase_sym top2)
      by (apply erase_sym_eq; exact Htop).
    assert (Hy' : erase_sym y1 = erase_sym y2) by (apply erase_sym_eq; exact Hy).
    rewrite Htop.
    destruct (stype top2) as [[] |]; unfold erase_outcome, erase; simpl;
      rewrite ?Hs, ?Hls, ?Hsyms, ?Hy', ?Htop'; reflexivity.
  - destruct (symstack c1) as [| top1 syms1], (symstack c2) as [| top2 syms2];
      try discriminate; [reflexivity |].
    assert (Hsyms : map erase_sym syms1 = map erase_sym syms2)
      by (simpl in Hsy; congruence).
    destruct (statestack c2) as [| s0 [| s1 rest]]; try reflexivity.
    unfold erase_outcome, erase. simpl. rewrite Hsyms, Hla, Hls. reflexivity.
Qed.

Lemma fetch_sim (c1 : config V1 U1) (c2 : config V2 U2) :
  erase c1 = erase c2 ->
  (lookahead c1 = None -> lookaheadstack c1 = [] -> next_of c1 = next_of c2) ->
  input_ok c1 -> input_ok c2 ->
  erase (fetch sem1 c1) = erase (fetch sem2 c2).
Proof.
  intros He Hn Hi1 Hi2.
  pose proof (erase_inv c1 c2 He) as (Hs & Hss & Hsy & Hla & Hls).
  unfold fetch.
  destruct (lookahead c1) as [y1 |] eqn:E1, (lookahead c2) as [y2 |] eqn:E2;
    try discriminate; [exact He |].
  destruct (lookaheadstack c1) as [| p1 ls1] eqn:L1,
           (lookaheadstack c2) as [| p2 ls2] eqn:L2; try discriminate.
  - specialize (Hn eq_refl eq_refl). unfold next_of in Hn.
    unfold input_ok in Hi1, Hi2.
    destruct (input c1) as [| [m1 t1] r1], (input c2) as [| [m2 t2] r2];
      try discriminate.
    + unfold erase. simpl. rewrite Hs, Hss, Hsy. reflexivity.
    + inversion Hi1 as [| ? ? (a1 & Ha1 & _) _]; subst.
      inversion Hi2 as [| ? ? (a2 & Ha2 & _) _]; subst.
      simpl in Ha1, Ha2. injection Hn as Hn.
      unfold terminal_of in Hn. rewrite Ha1, Ha2 in Hn. subst a2.
      unfold erase. simpl. rewrite Hs, Hss, Hsy.
      unfold erase_sym at 2 4. rewrite Ha1, Ha2. reflexivity.
  - assert (Hp : erase_sym p1 = erase_sym p2) by (simpl in Hls; congruence).
    assert (Hls' : map erase_sym ls1 = map erase_sym ls2)
      by (simpl in Hls; congruence).
    unfold erase. simpl. rewrite Hs, Hss, Hsy, Hp, Hls'. reflexivity.
Qed.

Lemma fetch_state {V U} (sem : semantics V U) (c : config V U) :
  state (fetch sem c) = state c.
Proof.
  unfold fetch. destruct (lookahead c); [reflexivity |].
  destruct (lookaheadstack c); [| reflexivity].
  destruct (input c) as [| [] ]; reflexivity.
Qed.

Lemma step_sim (c1 : config V1 U1) (c2 : config V2 U2) :
  erase c1 = erase c2 ->
  (needs_token tabs c1 = true -> next_of c1 = next_of c2) ->
  input_ok c1 -> input_ok c2 ->
  erase_outcome (step tabs prods sem1 c1) = erase_outcome (step tabs prods sem2 c2).
Proof.
  intros He Hn Hi1 Hi2.
  pose proof (erase_inv c1 c2 He) as (Hs & Hss & Hsy & Hla & Hls).
  unfold step. rewrite Hs.
  destruct (defaulted tabs (state c2)) as [a |] eqn:Ed.
  - apply perform_sim; assumption.
  - assert (Hf : erase (fetch sem1 c1) = erase (fetch sem2 c2)).
    { apply fetch_sim; try assumption.
      intros H1 H2. apply Hn. unfold needs_token. rewrite Hs, Ed, H1, H2.
      reflexivity. }
    pose proof (erase_inv _ _ Hf) as (Hs' & _ & _ & Hla' & _).
    destruct (lookahead (fetch sem1 c1)) as [y1 |],
             (lookahead (fetch sem2 c2)) as [y2 |]; try discriminate;
      [| reflexivity].
    assert (Hy : stype y1 = stype y2)
      by (simpl in Hla'; unfold erase_sym in Hla'; congruence).
    rewrite Hs', (terminal_of_eq y1 y2 Hy).
    destruct (lookup_action tabs (state (fetch sem2 c2)) (terminal_of y2)).
    + apply perform_sim; [exact Hf |]. simpl. f_equal. apply erase_sym_eq. exact Hy.
    + apply recover_sim; assumption.
Qed.

End Simulation.

(* ===================================================================== *)
(** * The reachable control configurations *)
(* ===================================================================== *)

Section Reachability.
Import Lexer Grammar LALR Driver Control Parser.
Local Open Scope nat_scope.

Lemma visited_closed : closed parser productions visited = true.
Proof. vm_compute. reflexivity. Qed.

Lemma visited_normal : forallb (forallb normal) visited = true.
Proof. vm_compute. reflexivity. Qed.

#[local] Opaque visited parser productions.

Lemma visited_forall (P : aconfig -> bool) k :
  forallb (forallb P) visited = true -> In k (concat visited) -> P k = true.
Proof.
  intros H Hin. apply in_concat in Hin as (b & Hb & Hk).
  rewrite forallb_forall in H. specialize (H b Hb).
  rewrite forallb_forall in H. exact (H k Hk).
Qed.

Lemma plain_syms (l : list (sym unit)) :
  forallb plain_sym l = true -> map erase_sym l = l.
Proof.
  induction l as [| [ty [] ln] l IH]; simpl; [reflexivity |].
  intros H. apply andb_prop in H as [Hy Hl]. rewrite (IH Hl).
  unfold plain_sym in Hy. simpl in Hy. apply Z.eqb_eq in Hy. subst ln.
  reflexivity.
Qed.

Lemma normal_erase (k : aconfig) : normal k = true -> erase k = k.
Proof.
  destruct k as [s ss sy la ls ec inp eof []]. unfold normal, erase. simpl.
  intros H.
  repeat match type of H with
         | (_ && _)%bool = true => apply andb_prop in H as [H ?]
         end.
  apply Nat.eqb_eq in H. subst ec.
  destruct inp; [| discriminate]. destruct eof; [| discriminate].
  rewrite !plain_syms by assumption.
  destruct la as [[ty [] ln] |]; [| reflexivity].
  unfold plain_sym in *. simpl in *.
  match goal with H : (ln =? 0)%Z = true |- _ => apply Z.eqb_eq in H; subst ln end.
  reflexivity.
Qed.

Lemma erase_sym_idem {V} (l : list (sym V)) :
  map erase_sym (map erase_sym l) = map erase_sym l.
Proof. rewrite map_map. reflexivity. Qed.

Lemma erase_idem {V U} (c : config V U) : erase (erase c) = erase c.
Proof.
  unfold erase. simpl. rewrite !erase_sym_idem.
  destruct (lookahead c); reflexivity.
Qed.

Lemma list_beq_syms (a b : list (sym unit)) :
  list_beq sym_beq a b = true -> map erase_sym a = map erase_sym b.
Proof.
  revert b. induction a as [| x a IH]; intros [| y b]; simpl; try discriminate;
    [reflexivity |].
  destruct (sym_beq x y) eqn:E; [| discriminate]. intros H.
  rewrite (IH b H). f_equal. unfold erase_sym. f_equal.
  unfold sym_beq, symbol_beq in E.
  destruct (stype x) as [t1 | n1], (stype y) as [t2 | n2]; try discriminate.
  - f_equal. apply internal_terminal_dec_bl. exact E.
  - f_equal. apply internal_nonterminal_dec_bl. exact E.
Qed.

Lemma list_beq_nats (a b : list nat) : list_beq Nat.eqb a b = true -> a = b.
Proof.
  revert b. induction a as [| x a IH]; intros [| y b]; simpl; try discriminate;
    [reflexivity |].
  destruct (Nat.eqb x y) eqn:E; [| discriminate]. intros H.
  apply Nat.eqb_eq in E. subst y. rewrite (IH b H). reflexivity.
Qed.

Lemma aconfig_beq_erase (a b : aconfig) :
  aconfig_beq a b = true -> erase a = erase b.
Proof.
  unfold aconfig_beq. intros H.
  destruct (match lookahead a with Some _ => _ | None => _ end) eqn:Ela;
    [| discriminate].
  destruct (list_beq sym_beq (lookaheadstack a) (lookaheadstack b)) eqn:Els;
    [| discriminate].
  destruct (Nat.eqb (state a) (state b)) eqn:Es; [| discriminate].
  destruct (list_beq Nat.eqb (statestack a) (statestack b)) eqn:Ess;
    [| discriminate].
  apply list_beq_syms in H, Els. apply list_beq_nats in Ess.
  apply Nat.eqb_eq in Es.
  unfold erase. rewrite H, Els, Es, Ess.
  destruct (lookahead a) as [x |], (lookahead b) as [y |]; try discriminate;
    [| reflexivity].
  pose proof (list_beq_syms [x] [y]) as Hxy. simpl in Hxy. rewrite Ela in Hxy.
  specialize (Hxy eq_refl). simpl. congruence.
Qed.

Lemma known_visited (k : aconfig) :
  known visited k = true -> In (erase k) (concat visited).
Proof.
  unfold known. intros H. apply existsb_exists in H as (k' & Hin & Hbeq).
  assert (Hk' : In k' (concat visited)).
  { apply in_concat. exists (nth (state k) visited []). split; [| exact Hin].
    destruct (Nat.lt_ge_cases (state k) (length visited)) as [Hlt | Hge].
    - apply nth_In. exact Hlt.
    - rewrite nth_overflow in Hin by exact Hge. destruct Hin. }
  apply aconfig_beq_erase in Hbeq. rewrite Hbeq.
  rewrite (normal_erase k' (visited_forall normal k' visited_normal Hk')).
  exact Hk'.
Qed.

Lemma visited_initial : In initial (concat visited).
Proof.
  change initial with (erase initial). apply known_visited.
  vm_compute. reflexivity.
Qed.

Lemma successors_visited (k : aconfig) o :
  In k (concat visited) -> In o (successors parser productions k) ->
  match o with
  | ANext k' => In (erase k') (concat visited)
  | AReturn _ => True
  | ACrash => False
  end.
Proof.
  intros Hk Ho.
  pose proof (visited_forall _ k visited_closed Hk) as H.
  rewrite forallb_forall in H. specialize (H o Ho).
  destruct o as [k' | |]; [apply known_visited; exact H | exact I | discriminate].
Qed.

Section Step.

Context {V U : Type}.
Variable sem : semantics V U.

Lemma fetch_input (c : config V U) :
  input (fetch sem c) = input c \/ exists e, input c = e :: input (fetch sem c).
Proof.
  unfold fetch. destruct (lookahead c); [left; reflexivity |].
  destruct (lookaheadstack c); [| left; reflexivity].
  destruct (input c) as [| [m t] r]; [left; reflexivity |].
  right. exists (m, t). reflexivity.
Qed.

Lemma perform_input a y (c c' : config V U) :
  perform parser productions sem a y c = Next c' -> input c' = input c.
Proof.
  destruct a as [t | p |]; simpl.
  - destruct y; [| discriminate]. unfold shift. intros H. injection H as <-.
    reflexivity.
  - unfold reduce. destruct (nth_error productions p); [| discriminate].
    destruct (reduce_fn sem _ _ _). destruct (skipn _ _); [discriminate |].
    destruct (goto _ _ _); [| discriminate]. intros H. injection H as <-.
    reflexivity.
  - destruct (symstack c); discriminate.
Qed.

Lemma recover_input y (c c' : config V U) :
  recover sem y c = Next c' -> input c' = input c.
Proof.
  unfold recover.
  destruct (_ && _)%bool; [intros H; injection H as <-; reflexivity |].
  destruct (match stype y with T T_end => true | _ => false end); [discriminate |].
  destruct (negb _).
  - destruct (symstack c) as [| top ?]; [discriminate |].
    destruct (stype top) as [[] |]; intros H; injection H as <-; reflexivity.
  - destruct (symstack c); [discriminate |].
    destruct (statestack c) as [| ? [| ? ?]]; try discriminate.
    intros H. injection H as <-. reflexivity.
Qed.

Lemma step_input (c c' : config V U) :
  step parser productions sem c = Next c' ->
  input c' = input c \/ exists e, input c = e :: input c'.
Proof.
  unfold step. destruct (defaulted parser (state c)).
  - intros H. left. exact (perform_input _ _ _ _ H).
  - destruct (lookahead (fetch sem c)) as [y |] eqn:E; [| discriminate].
    destruct (lookup_action _ _ _); intros H.
    + apply perform_input in H. rewrite H. apply fetch_input.
    + apply recover_input in H. rewrite H. apply fetch_input.
Qed.

Lemma step_input_ok (c c' : config V U) :
  step parser productions sem c = Next c' -> input_ok c -> input_ok c'.
Proof.
  intros H Hok. unfold input_ok in *.
  destruct (step_input c c' H) as [-> | (e & He)]; [exact Hok |].
  rewrite He in Hok. inversion Hok. assumption.
Qed.

Lemma needs_token_erase (c : config V U) :
  needs_token parser (erase c) = needs_token parser c.
Proof.
  unfold needs_token, erase. simpl.
  destruct (defaulted parser (state c)); [reflexivity |].
  destruct (lookahead c); [reflexivity |].
  destruct (lookaheadstack c); reflexivity.
Qed.

(** What the control does next, read off the abstract machine. *)
Lemma step_astep (c : config V U) :
  input_ok c ->
  erase_outcome (step parser productions sem c)
  = astep parser productions (erase c)
          (if needs_token parser c then next_of c else None).
Proof.
  intros Hok. unfold astep. apply step_sim.
  - unfold feed, erase. simpl. rewrite !erase_sym_idem.
    destruct (lookahead c); reflexivity.
  - intros Hn. rewrite Hn. unfold next_of, feed. simpl.
    destruct (input c) as [| [m y] r]; [reflexivity |].
    simpl. reflexivity.
  - exact Hok.
  - unfold input_ok, feed. simpl.
    destruct (needs_token parser c); [| constructor].
    unfold next_of. destruct (input c) as [| [m y] r] eqn:E; [constructor |].
    constructor; [| constructor]. simpl.
    unfold input_ok in Hok. rewrite E in Hok.
    inversion Hok as [| ? ? (t & Ht & Hin) _]; subst. simpl in Ht.
    exists (terminal_of y). split; [reflexivity |].
    unfold terminal_of. rewrite Ht. exact Hin.
Qed.

Lemma next_oracle (c : config V U) :
  input_ok c -> In (next_of c) oracles.
Proof.
  intros Hok. unfold next_of, oracles.
  destruct (input c) as [| [m y] r] eqn:E; [left; reflexivity |].
  right. apply in_map. unfold input_ok in Hok. rewrite E in Hok.
  inversion Hok as [| ? ? (t & Ht & Hin) _]; subst. simpl in Ht.
  unfold terminal_of. rewrite Ht. exact Hin.
Qed.

(** The configurations of a run stay in [visited], and the driver never
    fails on its stacks or tables. *)
Lemma step_visited (c : config V U) :
  input_ok c -> In (erase c) (concat visited) ->
  match step parser productions sem c with
  | Next c' => In (erase c') (concat visited) /\ input_ok c'
  | Return _ _ => True
  | Crash => False
  end.
Proof.
  intros Hok Hin.
  pose proof (step_astep c Hok) as Hsim.
  assert (Hsucc : In (astep parser productions (erase c)
                        (if needs_token parser c then next_of c else None))
                     (successors parser productions (erase c))).
  { unfold successors. rewrite needs_token_erase.
    destruct (needs_token parser c).
    - apply in_map. apply next_oracle. exact Hok.
    - left. reflexivity. }
  pose proof (successors_visited _ _ Hin Hsucc) as Hv.
  rewrite <- Hsim in Hv.
  destruct (step parser productions sem c) as [c' | r u |] eqn:E;
    cbn [erase_outcome] in Hv.
  - split; [| exact (step_input_ok c c' E Hok)].
    rewrite erase_idem in Hv. exact Hv.
  - exact I.
  - exact Hv.
Qed.

End Step.

Lemma visited_coast :
  forallb (forallb (fun k =>
    match coast parser productions 20 k with
    | Some _ => true
    | None => false
    end)) visited = true.
Proof. vm_compute. reflexivity. Qed.

(** Once the lexer has reported the end of the input, the driver returns
    without asking again. *)
Lemma visited_end_of_input :
  forallb (forallb (fun k =>
    if needs_token parser k then
      match astep parser productions k None with
      | ANext k' =>
          match coast parser productions 20 k' with
          | Some None => true
          | _ => false
          end
      | AReturn _ => true
      | ACrash => false
      end
    else true)) visited = true.
Proof. vm_compute. reflexivity. Qed.

Section Termination.

Context {V U : Type}.
Variable sem : semantics V U.

Abbreviation step' := (step parser productions sem).
Abbreviation advance' := (advance parser productions sem).

Lemma advance_add a b (c : config V U) :
  advance' (a + b) c
  = match advance' a c with
    | Next c' => advance' b c'
    | o => o
    end.
Proof.
  revert c. induction a as [| a IH]; intros c; simpl; [reflexivity |].
  destruct (step' c); [apply IH | reflexivity | reflexivity].
Qed.

Lemma advance_return_more j n (c : config V U) r u :
  advance' j c = Return r u -> j <= n -> advance' n c = Return r u.
Proof.
  intros H Hle. replace n with (j + (n - j)) by lia.
  rewrite advance_add, H. reflexivity.
Qed.

Lemma iterate_advance n (c : config V U) :
  iterate parser productions sem n c
  = match advance' n c with
    | Return r u => Some (r, u)
    | _ => None
    end.
Proof.
  revert c. induction n as [| n IH]; intros c; simpl; [reflexivity |].
  destruct (step' c); [apply IH | reflexivity | reflexivity].
Qed.

Lemma coasting_keeps_input (c c' : config V U) :
  needs_token parser c = false -> step' c = Next c' -> input c' = input c.
Proof.
  unfold needs_token, step. destruct (defaulted parser (state c)).
  - intros _ H. exact (perform_input sem _ _ _ _ H).
  - intros Hn.
    assert (Hf : input (fetch sem c) = input c).
    { unfold fetch. destruct (lookahead c); [reflexivity |].
      destruct (lookaheadstack c); [discriminate | reflexivity]. }
    destruct (lookahead (fetch sem c)); [| discriminate].
    destruct (lookup_action _ _ _); intros H.
    + apply perform_input in H. congruence.
    + apply recover_input in H. congruence.
Qed.

Lemma asking_takes_token (c c' : config V U) e rest :
  needs_token parser c = true -> step' c = Next c' -> input c = e :: rest ->
  input c' = rest.
Proof.
  unfold needs_token, step. destruct (defaulted parser (state c)); [discriminate |].
  destruct (lookahead c) eqn:El; [discriminate |].
  destruct (lookaheadstack c) eqn:Els; [| discriminate].
  intros _ H Hin.
  assert (Hf : input (fetch sem c) = rest).
  { unfold fetch. rewrite El, Els, Hin. destruct e. reflexivity. }
  destruct (lookahead (fetch sem c)); [| discriminate].
  destruct (lookup_action _ _ _).
  - apply perform_input in H. congruence.
  - apply recover_input in H. congruence.
Qed.

(** From a reachable configuration the driver returns, or asks the lexer for
    a token, within 20 iterations. *)
Lemma coast_run n : forall (c : config V U) r,
  input_ok c -> In (erase c) (concat visited) ->
  coast parser productions n (erase c) = Some r ->
  exists j, j <= n /\
    match r with
    | Some k' =>
        exists c', advance' j c = Next c' /\ erase c' = k'
                   /\ needs_token parser c' = true /\ input c' = input c
                   /\ input_ok c' /\ In (erase c') (concat visited)
    | None => exists res u, advance' j c = Return res u
    end.
Proof.
  induction n as [| n IH]; intros c r Hok Hin; simpl;
    rewrite needs_token_erase; destruct (needs_token parser c) eqn:En.
  - intros H. injection H as <-. exists 0. split; [lia |].
    exists c. auto 10.
  - discriminate.
  - intros H. injection H as <-. exists 0. split; [lia |].
    exists c. auto 10.
  - pose proof (step_astep sem c Hok) as Hsim. rewrite En in Hsim.
    rewrite <- Hsim.
    pose proof (step_visited sem c Hok Hin) as Hv.
    destruct (step' c) as [c1 | res u |] eqn:E; simpl.
    + destruct Hv as [Hin1 Hok1]. intros H.
      destruct (IH c1 r Hok1 Hin1 H) as (j & Hj & Hr).
      exists (S j). split; [lia |]. simpl. rewrite E.
      destruct r as [k' |]; [| exact Hr].
      destruct Hr as (c' & Ha & He & Hn & Hi & Hok' & Hin').
      exists c'. repeat split; try assumption.
      rewrite Hi. exact (coasting_keeps_input c c1 En E).
    + intros H. injection H as <-. exists 1. split; [lia |].
      exists res, u. simpl. rewrite E. reflexivity.
    + destruct Hv.
Qed.

Lemma coast_total (c : config V U) :
  In (erase c) (concat visited) ->
  exists r, coast parser productions 20 (erase c) = Some r.
Proof.
  intros Hin. pose proof (visited_forall _ _ visited_coast Hin) as H.
  cbv beta in H. destruct (coast parser productions 20 (erase c)) as [r |];
    [exists r; reflexivity | discriminate].
Qed.

(** The driver returns, within 21 iterations per token still to read and 42
    more. *)
Lemma driver_returns n : forall (c : config V U),
  length (input c) = n -> input_ok c -> In (erase c) (concat visited) ->
  exists j res u, j <= 21 * (n + 2) /\ advance' j c = Return res u.
Proof.
  induction n as [| n IH]; intros c Hlen Hok Hin.
  - destruct (coast_total c Hin) as (r & Hr).
    destruct (coast_run 20 c r Hok Hin Hr) as (j & Hj & H).
    destruct r as [k' |].
    + destruct H as (c1 & Ha & He & Hn & Hi & Hok1 & Hin1).
      pose proof (visited_forall _ _ visited_end_of_input Hin1) as Hend.
      cbv beta in Hend. rewrite needs_token_erase, Hn in Hend.
      pose proof (step_astep sem c1 Hok1) as Hsim. rewrite Hn in Hsim.
      assert (Hnext : next_of c1 = None).
      { unfold next_of. rewrite Hi. destruct (input c); [reflexivity | discriminate]. }
      rewrite Hnext in Hsim. rewrite <- Hsim in Hend.
      pose proof (step_visited sem c1 Hok1 Hin1) as Hv.
      destruct (step' c1) as [c2 | res u |] eqn:E; cbn [erase_outcome] in Hend.
      * destruct Hv as [Hin2 Hok2].
        destruct (coast parser productions 20 (erase c2)) as [[k2 |] |] eqn:E2;
          try discriminate.
        destruct (coast_run 20 c2 None Hok2 Hin2 E2) as (j2 & Hj2 & res & u & H2).
        exists (j + (1 + j2)), res, u. split; [lia |].
        rewrite advance_add, Ha. simpl. rewrite E. exact H2.
      * exists (j + 1), res, u. split; [lia |].
        rewrite advance_add, Ha. simpl. rewrite E. reflexivity.
      * discriminate.
    + destruct H as (res & u & Ha). exists j, res, u. split; [lia | exact Ha].
  - destruct (coast_total c Hin) as (r & Hr).
    destruct (coast_run 20 c r Hok Hin Hr) as (j & Hj & H).
    destruct r as [k' |].
    + destruct H as (c1 & Ha & He & Hn & Hi & Hok1 & Hin1).
      pose proof (step_visited sem c1 Hok1 Hin1) as Hv.
      destruct (step' c1) as [c2 | res u |] eqn:E.
      * destruct Hv as [Hin2 Hok2].
        destruct (input c) as [| e rest] eqn:Ei; [discriminate |].
        pose proof (asking_takes_token c1 c2 e rest Hn E Hi) as Hrest.
        assert (Hlen2 : length (input c2) = n)
          by (rewrite Hrest; simpl in Hlen; lia).
        destruct (IH c2 Hlen2 Hok2 Hin2) as (j2 & res & u & Hj2 & H2).
        exists (j + (1 + j2)), res, u. split; [lia |].
        rewrite advance_add, Ha. simpl. rewrite E. exact H2.
      * exists (j + 1), res, u. split; [lia |].
        rewrite advance_add, Ha. simpl. rewrite E. reflexivity.
      * destruct Hv.
    + destruct H as (res & u & Ha). exists j, res, u. split; [lia | exact Ha].
Qed.

End Termination.

End Reachability.

(* ===================================================================== *)
(** * [parse] returns on every input *)
(* ===================================================================== *)

Section Totality.
Import Lexer Grammar LALR Driver Control Parser.
Local Open Scope nat_scope.

#[local] Opaque visited parser productions.

Ltac in_list := repeat (first [left; reflexivity | right]).

Lemma keyword_type w k :
  keyword_lookup keyword_map w = Some k -> In k token_types.
Proof.
  unfold keyword_map. cbn [keyword_lookup].
  repeat (destruct (String.eqb _ w);
          [intros H; injection H as <-; unfold token_types; in_list |]).
  discriminate.
Qed.

Lemma master_type c rest t w r :
  master c rest = MToken t w r -> In t token_types.
Proof.
  unfold master.
  repeat match goal with
         | |- context [if ?b then _ else _] => destruct b
         | |- context [let '(_, _) := ?x in _] => destruct x
         end;
    try (destruct (keyword_lookup keyword_map _) eqn:Ek;
         [apply keyword_type in Ek |]);
    try (destruct (has_prefix _ _));
    repeat match goal with
           | |- context [match ?x with _ => _ end] => destruct x
           end;
    intros H; try discriminate H; injection H as <- _ _;
    try assumption; unfold token_types; in_list.
Qed.

Lemma scan_type s : forall in_comment line msgs msgs' t l,
  scan in_comment s line msgs = Found msgs' t l -> In (type t) token_types.
Proof.
  induction s as [| c rest IH]; intros in_comment line msgs msgs' t l; simpl;
    [discriminate |].
  destruct (in_comment && negb (is_newline c))%bool; [apply IH |].
  destruct (master c rest) as [ty w r | |] eqn:Em; [| apply IH | apply IH].
  apply master_type in Em.
  destruct ty; try destruct (int_of_text w); intros H; try discriminate H;
    injection H as _ <- _; exact Em.
Qed.

Lemma token_found l msgs t l' :
  token l = (msgs, Some t, l') ->
  scan false (lexdata l) (lexlineno l) [] = Found msgs t l'.
Proof.
  unfold token. destruct (scan false (lexdata l) (lexlineno l) []);
    intros H; try discriminate H. injection H as -> -> ->. reflexivity.
Qed.

Lemma tokens_from_types fuel : forall l toks last,
  tokens_from fuel l = (toks, last) ->
  Forall (fun e => In (type (snd e)) token_types) toks.
Proof.
  induction fuel as [| fuel IH]; intros l toks last; simpl.
  - intros H. injection H as <- _. constructor.
  - destruct (token l) as [[msgs [t |]] l'] eqn:Et.
    + destruct (tokens_from fuel l') as [ts last'] eqn:Er.
      intros H. injection H as <- _. constructor.
      * simpl. apply token_found in Et. exact (scan_type _ _ _ _ _ _ _ Et).
      * exact (IH l' ts last' Er).
    + intros H. injection H as <- _. constructor.
Qed.

Lemma start_input_ok data : input_ok (start_of data).
Proof.
  unfold start_of, source, tokenize.
  destruct (tokens_from _ _) as [toks last] eqn:E.
  apply tokens_from_types in E. unfold input_ok, start. simpl.
  induction E as [| [msgs t] toks Ht _ IH]; simpl; constructor; [| exact IH].
  simpl. exists (type t). split; [reflexivity | exact Ht].
Qed.

Lemma start_visited data : In (erase (start_of data)) (concat visited).
Proof.
  unfold start_of. destruct (source data) as [toks last].
  exact visited_initial.
Qed.

Lemma reached_visited data c :
  reached data c -> input_ok c /\ In (erase c) (concat visited).
Proof.
  intros [n Hn]. revert c Hn.
  induction n as [| n IH]; intros c Hn.
  - simpl in Hn. injection Hn as <-.
    split; [apply start_input_ok | apply start_visited].
  - replace (S n) with (n + 1) in Hn by lia. rewrite advance_add in Hn.
    destruct (advance parser productions ppap n (start_of data)) as [c0 | |];
      try discriminate.
    destruct (IH c0 eq_refl) as [Hok Hin].
    pose proof (step_visited ppap c0 Hok Hin) as Hv.
    simpl in Hn. destruct (step parser productions ppap c0); try discriminate.
    injection Hn as <-. destruct Hv. split; assumption.
Qed.

(** The driver returns within the budget, whatever the tokens. *)
Lemma driver_returns_on_text data :
  exists j result st,
    advance parser productions ppap j (start_of data) = Return result st
    /\ (let '(toks, last) := source data in
        iterate parser productions ppap (budget (length toks))
                (start ppap toks last (PState [] [] false [])))
       = Some (result, st).
Proof.
  pose proof (start_input_ok data) as Hok.
  pose proof (start_visited data) as Hin.
  destruct (driver_returns ppap _ (start_of data) eq_refl Hok Hin)
    as (j & res & u & Hj & Ha).
  exists j, res, u. split; [exact Ha |].
  unfold start_of in *. destruct (source data) as [toks last].
  rewrite iterate_advance.
  rewrite (advance_return_more ppap j _ _ res u Ha); [reflexivity |].
  unfold budget. simpl in Hj. exact Hj.
Qed.

(** [parser.parse(data)] returns within the budget, whatever the text, when
    no call of [token()] raises. *)
Lemma yacc_parse_returns data :
  parse_raises data = None ->
  exists j result st,
    advance parser productions ppap j (start_of data) = Return result st
    /\ yacc_parse data = Some (result, st).
Proof.
  intros Hno. destruct (driver_returns_on_text data) as (j & res & st & Ha & Hi).
  exists j, res, st. split; [exact Ha |].
  unfold yacc_parse. rewrite Hno. exact Hi.
Qed.

Lemma parse_returns data :
  parse_raises data = None -> exists v st, parse data = Some (v, st).
Proof.
  intros Hno. destruct (yacc_parse_returns data Hno) as (j & res & st & _ & H).
  unfold parse. rewrite H. destruct (error st); eauto.
Qed.

Lemma parse_some_no_raise data v st :
  parse data = Some (v, st) -> parse_raises data = None.
Proof.
  unfold parse, yacc_parse. destruct (parse_raises data); [discriminate | reflexivity].
Qed.

End Totality.

(* ===================================================================== *)
(** * Syntax errors *)
(* ===================================================================== *)

Section SyntaxErrors.
Import Lexer Grammar LALR Driver Control Parser.
Local Open Scope nat_scope.

#[local] Opaque visited parser productions.

(** ** What the grammar actions do to the module state *)

Lemma extends_refl st : extends st st.
Proof. split; [auto | exists []; rewrite app_nil_r; reflexivity]. Qed.

Lemma extends_trans st1 st2 st3 :
  extends st1 st2 -> extends st2 st3 -> extends st1 st3.
Proof.
  intros [He1 [l1 Hl1]] [He2 [l2 Hl2]]. split; [auto |].
  exists (l1 ++ l2). rewrite Hl2, Hl1, app_assoc. reflexivity.
Qed.

Lemma extends_print_all lines st : extends st (print_all lines st).
Proof.
  destruct lines; [apply extends_refl |].
  split; [auto | eexists; reflexivity].
Qed.

Lemma extends_print_when cond line st : extends st (print_when cond line st).
Proof. split; [auto | eexists; reflexivity]. Qed.

Lemma extends_print line st : extends st (print line st).
Proof. split; [auto | exists [line]; reflexivity]. Qed.

Lemma add_program_extends l program st :
  extends st (snd (add_program l program st)).
Proof.
  unfold add_program.
  destruct program; simpl; try apply extends_refl;
    split; simpl; auto; eauto; exists []; rewrite app_nil_r; reflexivity.
Qed.

Lemma call_extends f p st : extends st (snd (call f p st)).
Proof.
  destruct f; simpl; try apply extends_refl.
  - (* p_program *)
    unfold p_program_fn. destruct (Nat.eqb (len p) 3).
    + destruct (arg p 1); simpl; try apply extends_refl.
      destruct (arg p 2); simpl; try apply extends_refl.
      exact (add_program_extends l i st).
    + destruct (arg p 1); simpl; try apply extends_refl.
      exact (add_program_extends [] i st).
  - (* p_program_error *)
    unfold p_program_error_fn. destruct (arg p 1); simpl; try apply extends_refl.
    split; simpl; [auto | eexists; reflexivity].
  - unfold p_line_fn. destruct (Nat.eqb (len p) 5); [apply extends_refl |].
    destruct (Nat.eqb (len p) 7); apply extends_refl.
  - unfold p_register_declaration_fn.
    destruct (Nat.eqb (len p) 8); simpl; apply extends_print_when.
  - unfold p_number_fn. destruct (arg p 1) as [| [| [[] [] [] [] [] [] [] []] ?] | | | | |];
      simpl; apply extends_refl.
  - unfold p_label_fn. destruct (_ && _)%bool; apply extends_refl.
  - unfold p_register_fn. simpl. apply extends_print_when.
  - unfold two_registers. destruct (_ && _)%bool; apply extends_refl.
  - unfold two_registers. destruct (_ && _)%bool; apply extends_refl.
  - unfold two_registers. destruct (_ && _)%bool; apply extends_refl.
  - unfold two_registers. destruct (_ && _)%bool; apply extends_refl.
  - unfold two_registers. destruct (_ && _)%bool; apply extends_refl.
  - unfold two_registers. destruct (_ && _)%bool; apply extends_refl.
  - unfold two_registers. destruct (_ && _)%bool; apply extends_refl.
  - unfold one_register. destruct (truthy _); apply extends_refl.
  - unfold p_put_fn. destruct (truthy _); apply extends_refl.
  - unfold p_registers_fn. destruct (Nat.eqb _ _);
      [destruct (_ && _)%bool | destruct (truthy _)]; apply extends_refl.
  - unfold one_register. destruct (truthy _); apply extends_refl.
  - unfold four_shapes.
    repeat match goal with
           | |- context [if ?b then _ else _] => destruct b
           end; apply extends_refl.
  - unfold four_shapes.
    repeat match goal with
           | |- context [if ?b then _ else _] => destruct b
           end; apply extends_refl.
  - unfold p_jump_fn. destruct (truthy _); apply extends_refl.
Qed.

Lemma p_error_extends tok st : extends st (p_error tok st).
Proof. destruct tok; [apply extends_refl | apply extends_print]. Qed.

Abbreviation pconfig := (config pyval pstate).
Abbreviation pstep := (step parser productions ppap).
Abbreviation padvance := (advance parser productions ppap).

Lemma fetch_extends (c : pconfig) : extends (user c) (user (fetch ppap c)).
Proof.
  unfold fetch. destruct (lookahead c); [apply extends_refl |].
  destruct (lookaheadstack c); [| apply extends_refl].
  destruct (input c) as [| [m t] r]; simpl; apply extends_print_all.
Qed.

Lemma perform_extends a y (c : pconfig) :
  match perform parser productions ppap a y c with
  | Next c' => extends (user c) (user c')
  | Return _ u => extends (user c) u
  | Crash => True
  end.
Proof.
  destruct a as [t | p |]; simpl.
  - destruct y; [apply extends_refl | exact I].
  - unfold reduce. destruct (nth_error productions p) as [pr |]; [| exact I].
    pose proof (call_extends (callable pr)
                  (rev (firstn (length (rhs pr)) (symstack c))) (user c)) as H.
    simpl. destruct (call _ _ _) as [v u]. simpl in H.
    destruct (skipn _ _); [exact I |]. destruct (goto _ _ _); [exact H | exact I].
  - destruct (symstack c); [exact I | apply extends_refl].
Qed.

Lemma recover_extends y (c : pconfig) :
  match recover ppap y c with
  | Next c' => extends (user c) (user c')
  | Return _ u => extends (user c) u
  | Crash => True
  end.
Proof.
  unfold recover.
  assert (Hu : extends (user c)
                 (if Nat.eqb (errorcount c) 0
                  then error_fn ppap (match stype y with
                                      | T T_end => None
                                      | _ => Some y
                                      end) (user c)
                  else user c)).
  { destruct (Nat.eqb _ _); [apply p_error_extends | apply extends_refl]. }
  destruct (_ && _)%bool; [exact Hu |].
  destruct (match stype y with T T_end => true | _ => false end); [exact Hu |].
  destruct (negb _).
  - destruct (symstack c) as [| top ?]; [exact I |].
    destruct (stype top) as [[] |]; exact Hu.
  - destruct (symstack c); [exact I |].
    destruct (statestack c) as [| ? [| ? ?]]; try exact I. exact Hu.
Qed.

Lemma step_extends (c : pconfig) :
  match pstep c with
  | Next c' => extends (user c) (user c')
  | Return _ u => extends (user c) u
  | Crash => True
  end.
Proof.
  unfold step. destruct (defaulted parser (state c)); [apply perform_extends |].
  pose proof (fetch_extends c) as Hf.
  destruct (lookahead (fetch ppap c)) as [y |]; [| exact I].
  destruct (lookup_action _ _ _) as [a |].
  - pose proof (perform_extends a (Some y) (fetch ppap c)) as H.
    destruct (perform _ _ _ _ _ _); try exact I; eapply extends_trans; eauto.
  - pose proof (recover_extends y (fetch ppap c)) as H.
    destruct (recover _ _ _); try exact I; eapply extends_trans; eauto.
Qed.

Lemma advance_extends n : forall (c : pconfig),
  match padvance n c with
  | Next c' => extends (user c) (user c')
  | Return _ u => extends (user c) u
  | Crash => True
  end.
Proof.
  induction n as [| n IH]; intros c; simpl; [apply extends_refl |].
  pose proof (step_extends c) as H.
  destruct (pstep c) as [c1 | |]; try exact H.
  specialize (IH c1). destruct (padvance n c1); try exact I;
    eapply extends_trans; eauto.
Qed.

(** ** Facts read off the tables *)

Lemma state3_not_defaulted : defaulted parser 3 = None.
Proof. vm_compute. reflexivity. Qed.

Lemma state3_reduces t a : lookup_action parser 3 t = Some a -> a = Reduce 3.
Proof. destruct t; vm_compute; intros H; congruence. Qed.

Lemma state3_accepts_end : lookup_action parser 3 T_end = Some (Reduce 3).
Proof. vm_compute. reflexivity. Qed.

Lemma production3 :
  nth_error productions 3 = Some (Prod p_program_error N_program [T T_error]).
Proof. vm_compute. reflexivity. Qed.

Lemma state0_shifts_error : lookup_action parser 0 T_error = Some (Shift 3).
Proof. vm_compute. reflexivity. Qed.

Lemma only_state0_shifts_error s a :
  lookup_action parser s T_error = Some a -> s = 0 /\ a = Shift 3.
Proof.
  assert (Hlen : length (action_table parser) = 124) by (vm_compute; reflexivity).
  assert (Hall : forallb (fun s =>
            match lookup_action parser s T_error with
            | Some a => (Nat.eqb s 0 && action_beq a (Shift 3))%bool
            | None => true
            end) (seq 0 124) = true) by (vm_compute; reflexivity).
  destruct (Nat.lt_ge_cases s 124) as [Hlt | Hge].
  - rewrite forallb_forall in Hall.
    specialize (Hall s). rewrite in_seq in Hall. specialize (Hall ltac:(lia)).
    intros H. rewrite H in Hall. apply andb_prop in Hall as [H0 Ha].
    apply Nat.eqb_eq in H0. split; [exact H0 |].
    destruct a as [t | |]; try discriminate. simpl in Ha.
    apply Nat.eqb_eq in Ha. congruence.
  - unfold lookup_action, actions. rewrite nth_overflow by lia. discriminate.
Qed.

Lemma visited_error_lookahead :
  forallb (forallb (fun k =>
    match lookahead k with
    | Some y =>
        if is_error_sym y
        then (match defaulted parser (state k) with None => true | _ => false end
              && (Nat.eqb (state k) 0 || Nat.leb 2 (length (statestack k))))%bool
        else true
    | None => true
    end)) visited = true.
Proof. vm_compute. reflexivity. Qed.

Lemma visited_state3 :
  forallb (forallb (fun k =>
    if Nat.eqb (state k) 3 then Nat.leb 2 (length (statestack k)) else true))
    visited = true.
Proof. vm_compute. reflexivity. Qed.

Lemma visited_pushback :
  forallb (forallb (fun k =>
    forallb (fun y => match stype y with
                      | T t => existsb (terminal_beq t) token_types
                      | N _ => false
                      end) (lookaheadstack k))) visited = true.
Proof. vm_compute. reflexivity. Qed.

Lemma token_like_not_special {V} (y : sym V) :
  token_like y ->
  exists t, stype y = T t /\ t <> T_end /\ t <> T_error.
Proof.
  intros (t & Ht & Hin). exists t. split; [exact Ht |].
  split; intros ->; simpl in Hin; intuition discriminate.
Qed.

(** ** Recovery: unwinding to state 0, then resynchronising in state 3 *)

Lemma step_with_lookahead (c : pconfig) y :
  lookahead c = Some y -> defaulted parser (state c) = None ->
  pstep c = match lookup_action parser (state c) (terminal_of y) with
            | Some a => perform parser productions ppap a (Some y) c
            | None => recover ppap y c
            end.
Proof.
  intros Hla Hd. unfold step. rewrite Hd.
  assert (Hf : fetch ppap c = c) by (unfold fetch; rewrite Hla; reflexivity).
  rewrite Hf, Hla. reflexivity.
Qed.

Lemma recover_pop (c : pconfig) E :
  stype E = T T_error -> 2 <= length (statestack c) ->
  recover ppap E c
  = match symstack c, statestack c with
    | _ :: syms, _ :: (s :: _) as states =>
        Next (Config s states syms (lookahead c) (lookaheadstack c) error_count
                     (input c) (at_eof c) (user c))
    | _, _ => Crash
    end.
Proof.
  intros HE Hlen. unfold recover. rewrite HE. simpl.
  destruct (statestack c) as [| s0 [| s1 rest]]; simpl in Hlen; try lia.
  simpl. destruct (Nat.eqb (errorcount c) 0); reflexivity.
Qed.

Lemma error_lookahead_facts (c : pconfig) E :
  In (erase c) (concat visited) -> lookahead c = Some E ->
  stype E = T T_error ->
  defaulted parser (state c) = None
  /\ (state c = 0 \/ 2 <= length (statestack c)).
Proof.
  intros Hin Hla HE.
  pose proof (visited_forall _ _ visited_error_lookahead Hin) as Hv.
  cbv beta in Hv.
  change (lookahead (erase c)) with (option_map erase_sym (lookahead c)) in Hv.
  change (state (erase c)) with (state c) in Hv.
  change (statestack (erase c)) with (statestack c) in Hv.
  rewrite Hla in Hv. cbn [option_map] in Hv.
  unfold is_error_sym, erase_sym in Hv. cbn [stype] in Hv. rewrite HE in Hv.
  destruct (defaulted parser (state c)); [discriminate |].
  split; [reflexivity |]. cbn [andb] in Hv.
  apply orb_prop in Hv as [H | H];
    [left; apply Nat.eqb_eq | right; apply Nat.leb_le]; exact H.
Qed.

Lemma unwind n : forall (c : pconfig) E,
  length (statestack c) = n -> lookahead c = Some E -> stype E = T T_error ->
  input_ok c -> In (erase c) (concat visited) ->
  exists j c',
    padvance j c = Next c' /\ state c' = 3
    /\ (exists rest, symstack c' = E :: rest)
    /\ lookahead c' = None
    /\ lookaheadstack c' = lookaheadstack c /\ input c' = input c
    /\ extends (user c) (user c')
    /\ input_ok c' /\ In (erase c') (concat visited).
Proof.
  induction n as [n IH] using lt_wf_ind. intros c E Hlen Hla HE Hok Hin.
  destruct (error_lookahead_facts c E Hin Hla HE) as [Ed Hv].
  pose proof (step_visited ppap c Hok Hin) as Hs.
  pose proof (step_extends c) as Hx.
  rewrite (step_with_lookahead c E Hla Ed) in Hs, Hx.
  assert (Hstep := step_with_lookahead c E Hla Ed).
  unfold terminal_of in Hs, Hx, Hstep. rewrite HE in Hs, Hx, Hstep.
  destruct (lookup_action parser (state c) T_error) as [a |] eqn:Ea.
  - apply only_state0_shifts_error in Ea as [_ ->].
    cbn [perform] in Hs, Hx, Hstep. unfold shift in Hs, Hx, Hstep.
    destruct Hs as [Hin' Hok'].
    exists 1. eexists. cbn [advance]. rewrite Hstep.
    split; [reflexivity |]. split; [reflexivity |].
    split; [eexists; reflexivity |]. split; [reflexivity |].
    split; [reflexivity |]. split; [reflexivity |].
    split; [exact Hx |]. split; assumption.
  - destruct Hv as [H0 | H2].
    { rewrite H0, state0_shifts_error in Ea. discriminate. }
    rewrite (recover_pop c E HE H2) in Hs, Hx, Hstep.
    destruct (symstack c) as [| top syms]; [destruct Hs |].
    destruct (statestack c) as [| s0 [| s1 rest]] eqn:Ess;
      [destruct Hs | destruct Hs |].
    destruct Hs as [Hin1 Hok1].
    assert (Hlt : length (s1 :: rest) < n) by (simpl in *; lia).
    match type of Hstep with _ = Next ?c1 =>
      destruct (IH (length (s1 :: rest)) Hlt c1 E eq_refl Hla HE Hok1 Hin1)
        as (j & c' & Ha & Hst & Hsym & Hla' & Hls & Hinp & Hext & Hok' & Hin')
    end.
    exists (S j), c'. cbn [advance]. rewrite Hstep.
    split; [exact Ha |]. split; [exact Hst |]. split; [exact Hsym |].
    split; [exact Hla' |]. split; [exact Hls |]. split; [exact Hinp |].
    split; [| split; assumption].
    exact (extends_trans _ _ _ Hx Hext).
Qed.

Lemma fetch_lookahead (c : pconfig) : exists y, lookahead (fetch ppap c) = Some y.
Proof.
  unfold fetch. destruct (lookahead c) eqn:E; [rewrite E; eauto |].
  destruct (lookaheadstack c); [| simpl; eauto].
  destruct (input c) as [| [m t] r]; simpl; eauto.
Qed.

Lemma step_fetch (c : pconfig) :
  defaulted parser (state c) = None -> pstep c = pstep (fetch ppap c).
Proof.
  intros Hd. unfold step. rewrite fetch_state, Hd.
  destruct (fetch_lookahead c) as [y Hy].
  assert (Hf : fetch ppap (fetch ppap c) = fetch ppap c)
    by (unfold fetch at 1; rewrite Hy; reflexivity).
  rewrite Hf, !fetch_state. reflexivity.
Qed.

Lemma fetch_stacks (c : pconfig) :
  state (fetch ppap c) = state c
  /\ statestack (fetch ppap c) = statestack c
  /\ symstack (fetch ppap c) = symstack c.
Proof.
  unfold fetch. destruct (lookahead c); [auto |].
  destruct (lookaheadstack c); [| auto].
  destruct (input c) as [| [m t] r]; auto.
Qed.

(** In state 3 the token in hand ends the recovery, and [p_program_error]
    reports the token kept by the [error] symbol, or it is dropped. *)
Lemma state3_step (c : pconfig) E rest tok y :
  state c = 3 -> symstack c = E :: rest -> stype E = T T_error ->
  sval E = PyToken tok -> lookahead c = Some y ->
  2 <= length (statestack c) ->
  pstep c <> Crash ->
  (lookup_action parser 3 (terminal_of y) <> None ->
   exists c', pstep c = Next c' /\ error (user c') = true
              /\ In (syntax_error_line tok) (stderr (user c')))
  /\ (lookup_action parser 3 (terminal_of y) = None -> token_like y ->
      pstep c = Next (Config 3 (statestack c) (E :: rest) None (lookaheadstack c)
                             error_count (input c) (at_eof c) (user c))).
Proof.
  intros Hst Hsym HE Hval Hla Hlen Hnc.
  assert (Hd : defaulted parser (state c) = None)
    by (rewrite Hst; exact state3_not_defaulted).
  rewrite (step_with_lookahead c y Hla Hd) in *. rewrite Hst in *.
  split.
  - destruct (lookup_action parser 3 (terminal_of y)) as [a |] eqn:Ea;
      [intros _ | intros H; contradiction].
    apply state3_reduces in Ea. subst a.
    cbn [perform] in *. unfold reduce in *. rewrite production3 in *.
    cbn [rhs lhs callable length] in *. rewrite Hsym in *.
    change (rev (firstn 1 (E :: rest))) with [E] in *.
    cbn [reduce_fn ppap call] in *.
    unfold p_program_error_fn in *. unfold arg in *.
    cbn [Nat.pred nth_error sval] in *. rewrite Hval in *.
    destruct (skipn 1 (statestack c)) as [| top ?]; [contradiction |].
    destruct (goto parser top N_program); [| contradiction].
    eexists. split; [reflexivity |]. cbn [user error stderr print].
    split; [reflexivity |]. apply in_or_app. right. left. reflexivity.
  - intros Ea Htok. rewrite Ea in *.
    apply token_like_not_special in Htok as (t & Ht & Hne & Hnr).
    unfold recover. rewrite Ht, Hsym, HE, Hst.
    assert (Hleb : Nat.leb (length (statestack c)) 1 = false)
      by (apply Nat.leb_gt; lia).
    rewrite Hleb. cbn [andb].
    destruct t; try contradiction; cbn [negb];
      destruct (Nat.eqb (errorcount c) 0); reflexivity.
Qed.

Lemma pushback_token_like (c : pconfig) p ls :
  In (erase c) (concat visited) -> lookaheadstack c = p :: ls -> token_like p.
Proof.
  intros Hin Hls.
  pose proof (visited_forall _ _ visited_pushback Hin) as Hv. cbv beta in Hv.
  change (lookaheadstack (erase c)) with (map erase_sym (lookaheadstack c)) in Hv.
  rewrite Hls in Hv. cbn [map forallb erase_sym stype] in Hv.
  apply andb_prop in Hv as [Hv _].
  destruct (stype p) as [t |] eqn:Et; [| discriminate].
  exists t. split; [exact Et |].
  apply existsb_exists in Hv as (t' & Hin' & Heq).
  apply internal_terminal_dec_bl in Heq. subst t'. exact Hin'.
Qed.

Lemma state3_depth (c : pconfig) :
  In (erase c) (concat visited) -> state c = 3 -> 2 <= length (statestack c).
Proof.
  intros Hin Hst.
  pose proof (visited_forall _ _ visited_state3 Hin) as Hv. cbv beta in Hv.
  change (state (erase c)) with (state c) in Hv.
  change (statestack (erase c)) with (statestack c) in Hv.
  rewrite Hst in Hv. cbn [Nat.eqb] in Hv. apply Nat.leb_le. exact Hv.
Qed.

Lemma resync n : forall (c : pconfig) E rest tok,
  length (lookaheadstack c) + length (input c) = n ->
  state c = 3 -> symstack c = E :: rest -> stype E = T T_error ->
  sval E = PyToken tok -> lookahead c = None ->
  input_ok c -> In (erase c) (concat visited) ->
  exists j c',
    padvance j c = Next c'
    /\ error (user c') = true
    /\ In (syntax_error_line tok) (stderr (user c'))
    /\ input_ok c' /\ In (erase c') (concat visited).
Proof.
  induction n as [n IH] using lt_wf_ind.
  intros c E rest tok Hn Hst Hsym HE Hval Hla Hok Hin.
  assert (Hd : defaulted parser (state c) = None)
    by (rewrite Hst; exact state3_not_defaulted).
  pose proof (step_visited ppap c Hok Hin) as Hv.
  pose proof (state3_depth c Hin Hst) as Hdepth.
  destruct (fetch_stacks c) as (Hfs & Hfss & Hfsy).
  destruct (fetch_lookahead c) as [y Hy].
  assert (Hnc : pstep (fetch ppap c) <> Crash).
  { rewrite <- (step_fetch c Hd). intros H. rewrite H in Hv. exact Hv. }
  destruct (state3_step (fetch ppap c) E rest tok y) as [Hred Hdrop];
    try congruence.
  destruct (lookup_action parser 3 (terminal_of y)) as [a |] eqn:Ea.
  - destruct Hred as (c' & Hstep & Herr & Hmsg); [discriminate |].
    rewrite <- (step_fetch c Hd) in Hstep. rewrite Hstep in Hv.
    exists 1, c'. cbn [advance]. rewrite Hstep. tauto.
  - assert (Hcase : token_like y
                    /\ length (lookaheadstack (fetch ppap c))
                       + length (input (fetch ppap c)) < n).
    { unfold fetch in Hy |- *. rewrite Hla in Hy |- *.
      destruct (lookaheadstack c) as [| p ls] eqn:Els.
      - destruct (input c) as [| [m t] r] eqn:Ei.
        + cbn [lookahead] in Hy. injection Hy as <-.
          unfold terminal_of, end_sym in Ea. cbn [stype] in Ea.
          rewrite state3_accepts_end in Ea. discriminate.
        + cbn [lookahead] in Hy. injection Hy as <-.
          unfold input_ok in Hok. rewrite Ei in Hok.
          apply Forall_inv in Hok.
          split; [exact Hok |]. rewrite ?Els, ?Ei in Hn.
          cbn [lookaheadstack input length] in Hn |- *. lia.
      - cbn [lookahead] in Hy. injection Hy as <-.
        split; [exact (pushback_token_like c p ls Hin Els) |].
        rewrite ?Els in Hn. cbn [lookaheadstack input length] in Hn |- *. lia. }
    destruct Hcase as [Htok Hlt].
    specialize (Hdrop eq_refl Htok).
    rewrite <- (step_fetch c Hd) in Hdrop. rewrite Hdrop in Hv.
    destruct Hv as [Hin1 Hok1].
    match type of Hdrop with _ = Next ?c1 =>
      destruct (IH _ Hlt c1 E rest tok eq_refl eq_refl eq_refl HE Hval eq_refl
                   Hok1 Hin1) as (j & c' & Ha & Hres)
    end.
    exists (S j), c'. cbn [advance]. rewrite Hdrop. split; [exact Ha | exact Hres].
Qed.

(** ** The result of [parse] after a syntax error *)

Lemma advance_return_after a J (c c' : pconfig) r u :
  padvance a c = Next c' -> padvance J c = Return r u ->
  exists k, padvance k c' = Return r u.
Proof.
  intros Ha HJ. destruct (Nat.le_gt_cases J a) as [Hle | Hgt].
  - rewrite (advance_return_more ppap J a c r u HJ Hle) in Ha. discriminate.
  - exists (J - a). replace J with (a + (J - a)) in HJ by lia.
    rewrite advance_add, Ha in HJ. exact HJ.
Qed.

Lemma rejected_step (c : pconfig) y :
  rejects parser ppap c y -> pstep c = recover ppap y (fetch ppap c).
Proof.
  intros (Hd & Hy & Ha). unfold step. rewrite Hd, Hy, fetch_state, Ha.
  reflexivity.
Qed.

(** A rejected token starts a recovery: the [error] symbol that becomes the
    lookahead keeps the token. *)
Lemma recover_token (c : pconfig) y :
  token_like y -> 1 < length (statestack c) -> ~ recovering c ->
  recover ppap y c <> Crash ->
  recover ppap y c
  = Next (Config (state c) (statestack c) (symstack c)
                 (Some (Sym (T T_error) (PyToken (sym_token y)) (sline y)))
                 (y :: lookaheadstack c) error_count (input c) (at_eof c)
                 (user c)).
Proof.
  intros Htok Hlen Hrec.
  apply token_like_not_special in Htok as (t & Ht & Hne & Hnr).
  unfold recover. rewrite Ht.
  assert (Hleb : Nat.leb (length (statestack c)) 1 = false)
    by (apply Nat.leb_gt; lia).
  rewrite Hleb. cbn [andb].
  assert (Hu : (if Nat.eqb (errorcount c) 0
                then error_fn ppap (match t with
                                    | T_end => None
                                    | _ => Some y
                                    end) (user c)
                else user c) = user c).
  { destruct (Nat.eqb (errorcount c) 0); [| reflexivity].
    destruct t; try contradiction; reflexivity. }
  rewrite Hu.
  destruct t; try contradiction; cbn [negb];
    (destruct (symstack c) as [| top syms] eqn:Es; [intros H; contradiction |];
     intros _;
     destruct (stype top) as [[] |] eqn:Et; try reflexivity;
     exfalso; apply Hrec; exists top, syms; split; [exact Es | exact Et]).
Qed.

Lemma recover_end (c : pconfig) y :
  stype y = T T_end -> exists u, recover ppap y c = Return None u.
Proof.
  intros Hy. unfold recover. rewrite Hy.
  rewrite andb_false_r. eexists. reflexivity.
Qed.

Lemma reached_step data (c c' : pconfig) j :
  reached data c -> padvance j c = Next c' -> reached data c'.
Proof.
  intros [n Hn] Hj. exists (n + j). rewrite advance_add, Hn. exact Hj.
Qed.

Lemma flagged_result data (c : pconfig) line :
  parse_raises data = None ->
  reached data c -> error (user c) = true -> In line (stderr (user c)) ->
  exists st, parse data = Some (PyNone, st) /\ In line (stderr st).
Proof.
  intros Hno [n Hn] Herr Hline.
  destruct (yacc_parse_returns data Hno) as (J & res & st & HJ & Hp).
  destruct (advance_return_after n J _ c res st Hn HJ) as [k Hk].
  pose proof (advance_extends k c) as Hx. rewrite Hk in Hx.
  destruct Hx as [He [lines Hl]].
  exists st. unfold parse. rewrite Hp, (He Herr). split; [reflexivity |].
  rewrite Hl. apply in_or_app. left. exact Hline.
Qed.

Lemma sym_token_sym t : sym_token (token_sym t) = t.
Proof. destruct t as [ty [s | n] ln]; reflexivity. Qed.

(** X21: in a text whose tokens the lexer reads without raising, when the
    driver finds no action for a token of the text, at a moment when more
    than the start state is on its stack and it is not already recovering
    from an error, the line [line <n>: '<token text>' syntax error] is
    printed for that token (with the two characters \n for an end-of-line
    token) and [parse] returns the failed result; when it is the end of the
    text that has no action, [parse] returns the failed result too. *)
Theorem syntax_error_fails_parse data (c : pconfig) y :
  parse_raises data = None ->
  reached data c ->
  rejects parser ppap c y ->
  stype y = T T_end
  \/ (token_like y /\ 1 < length (statestack c) /\ ~ recovering c) ->
  exists st,
    parse data = Some (PyNone, st)
    /\ (token_like y -> In (syntax_error_line (sym_token y)) (stderr st)).
Proof.
  intros Hno Hr Hrej Hcase.
  destruct (reached_visited data c Hr) as [Hok Hin].
  pose proof (rejected_step c y Hrej) as Hstep.
  pose proof (step_visited ppap c Hok Hin) as Hv. rewrite Hstep in Hv.
  destruct Hcase as [Hend | (Htok & Hlen & Hrec)].
  - destruct (recover_end (fetch ppap c) y Hend) as [u Hu].
    rewrite Hu in Hstep. destruct Hr as [n Hn].
    assert (Hret : padvance (n + 1) (start_of data) = Return None u).
    { rewrite advance_add, Hn. cbn [advance]. rewrite Hstep. reflexivity. }
    destruct (yacc_parse_returns data Hno) as (J & res & st & HJ & Hp).
    pose proof (advance_return_more ppap _ (Nat.max J (n + 1)) _ _ _ Hret
                  (Nat.le_max_r _ _)) as H1.
    pose proof (advance_return_more ppap _ (Nat.max J (n + 1)) _ _ _ HJ
                  (Nat.le_max_l _ _)) as H2.
    rewrite H1 in H2. injection H2 as <- <-.
    exists u. split.
    + unfold parse. rewrite Hp. destruct (error u); reflexivity.
    + intros Htok. apply token_like_not_special in Htok as (t & Ht & Hne & _).
      congruence.
  - destruct (fetch_stacks c) as (Hfs & Hfss & Hfsy).
    assert (Hlen' : 1 < length (statestack (fetch ppap c))) by (rewrite Hfss; exact Hlen).
    assert (Hrec' : ~ recovering (fetch ppap c)).
    { intros (top & rest & Hs & Ht). apply Hrec. exists top, rest.
      rewrite <- Hfsy. split; assumption. }
    assert (Hnc : recover ppap y (fetch ppap c) <> Crash).
    { intros H. rewrite H in Hv. exact Hv. }
    rewrite (recover_token _ y Htok Hlen' Hrec' Hnc) in Hstep, Hv.
    destruct Hv as [Hin1 Hok1].
    match type of Hstep with _ = Next ?c1 =>
      assert (Hr1 : reached data c1)
        by (apply (reached_step data c c1 1 Hr); cbn [advance];
            rewrite Hstep; reflexivity);
      destruct (unwind _ c1 _ eq_refl eq_refl eq_refl Hok1 Hin1)
        as (j1 & c2 & Ha1 & Hst & (rest & Hsym) & Hla & _ & _ & _ & Hok2 & Hin2)
    end.
    pose proof (reached_step data _ c2 j1 Hr1 Ha1) as Hr2.
    destruct (resync _ c2 _ rest (sym_token y) eq_refl Hst Hsym eq_refl eq_refl
                Hla Hok2 Hin2) as (j2 & c3 & Ha2 & Herr & Hmsg & _ & _).
    pose proof (reached_step data c2 c3 j2 Hr2 Ha2) as Hr3.
    destruct (flagged_result data c3 _ Hno Hr3 Herr Hmsg) as (st & Hp & Hline).
    exists st. split; [exact Hp | intros _; exact Hline].
Qed.

End SyntaxErrors.

Section SyntaxErrorWitness.
Import Lexer Grammar LALR Driver Control Parser.
Local Open Scope nat_scope.

Lemma syntax_error_fails_parse_witness :
  (exists st,
     parse ("I have a P" +:+ nl +:+ "Uh! Print P" +:+ nl) = Some (PyNone, st)
     /\ In "line 2: ' ' syntax error" (stderr st))
  /\ (exists st, parse "I have a P" = Some (PyNone, st)).
Proof.
  split.
  - destruct (advance parser productions ppap 20
                (start_of ("I have a P" +:+ nl +:+ "Uh! Print P" +:+ nl)))
      as [c | |] eqn:E; [| vm_compute in E; discriminate ..].
    destruct (syntax_error_fails_parse
                ("I have a P" +:+ nl +:+ "Uh! Print P" +:+ nl) c
                (token_sym (Token T_SPACE (TokStr " ") 2)))
      as (st & Hp & Hl).
    + vm_compute. reflexivity.
    + exists 20. exact E.
    + vm_compute in E. injection E as <-.
      repeat split; vm_compute; reflexivity.
    + right. vm_compute in E. injection E as <-. split; [| split].
      * exists T_SPACE. split; [reflexivity |]. unfold token_types.
        repeat (first [left; reflexivity | right]).
      * vm_compute. lia.
      * intros (top & rest & Hs & Ht). vm_compute in Hs.
        injection Hs as <- _. discriminate Ht.
    + exists st. split; [exact Hp |]. apply Hl.
      exists T_SPACE. split; [reflexivity |]. unfold token_types.
      repeat (first [left; reflexivity | right]).
  - destruct (advance parser productions ppap 9 (start_of "I have a P"))
      as [c | |] eqn:E; [| vm_compute in E; discriminate ..].
    destruct (syntax_error_fails_parse "I have a P" c
                (end_sym ppap)) as (st & Hp & _).
    + vm_compute. reflexivity.
    + exists 9. exact E.
    + vm_compute in E. injection E as <-.
      repeat split; vm_compute; reflexivity.
    + left. reflexivity.
    + exists st. exact Hp.
Defined.

End SyntaxErrorWitness.

(* ===================================================================== *)
(** * Properties of the interpreter *)
(* ===================================================================== *)

Section InterpreterProperties.
Import Interp.

Lemma exec_compare_inv m a b cond x y :
  registers m !! a = Some x -> registers m !! b = Some y ->
  compare m a b cond = Continue (set_register a (if cond x y then 1 else 0) m).
Proof.
  intros Ha Hb. unfold compare, with_reg. rewrite Ha, Hb. reflexivity.
Qed.

Lemma exec_comparison label_map tag cond a b m :
  In (tag, cond) comparisons ->
  exec label_map (tag a b) m = compare m a b cond.
Proof.
  unfold comparisons. simpl.
  intros [H | [H | [H | [H | []]]]]; inversion H; subst; reflexivity.
Qed.

(** C3 (counterexample): [Compare-P-P] with P = 5 names the same register
    twice; the register goes from 5 to 1, so the second operand register
    does change. *)
Lemma comparison_same_register_changes : ~ comparison_keeps_second_operand.
Proof.
  intros H.
  specialize (H ∅ EQ Z.eqb "P" "P" (Machine 1 {["P" := 5]} ∅ [] [])
                (set_register "P" 1 (Machine 1 {["P" := 5]} ∅ [] []))).
  destruct H as [_ H].
  - left. reflexivity.
  - reflexivity.
  - vm_compute in H. discriminate H.
Qed.

(** C3 (amended): an iteration of the loop that executes EQ, NE, GT or GE.
    When both operand registers hold a value, the loop goes on with the next
    instruction ([pc] is one more, as after every instruction that is no
    jump), the first operand register is set to exactly 0 or 1 (1 when the
    test holds of the two old values) and nothing else changes: a second
    operand that is another register keeps its value, every other register,
    the memory and the streams are as before.  When an operand register
    holds no value (the first one is looked up first), the run stops with
    KeyError for that register, with every register, the memory and the
    streams as before. *)
Theorem comparison_sets_first_operand data label_map tag cond a b m :
  In (tag, cond) comparisons ->
  data !! pc m = Some (tag a b) ->
  (forall x y,
     registers m !! a = Some x ->
     registers m !! b = Some y ->
     exists r m',
       step data label_map m = Running m'
       /\ r = (if cond x y then 1 else 0)
       /\ (r = 0 \/ r = 1)
       /\ pc m' = S (pc m)
       /\ registers m' !! a = Some r
       /\ (b <> a -> registers m' !! b = Some y)
       /\ (forall c, c <> a -> registers m' !! c = registers m !! c)
       /\ memory m' = memory m /\ stdout m' = stdout m /\ stdin m' = stdin m)
  /\ (registers m !! a = None ->
      step data label_map m = Raised (KeyError a) (set_pc (S (pc m)) m))
  /\ (forall x,
        registers m !! a = Some x ->
        registers m !! b = None ->
        step data label_map m = Raised (KeyError b) (set_pc (S (pc m)) m)).
Proof.
  intros Hin Hop.
  assert (Hstep : step data label_map m
                  = match compare (set_pc (S (pc m)) m) a b cond with
                    | Continue m' => Running m'
                    | Raise e m' => Raised e m'
                    end).
  { unfold step. rewrite Hop.
    rewrite (exec_comparison label_map tag cond a b _ Hin). reflexivity. }
  split; [| split].
  - intros x y Ha Hb.
    exists (if cond x y then 1 else 0),
           (set_register a (if cond x y then 1 else 0) (set_pc (S (pc m)) m)).
    rewrite Hstep, (exec_compare_inv (set_pc (S (pc m)) m) a b cond x y Ha Hb).
    repeat split.
    + destruct (cond x y); auto.
    + simpl. apply lookup_insert_eq.
    + intros Hne. simpl. rewrite lookup_insert_ne by congruence. exact Hb.
    + intros c Hne. simpl. rewrite lookup_insert_ne by congruence. reflexivity.
  - intros Ha. rewrite Hstep. unfold compare, with_reg. simpl. rewrite Ha.
    reflexivity.
  - intros x Ha Hb. rewrite Hstep. unfold compare, with_reg. simpl.
    rewrite Ha, Hb. reflexivity.
Qed.

Lemma comparison_sets_first_operand_witness :
  (exists r m',
     step [GT "P" "Q"] ∅ (Machine 0 {["P" := 7; "Q" := 2]} ∅ [] []) = Running m'
     /\ r = 1
     /\ (r = 0 \/ r = 1)
     /\ pc m' = 1%nat
     /\ registers m' !! "P" = Some r
     /\ ("Q" <> "P" -> registers m' !! "Q" = Some 2)
     /\ (forall c, c <> "P" ->
         registers m' !! c = ({["P" := 7; "Q" := 2]} : gmap string Z) !! c)
     /\ memory m' = ∅ /\ stdout m' = [] /\ stdin m' = [])
  /\ step [GT "P" "Q"] ∅ (Machine 0 {["P" := 7]} ∅ [] [])
     = Raised (KeyError "Q") (Machine 1 {["P" := 7]} ∅ [] []).
Proof.
  split.
  - refine (proj1 (comparison_sets_first_operand [GT "P" "Q"] ∅ GT Z.gtb "P" "Q"
                     (Machine 0 {["P" := 7; "Q" := 2]} ∅ [] []) _ eq_refl)
                  7 2 eq_refl eq_refl).
    simpl. right. right. left. reflexivity.
  - refine (proj2 (proj2 (comparison_sets_first_operand [GT "P" "Q"] ∅ GT Z.gtb
                            "P" "Q" (Machine 0 {["P" := 7]} ∅ [] []) _ eq_refl))
                  7 eq_refl eq_refl).
    simpl. right. right. left. reflexivity.
Defined.

(** Only STORE writes memory, and only at the address its register holds. *)
Lemma putc_memory rs : forall m m',
  putc rs m = Continue m' -> memory m' = memory m.
Proof.
  induction rs as [| r rs IH]; intros m m' H; simpl in H.
  - inversion H. reflexivity.
  - unfold with_reg in H. destruct (registers m !! r) as [c |]; [| discriminate].
    destruct ((0 <=? c) && (c <? 1114112))%bool; [| discriminate].
    apply IH in H. exact H.
Qed.

Lemma exec_memory label_map op m m' addr :
  exec label_map op m = Continue m' ->
  (forall a b, op = STORE a b -> registers m !! b <> Some addr) ->
  memory m' !! addr = memory m !! addr.
Proof.
  intros H Hst.
  destruct op; simpl in H;
    unfold compare, cond_jump, jump, with_reg in H;
    repeat match type of H with
    | context [registers m !! ?r] =>
        let E := fresh "E" in
        destruct (registers m !! r) eqn:E; [| discriminate]
    | context [if ?c then _ else _] => destruct c eqn:?
    | context [match PyFloat.int_truediv ?x ?y with _ => _ end] =>
        destruct (PyFloat.int_truediv x y); [discriminate |]
    | context [label_map !! ?l] => destruct (label_map !! l); [| discriminate]
    | context [stdin m] => destruct (stdin m); [discriminate |]
    end;
    try discriminate;
    try (inversion H; subst; reflexivity).
  - (* STORE *)
    inversion H; subst; simpl.
    apply lookup_insert_ne. intros ->. exact (Hst a b eq_refl E).
  - (* PUTC *)
    apply putc_memory in H. rewrite H. reflexivity.
Qed.

Lemma exec_registers_store label_map a b m m' :
  exec label_map (STORE a b) m = Continue m' -> registers m' = registers m.
Proof.
  simpl. unfold with_reg.
  destruct (registers m !! b); [| discriminate].
  destruct (_ || _)%bool; [discriminate |].
  destruct (registers m !! a); [| discriminate].
  intros H. inversion H. reflexivity.
Qed.

Lemma step_memory data label_map m m' addr :
  step data label_map m = Running m' ->
  (forall a b, data !! pc m = Some (STORE a b) -> registers m !! b <> Some addr) ->
  memory m' !! addr = memory m !! addr.
Proof.
  unfold step. destruct (data !! pc m) as [op |]; [| discriminate].
  intros H Hst.
  destruct (exec label_map op (set_pc (S (pc m)) m)) as [r | e r] eqn:E;
    [| discriminate].
  injection H as <-.
  exact (exec_memory label_map op (set_pc (S (pc m)) m) r addr E
           (fun a b Hop => Hst a b (f_equal Some Hop))).
Qed.

Lemma undisturbed_memory data label_map addr m m' :
  undisturbed data label_map addr m m' -> memory m' !! addr = memory m !! addr.
Proof.
  induction 1 as [| m m1 m2 _ IH Hstep Hst]; [reflexivity |].
  rewrite <- IH. exact (step_memory data label_map m1 m2 addr Hstep Hst).
Qed.

Lemma loop_add a b data label_map m :
  loop (a + b) data label_map m
  = match loop a data label_map m with
    | Running m' => loop b data label_map m'
    | r => r
    end.
Proof.
  revert m. induction a as [| a IH]; intros m; [reflexivity |].
  simpl. destruct (step data label_map m); try reflexivity. apply IH.
Qed.

Lemma undisturbed_loop data label_map addr m m' :
  undisturbed data label_map addr m m' ->
  exists k, loop k data label_map m = Running m'.
Proof.
  induction 1 as [| m m1 m2 _ [k IH] Hstep _]; [exists 0%nat; reflexivity |].
  exists (k + 1)%nat. rewrite loop_add, IH. simpl. rewrite Hstep. reflexivity.
Qed.

Lemma in_range_test addr :
  0 <= addr < 16777216 -> ((memory_size <=? addr) || (addr <? 0))%bool = false.
Proof.
  intros H. change memory_size with 16777216.
  apply orb_false_iff. split; [apply Z.leb_gt | apply Z.ltb_ge]; lia.
Qed.

Lemma out_of_range_test addr :
  ~ 0 <= addr < 16777216 -> ((memory_size <=? addr) || (addr <? 0))%bool = true.
Proof.
  intros H. change memory_size with 16777216.
  apply orb_true_iff.
  destruct (Z.leb_spec 16777216 addr); [left; reflexivity |].
  right. apply Z.ltb_lt. lia.
Qed.

(** C6 (counterexample): [Push-Q-P] with P = 1 and Q never assigned has an
    address inside the range, and raises KeyError for Q. *)
Lemma store_unassigned_source_raises : ~ in_range_never_raises.
Proof.
  intros H.
  destruct (H ∅ (STORE "Q" "P") "Q" "P" (Machine 1 {["P" := 1]} ∅ [] []) 1)
    as [_ Hin].
  - left. reflexivity.
  - reflexivity.
  - destruct Hin as [m' Hm']; [lia |]. vm_compute in Hm'. discriminate Hm'.
Qed.

(** C6 (amended): with the address register holding [addr], a STORE or LOAD
    whose address is outside [0, 16777216) stops the run with ValueError,
    every register and memory cell as before (nothing is clamped); inside the
    range no address error is raised: LOAD completes, STORE completes when
    its source register holds a value and raises KeyError for that register
    otherwise. *)
Theorem address_range_check data label_map fuel a b m addr :
  registers m !! b = Some addr ->
  let m1 := set_pc (S (pc m)) m in
  (~ 0 <= addr < 16777216 ->
     (data !! pc m = Some (STORE a b) ->
      loop (S fuel) data label_map m
      = Raised (ValueError "memory address to store is out of range") m1)
     /\ (data !! pc m = Some (LOAD a b) ->
      loop (S fuel) data label_map m
      = Raised (ValueError "memory address to load is out of range") m1))
  /\ (0 <= addr < 16777216 ->
      exec label_map (LOAD a b) m1
      = Continue (set_register a (default 0 (memory m !! addr)) m1)
      /\ (forall v, registers m !! a = Some v ->
          exec label_map (STORE a b) m1 = Continue (set_memory addr v m1))
      /\ (registers m !! a = None ->
          exec label_map (STORE a b) m1 = Raise (KeyError a) m1)).
Proof.
  intros Hb m1. split.
  - intros Hout. pose proof (out_of_range_test addr Hout) as Ht.
    split; intros Hop; simpl; unfold step; rewrite Hop; simpl;
      unfold with_reg; simpl; rewrite Hb, Ht; reflexivity.
  - intros Hin. pose proof (in_range_test addr Hin) as Ht.
    repeat split.
    + simpl. unfold with_reg. simpl. rewrite Hb, Ht. reflexivity.
    + intros v Ha. simpl. unfold with_reg. simpl. rewrite Hb, Ht, Ha. reflexivity.
    + intros Ha. simpl. unfold with_reg. simpl. rewrite Hb, Ht, Ha. reflexivity.
Qed.

Lemma address_range_check_witness :
  loop 1 [STORE "P" "Q"] ∅ (Machine 0 {["P" := 5; "Q" := 16777216]} ∅ [] [])
  = Raised (ValueError "memory address to store is out of range")
           (Machine 1 {["P" := 5; "Q" := 16777216]} ∅ [] [])
  /\ exec ∅ (LOAD "P" "Q") (Machine 1 {["P" := 5; "Q" := 16777215]} ∅ [] [])
     = Continue (Machine 1 {["P" := 0; "Q" := 16777215]} ∅ [] []).
Proof.
  split.
  - pose proof (address_range_check [STORE "P" "Q"] ∅ 0 "P" "Q"
                  (Machine 0 {["P" := 5; "Q" := 16777216]} ∅ [] []) 16777216
                  eq_refl) as [H _].
    destruct H as [H _]; [lia |]. exact (H eq_refl).
  - pose proof (address_range_check [] ∅ 0 "P" "Q"
                  (Machine 0 {["P" := 5; "Q" := 16777215]} ∅ [] []) 16777215
                  eq_refl) as [_ H].
    destruct H as [H _]; [lia |]. exact H.
Defined.

(** C7: in the loop of the interpreter, for every in-range address [addr]:
    an iteration that executes STORE of the value [v] at [addr], followed
    (at once, or after any iterations of the loop that execute no STORE to
    [addr]) by an iteration that executes LOAD through a register holding
    [addr], puts [v] in the destination register of the LOAD; and in a run
    from the start in which no STORE to [addr] has been executed, an
    iteration that executes LOAD through a register holding [addr] puts 0
    in the destination register. *)
Theorem store_then_load data addr :
  0 <= addr < 16777216 ->
  (forall label_map src reg m v,
     data !! pc m = Some (STORE src reg) ->
     registers m !! src = Some v ->
     registers m !! reg = Some addr ->
     exists m1,
       step data label_map m = Running m1
       /\ pc m1 = S (pc m) /\ registers m1 = registers m
       /\ (forall dst, data !! S (pc m) = Some (LOAD dst reg) ->
             exists m3, loop 2 data label_map m = Running m3
                        /\ registers m3 !! dst = Some v)
       /\ (forall m2 dst reg',
             undisturbed data label_map addr m1 m2 ->
             data !! pc m2 = Some (LOAD dst reg') ->
             registers m2 !! reg' = Some addr ->
             exists m3, step data label_map m2 = Running m3
                        /\ registers m3 !! dst = Some v))
  /\ (forall input m0 dst reg,
        undisturbed data (build_label_map data 0 ∅) addr (initial input) m0 ->
        data !! pc m0 = Some (LOAD dst reg) ->
        registers m0 !! reg = Some addr ->
        (exists k, run k data input = Running m0)
        /\ exists m', step data (build_label_map data 0 ∅) m0 = Running m'
                      /\ registers m' !! dst = Some 0).
Proof.
  intros Hin. pose proof (in_range_test addr Hin) as Ht.
  assert (Hload : forall label_map m2 dst reg',
            data !! pc m2 = Some (LOAD dst reg') ->
            registers m2 !! reg' = Some addr ->
            step data label_map m2
            = Running (set_register dst (default 0 (memory m2 !! addr))
                         (set_pc (S (pc m2)) m2))).
  { intros label_map m2 dst reg' Hop Hreg'. unfold step. rewrite Hop. simpl.
    unfold with_reg. simpl. rewrite Hreg', Ht. reflexivity. }
  split.
  - intros label_map src reg m v Hop Hsrc Hreg.
    assert (Hstore : step data label_map m
                     = Running (set_memory addr v (set_pc (S (pc m)) m))).
    { unfold step. rewrite Hop. simpl. unfold with_reg. simpl.
      rewrite Hreg, Ht, Hsrc. reflexivity. }
    exists (set_memory addr v (set_pc (S (pc m)) m)).
    split; [exact Hstore |]. split; [reflexivity |]. split; [reflexivity |]. split.
    + intros dst Hnext. eexists. split.
      * change 2%nat with (1 + 1)%nat. rewrite loop_add. simpl.
        rewrite Hstore.
        rewrite (Hload label_map (set_memory addr v (set_pc (S (pc m)) m)) dst reg
                   Hnext Hreg). reflexivity.
      * simpl. rewrite !lookup_insert_eq. reflexivity.
    + intros m2 dst reg' Hund Hop2 Hreg'.
      apply undisturbed_memory in Hund. simpl in Hund.
      rewrite lookup_insert_eq in Hund.
      eexists. split; [exact (Hload label_map m2 dst reg' Hop2 Hreg') |].
      simpl. rewrite lookup_insert_eq, Hund. reflexivity.
  - intros input m0 dst reg Hund Hop Hreg. split.
    + exact (undisturbed_loop _ _ _ _ _ Hund).
    + apply undisturbed_memory in Hund. simpl in Hund.
      eexists. split; [exact (Hload _ m0 dst reg Hop Hreg) |].
      simpl. rewrite lookup_insert_eq, Hund. reflexivity.
Qed.

Lemma store_then_load_witness :
  let data := [REGISTER "P" 42; REGISTER "Q" 100; STORE "P" "Q"; LOAD "R" "Q"] in
  (exists m3,
     loop 2 data ∅ (Machine 2 {["P" := 42; "Q" := 100]} ∅ [] []) = Running m3
     /\ registers m3 !! "R" = Some 42)
  /\ (exists m',
       step [REGISTER "Q" 100; LOAD "R" "Q"] ∅ (Machine 1 {["Q" := 100]} ∅ [] [])
       = Running m'
       /\ registers m' !! "R" = Some 0).
Proof.
  intros data. split.
  - destruct (proj1 (store_then_load data 100 ltac:(lia)) ∅ "P" "Q"
                (Machine 2 {["P" := 42; "Q" := 100]} ∅ [] []) 42)
      as (m1 & _ & _ & _ & Hnow & _); [reflexivity | reflexivity | reflexivity |].
    apply (Hnow "R"). reflexivity.
  - apply (proj2 (store_then_load [REGISTER "Q" 100; LOAD "R" "Q"] 100
                    ltac:(lia))
             [] (Machine 1 {["Q" := 100]} ∅ [] []) "R" "Q");
      [| reflexivity | reflexivity].
    apply (undisturbed_step _ _ 100 _ (initial []));
      [apply undisturbed_refl | reflexivity | discriminate].
Defined.

(** C10: a GETC reached when the input is exhausted stops the run with the
    TypeError of [ord('')]; nothing is stored: every register, and the
    destination in particular, is as before. *)
Theorem getc_at_end_of_input data label_map fuel r m :
  data !! pc m = Some (GETC r) ->
  stdin m = [] ->
  exists m',
    loop (S fuel) data label_map m = Raised TypeError m'
    /\ registers m' = registers m
    /\ registers m' !! r = registers m !! r
    /\ memory m' = memory m /\ stdout m' = stdout m.
Proof.
  intros Hop Hin. exists (set_pc (S (pc m)) m).
  simpl. unfold step. rewrite Hop. simpl. rewrite Hin. repeat split.
Qed.

Lemma getc_at_end_of_input_witness :
  exists m',
    loop 5 [REGISTER "P" 7; GETC "P"] ∅ (Machine 1 {["P" := 7]} ∅ [] [])
    = Raised TypeError m'
    /\ registers m' = {["P" := 7]}
    /\ registers m' !! "P" = ({["P" := 7]} : gmap string Z) !! "P"
    /\ memory m' = ∅ /\ stdout m' = [].
Proof.
  refine (getc_at_end_of_input [REGISTER "P" 7; GETC "P"] ∅ 4 "P"
            (Machine 1 {["P" := 7]} ∅ [] []) _ _); reflexivity.
Defined.

End InterpreterProperties.

(* ===================================================================== *)
(** * Properties of the front end on given source texts *)
(* ===================================================================== *)

Section FrontEndExamples.
Import Lexer Grammar LALR Driver Parser Interp.

(** The table construction met no conflict: every state has at most one
    action per token type. *)
Lemma parser_has_no_conflict :
  forallb (fun row =>
    forallb (fun e =>
      Nat.eqb (length (filter (fun e' => terminal_beq (fst e) (fst e')) row)) 1)
      row) (action_table parser) = true.
Proof. vm_compute. reflexivity. Qed.

(** Scenario 1 of the specification. *)
Example parse_declaration :
  parse ("I have a P" +:+ nl) = Some (PyList [REGISTER "P" 1], PState ["P"] [] false []).
Proof. vm_compute. reflexivity. Qed.

(** Scenario 2 of the specification. *)
Example parse_and_run_append :
  exists st m,
    parse ("I have 5 P" +:+ nl +:+ "I have 3 Q" +:+ nl +:+ "Uh! Append-P-Q" +:+ nl
           +:+ "Uh! Print-P" +:+ nl)
    = Some (PyList [REGISTER "P" 5; REGISTER "Q" 3; ADD "P" "Q"; PRINT "P"], st)
    /\ run 10 [REGISTER "P" 5; REGISTER "Q" 3; ADD "P" "Q"; PRINT "P"] []
       = Finished m
    /\ stdout m = codepoints "8".
Proof. do 2 eexists. split; [| split]; vm_compute; reflexivity. Qed.

(** C2 (the code at the failing input): [Uh! Print-P] with P never declared.
    [p_register] prints the warning and still returns the name, so the test
    [if p[3]] of [p_print] succeeds and the PRINT instruction is in the list
    [parse] returns. *)
Theorem undeclared_register_line_is_kept :
  parse ("Uh! Print-P" +:+ nl)
  = Some (PyList [PRINT "P"],
          PState [] [] false ["line 1: 'P' is an undeclared register"])
  /\ (forall p st, fst (p_register_fn p st) = arg p 1).
Proof. split; [vm_compute; reflexivity | reflexivity]. Qed.

(** C5 (the code at the failing input): the label P-P declared twice.  Both
    LABEL instructions are kept, both names are appended to [label_names],
    and nothing is printed: [add_program] looks the label up in
    [register_names], never in [label_names]. *)
Theorem duplicate_label_is_silent :
  parse ("I have a P" +:+ nl +:+ "P-P" +:+ nl +:+ "P-P" +:+ nl)
  = Some (PyList [REGISTER "P" 1; LABEL "P-P"; LABEL "P-P"],
          PState ["P"] ["P-P"; "P-P"] false []).
Proof. vm_compute. reflexivity. Qed.

(** C4 (the code at the failing input): [int(9007199254740993 / 1)] goes
    through the nearest binary64, 9007199254740992, although the truncated
    quotient is 9007199254740993. *)
Theorem chop_large_dividend :
  let prog := [REGISTER "P" 9007199254740993; REGISTER "Q" 1; DIV "P" "Q";
               PRINT "P"] in
  (fst <$> parse ("I have 9007199254740993 P" +:+ nl +:+ "I have a Q" +:+ nl
                  +:+ "Uh! Chop-P-Q" +:+ nl +:+ "Uh! Print-P" +:+ nl))
  = Some (PyList prog)
  /\ (exists m, run 10 prog [] = Finished m
                /\ stdout m = codepoints "9007199254740992")
  /\ 9007199254740993 ÷ 1 = 9007199254740993.
Proof.
  split; [vm_compute; reflexivity |].
  split; [eexists; split; vm_compute; reflexivity | reflexivity].
Qed.

(** Scenario 5 of the specification, with the negative operands it names. *)
Example chop_small_operands :
  PyFloat.int_truediv 7 2 = inr 3 /\ PyFloat.int_truediv (-7) 2 = inr (-3)
  /\ PyFloat.int_truediv 7 (-2) = inr (-3) /\ PyFloat.int_truediv (-7) (-2) = inr 3.
Proof. repeat split; vm_compute; reflexivity. Qed.

(** C1 (the code at the failing input): the interpreter prints 1, and the
    listing written by [to_c] holds the statement [P = (P == Q ? 1 : 0)]
    with no semicolon before the [printf] line, which no C compiler accepts:
    [ternary_operator] is the only statement printer that leaves the
    semicolon out. *)
Theorem comparison_is_lowered_without_semicolon :
  let prog := [REGISTER "P" 1; REGISTER "Q" 1; EQ "P" "Q"; PRINT "P"] in
  (fst <$> parse ("I have a P" +:+ nl +:+ "I have a Q" +:+ nl
                  +:+ "Uh! Compare-P-Q" +:+ nl +:+ "Uh! Print-P" +:+ nl))
  = Some (PyList prog)
  /\ (exists m, run 10 prog [] = Finished m /\ stdout m = codepoints "1")
  /\ Lower.to_c prog
     = [ "#include <stdio.h>" +:+ nl +:+ "#include <stdlib.h>" +:+ nl +:+ nl
         +:+ "int main(void) {";
         "    int P;";
         "    int Q;";
         EmptyString;
         "    P = 1;";
         "    Q = 1;";
         "    P = (P == Q ? 1 : 0)";
         "    printf(" +:+ dq +:+ "%d" +:+ dq +:+ ", P);";
         "    return 0;" +:+ nl +:+ "}" ].
Proof.
  split; [vm_compute; reflexivity |].
  split; [eexists; split; vm_compute; reflexivity | vm_compute; reflexivity].
Qed.

(** A last line without its end-of-line marker is invalid: the result is
    failed, and the only diagnostic is [syntax error at eof], with no line
    number. *)
Lemma unterminated_line_reports_eof :
  exists st,
    parse "I have a P" = Some (PyNone, st)
    /\ stderr st = ["syntax error at eof"]
    /\ ~ reports_syntax_error st.
Proof.
  eexists. split; [vm_compute; reflexivity |]. split; [reflexivity |].
  intros (n & text & [H | []]). simpl in H. discriminate H.
Qed.

End FrontEndExamples.

(* ===================================================================== *)
(** * Facts about strings *)
Section StringFacts.

Lemma append_String c s t : String c s +:+ t = String c (s +:+ t).
Proof. reflexivity. Qed.

Lemma append_Empty t : EmptyString +:+ t = t.
Proof. reflexivity. Qed.

Lemma append_empty_r s : s +:+ EmptyString = s.
Proof.
  induction s as [| c s IH]; [reflexivity |].
  rewrite append_String. f_equal. exact IH.
Qed.

End StringFacts.

(* ===================================================================== *)
(** * More properties of the interpreter *)
Section InterpreterInvariants.
Import Interp.

(** What one instruction can do to the streams and to the memory. *)
Lemma putc_effect rs : forall m r,
  (putc rs m = Continue r \/ exists e, putc rs m = Raise e r) ->
  pc r = pc m /\ registers r = registers m /\ memory r = memory m
  /\ stdin r = stdin m /\ exists s, stdout r = stdout m ++ s.
Proof.
  induction rs as [| a rs IH]; intros m r H; simpl in H.
  - destruct H as [H | [e H]]; [| discriminate].
    injection H as <-. repeat split. exists []. symmetry. apply app_nil_r.
  - unfold with_reg in H. destruct (registers m !! a) as [c |].
    + destruct ((0 <=? c) && (c <? 1114112)).
      * destruct (IH _ _ H) as (Hpc & Hr & Hm & Hi & s & Hs). simpl in *.
        repeat split; try assumption. exists ([c] ++ s).
        rewrite Hs. symmetry. apply app_assoc.
      * destruct H as [H | [e H]]; [discriminate |]. injection H as _ <-.
        repeat split. exists []. symmetry. apply app_nil_r.
    + destruct H as [H | [e H]]; [discriminate |]. injection H as _ <-.
      repeat split. exists []. symmetry. apply app_nil_r.
Qed.

Lemma exec_streams label_map op m r :
  (exec label_map op m = Continue r \/ exists e, exec label_map op m = Raise e r) ->
  (exists s, stdout r = stdout m ++ s)
  /\ (exists s, stdin m = s ++ stdin r).
Proof.
  intros H.
  destruct op; simpl in H;
    unfold compare, cond_jump, jump, with_reg in H;
    repeat match type of H with
    | context [match ?x with _ => _ end] => destruct x eqn:?
    | context [if ?x then _ else _] => destruct x eqn:?
    end;
    try (destruct H as [H | [e H]]; try discriminate;
         inversion H; subst;
         split; simpl;
         [ first [exists []; symmetry; apply app_nil_r | eexists; reflexivity]
         | first [ exists []; reflexivity
                 | exists []; simpl; congruence
                 | match goal with
                   | |- context [?c :: ?l] => exists [c]; reflexivity
                   end ] ]).
  destruct (putc_effect _ _ _ H) as (_ & _ & _ & Hi & Hs).
  split; [exact Hs | exists []; symmetry; exact Hi].
Qed.


Lemma step_streams data label_map m :
  (exists s, stdout (machine_of (step data label_map m)) = stdout m ++ s)
  /\ (exists s, stdin m = s ++ stdin (machine_of (step data label_map m))).
Proof.
  unfold step. destruct (data !! pc m) as [op |].
  - destruct (exec label_map op (set_pc (S (pc m)) m)) as [r | e r] eqn:E;
      simpl; apply (exec_streams label_map op (set_pc (S (pc m)) m) r); eauto.
  - simpl. split; [exists []; symmetry; apply app_nil_r | exists []; reflexivity].
Qed.

(** X1: whatever the program, the input and the number of iterations, the
    interpreter only appends to its standard output and only consumes its
    standard input from the front: the output at any later moment (at the
    end, at an exception, or in between) starts with the output so far, and
    the input left is a suffix of the input there was. *)
Theorem output_grows_input_shrinks fuel data label_map m :
  (exists written, stdout (machine_of (loop fuel data label_map m))
                   = stdout m ++ written)
  /\ (exists consumed, stdin m
                       = consumed ++ stdin (machine_of (loop fuel data label_map m))).
Proof.
  revert m. induction fuel as [| fuel IH]; intros m.
  - simpl. split; [exists []; symmetry; apply app_nil_r | exists []; reflexivity].
  - pose proof (step_streams data label_map m) as [[s Hs] [i Hi]].
    simpl. destruct (step data label_map m) as [r | e r | r]; simpl in *;
      try (split; [exists s; exact Hs | exists i; exact Hi]).
    destruct (IH r) as [[s' Hs'] [i' Hi']]. split.
    + exists (s ++ s'). rewrite Hs', Hs. symmetry. apply app_assoc.
    + exists (i ++ i'). rewrite Hi, Hi'. apply app_assoc.
Qed.

(** The memory only receives cells at addresses that passed the range test. *)
Lemma exec_memory_range label_map op m r :
  (exec label_map op m = Continue r \/ exists e, exec label_map op m = Raise e r) ->
  (forall a v, memory m !! a = Some v -> 0 <= a < 16777216) ->
  forall a v, memory r !! a = Some v -> 0 <= a < 16777216.
Proof.
  intros H Hm.
  destruct op; simpl in H;
    unfold compare, cond_jump, jump, with_reg in H;
    repeat match type of H with
    | context [match ?x with _ => _ end] => destruct x eqn:?
    | context [if ?x then _ else _] => destruct x eqn:?
    end;
    try (destruct H as [H | [e H]]; try discriminate;
         inversion H; subst; exact Hm).
  - destruct H as [H | [e H]]; try discriminate. inversion H; subst.
    intros a' v'. simpl. intros Hl.
    destruct (decide (a' = z)) as [-> | Hne].
    + apply orb_false_iff in Heqb0 as [H1 H2]. unfold memory_size in H1.
      change (Z.shiftl 1 24) with 16777216 in H1. lia.
    + rewrite lookup_insert_ne in Hl by congruence. eauto.
  - destruct (putc_effect _ _ _ H) as (_ & _ & Hmem & _). rewrite Hmem. exact Hm.
Qed.

(** X2: from the empty memory [run] starts with, every cell the memory ever
    holds has an address in [0, 16777216), at every moment of every run. *)
Theorem memory_cells_in_range fuel data input a v :
  memory (machine_of (run fuel data input)) !! a = Some v ->
  0 <= a < 16777216.
Proof.
  unfold run. generalize (build_label_map data 0 ∅). intros label_map.
  assert (H0 : forall a v, memory (initial input) !! a = Some v -> 0 <= a < 16777216).
  { intros a' v' H. simpl in H. rewrite lookup_empty in H. discriminate. }
  revert H0. generalize (initial input). revert a v.
  induction fuel as [| fuel IH]; intros a v m Hm.
  - simpl. apply Hm.
  - simpl. unfold step at 1. destruct (data !! pc m) as [op |]; [| simpl; apply Hm].
    destruct (exec label_map op (set_pc (S (pc m)) m)) as [r | e r] eqn:E.
    + apply IH. eapply exec_memory_range; [left; exact E | exact Hm].
    + simpl. eapply exec_memory_range; [right; eexists; exact E | exact Hm].
Qed.


Lemma memory_cells_in_range_witness :
  memory (machine_of (run 3 [REGISTER "P" 5; STORE "P" "P"] [])) !! 5 = Some 5
  /\ 0 <= 5 < 16777216.
Proof.
  assert (H : memory (machine_of (run 3 [REGISTER "P" 5; STORE "P" "P"] [])) !! 5
              = Some 5) by (vm_compute; reflexivity).
  split; [exact H |].
  exact (memory_cells_in_range 3 [REGISTER "P" 5; STORE "P" "P"] [] 5 5 H).
Defined.

Lemma raising_after label_map op m e r :
  exec label_map op m = Raise e r -> pc r = pc m.
Proof.
  intros H.
  destruct op; simpl in H;
    unfold compare, cond_jump, jump, with_reg in H;
    repeat match type of H with
    | context [match ?x with _ => _ end] => destruct x eqn:?
    | context [if ?x then _ else _] => destruct x eqn:?
    end;
    try discriminate; try (inversion H; subst; reflexivity).
  destruct (putc_effect rs m r) as (Hpc & _); [eauto | exact Hpc].
Qed.

(** X3: an instruction that raises has assigned no register, written no
    memory cell, read no input and left the program counter alone; only
    PUTC may already have written the characters of the registers that come
    before the failing one. *)
Theorem raising_instruction_changes_nothing label_map op m e r :
  exec label_map op m = Raise e r ->
  pc r = pc m /\ registers r = registers m /\ memory r = memory m
  /\ stdin r = stdin m
  /\ exists written, stdout r = stdout m ++ written
                     /\ ((forall rs, op <> PUTC rs) -> written = []).
Proof.
  intros H.
  destruct op; simpl in H;
    unfold compare, cond_jump, jump, with_reg in H;
    repeat match type of H with
    | context [match ?x with _ => _ end] => destruct x eqn:?
    | context [if ?x then _ else _] => destruct x eqn:?
    end;
    try discriminate;
    try (inversion H; subst; do 4 (split; [first [reflexivity | congruence] |]); exists []; split;
         [symmetry; apply app_nil_r | reflexivity]).
  destruct (putc_effect rs m r) as (Hpc & Hr & Hm & Hi & s & Hs); [eauto |].
  repeat split; try assumption. exists s. split; [exact Hs |].
  intros Hno. exfalso. exact (Hno rs eq_refl).
Qed.

Lemma raising_instruction_changes_nothing_witness :
  let m := Machine 3 {["P" := 80]} ∅ [] [] in
  exec ∅ (PUTC ["P"; "Q"]) m = Raise (KeyError "Q") (write [80] m)
  /\ registers (write [80] m) = registers m.
Proof.
  intros m.
  assert (H : exec ∅ (PUTC ["P"; "Q"]) m = Raise (KeyError "Q") (write [80] m))
    by (vm_compute; reflexivity).
  split; [exact H |].
  exact (proj1 (proj2 (raising_instruction_changes_nothing _ _ _ _ _ H))).
Defined.

(** An instruction that is no jump leaves the program counter alone. *)
Lemma exec_pc label_map op m r :
  is_jump op = false -> exec label_map op m = Continue r -> pc r = pc m.
Proof.
  intros Hj H.
  destruct op; try discriminate Hj; simpl in H;
    unfold compare, with_reg in H;
    repeat match type of H with
    | context [match ?x with _ => _ end] => destruct x eqn:?
    | context [if ?x then _ else _] => destruct x eqn:?
    end;
    try discriminate; try (inversion H; subst; reflexivity).
  destruct (putc_effect rs m r) as (Hpc & _); [eauto | exact Hpc].
Qed.

Lemma straight_line_loop data label_map :
  forallb (fun op => negb (is_jump op)) data = true ->
  forall k m, (length data <= pc m + k)%nat ->
    match loop (S k) data label_map m with
    | Finished r => pc r = Nat.max (pc m) (length data)
    | Raised _ r => (pc r <= length data)%nat
    | Running _ => False
    end.
Proof.
  intros Hfree. induction k as [| k IH]; intros m Hk.
  - simpl. unfold step. destruct (data !! pc m) as [op |] eqn:E.
    + apply lookup_lt_Some in E. lia.
    + apply lookup_ge_None in E. lia.
  - change (loop (S (S k)) data label_map m)
      with (match step data label_map m with
            | Running m' => loop (S k) data label_map m'
            | r => r
            end).
    unfold step. destruct (data !! pc m) as [op |] eqn:E.
    + assert (Hop : is_jump op = false).
      { rewrite forallb_forall in Hfree.
        apply negb_true_iff, Hfree. eapply list_elem_of_In, list_elem_of_lookup_2, E. }
      pose proof (lookup_lt_Some _ _ _ E) as Hlt.
      destruct (exec label_map op (set_pc (S (pc m)) m)) as [r | e r] eqn:X.
      * pose proof (exec_pc _ _ _ _ Hop X) as Hpc. simpl in Hpc.
        specialize (IH r). rewrite Hpc in IH.
        destruct (loop (S k) data label_map r); [| | apply IH; lia].
        -- rewrite IH by lia. lia.
        -- apply IH. lia.
      * pose proof (raising_after _ _ _ _ _ X) as Hpc. simpl in *. lia.
    + apply lookup_ge_None in E. lia.
Qed.


(** X4: a program without jump instructions (JEQ, JNE, JGT, JGE, JMP) ends
    within one iteration per instruction: after at most [len(data)]
    instructions the loop has finished with [pc = len(data)], or an
    instruction has raised; it is never still running. *)
Theorem jump_free_program_ends data input :
  forallb (fun op => negb (is_jump op)) data = true ->
  (exists r, run (S (length data)) data input = Finished r
             /\ pc r = length data)
  \/ (exists e r, run (S (length data)) data input = Raised e r
                  /\ (pc r <= length data)%nat).
Proof.
  intros Hfree. unfold run.
  pose proof (straight_line_loop data (build_label_map data 0 ∅) Hfree
                (length data) (initial input)) as H.
  destruct (loop (S (length data)) data (build_label_map data 0 ∅) (initial input))
    as [r | e r | r].
  - left. exists r. split; [reflexivity |]. rewrite H by (simpl; lia). simpl. lia.
  - right. exists e, r. split; [reflexivity |]. apply H. simpl. lia.
  - exfalso. apply H. simpl. lia.
Qed.

Lemma jump_free_program_ends_witness :
  exists r, run 3 [REGISTER "P" 7; PRINT "P"] [] = Finished r /\ pc r = 2%nat.
Proof.
  destruct (jump_free_program_ends [REGISTER "P" 7; PRINT "P"] [] eq_refl)
    as [H | (e & r & H & _)].
  - exact H.
  - exfalso. vm_compute in H. discriminate H.
Defined.

(** The label map after the first loop of [run]. *)
Lemma build_label_map_absent l data : forall i label_map,
  (forall j, data !! j <> Some (LABEL l)) ->
  build_label_map data i label_map !! l = label_map !! l.
Proof.
  induction data as [| op data IH]; intros i label_map Hno; [reflexivity |].
  assert (Hrest : forall j, data !! j <> Some (LABEL l))
    by (intros j; exact (Hno (S j))).
  pose proof (Hno 0%nat) as H0. simpl in H0.
  destruct op; simpl; try (apply IH; exact Hrest).
  rewrite IH by exact Hrest. apply lookup_insert_ne. congruence.
Qed.

Lemma build_label_map_last l data : forall i label_map j,
  data !! j = Some (LABEL l) ->
  (forall k, (j < k)%nat -> data !! k <> Some (LABEL l)) ->
  build_label_map data i label_map !! l = Some (i + j)%nat.
Proof.
  induction data as [| op data IH]; intros i label_map j Hj Hlast;
    [discriminate |].
  destruct j as [| j].
  - simpl in Hj. injection Hj as ->. simpl.
    rewrite build_label_map_absent.
    + rewrite lookup_insert_eq. f_equal. lia.
    + intros k. apply (Hlast (S k)). lia.
  - simpl in Hj.
    assert (Hrest : forall k, (j < k)%nat -> data !! k <> Some (LABEL l))
      by (intros k Hk; apply (Hlast (S k)); lia).
    replace (i + S j)%nat with (S i + j)%nat by lia.
    destruct op; cbn [build_label_map]; apply IH; assumption.
Qed.

(** X5: a jump goes to the last LABEL instruction of the program that has
    the name (a label declared more than once is taken at its last
    declaration), the next instruction executed being that LABEL; a jump to
    a name no LABEL instruction has raises KeyError and changes nothing.
    The same holds of a conditional jump whose test succeeds. *)
Theorem jump_goes_to_last_label data l m :
  let label_map := build_label_map data 0 ∅ in
  (forall i, data !! i = Some (LABEL l) ->
             (forall j, (i < j)%nat -> data !! j <> Some (LABEL l)) ->
             exec label_map (JMP l) m = Continue (set_pc i m)
             /\ forall a b x, registers m !! a = Some x ->
                              registers m !! b = Some x ->
                              exec label_map (JEQ a b l) m = Continue (set_pc i m))
  /\ ((forall i, data !! i <> Some (LABEL l)) ->
      exec label_map (JMP l) m = Raise (KeyError l) m).
Proof.
  intros label_map. split.
  - intros i Hi Hlast.
    assert (Hl : label_map !! l = Some i)
      by exact (build_label_map_last l data 0 ∅ i Hi Hlast).
    split.
    + simpl. unfold jump. rewrite Hl. reflexivity.
    + intros a b x Ha Hb. simpl. unfold cond_jump, with_reg, jump.
      rewrite Ha, Hb, Z.eqb_refl, Hl. reflexivity.
  - intros Hno. simpl. unfold jump. unfold label_map.
    rewrite (build_label_map_absent l data 0 ∅ Hno), lookup_empty. reflexivity.
Qed.

Lemma jump_goes_to_last_label_witness :
  let data := [LABEL "A-B"; PRINT "P"; LABEL "A-B"; JMP "A-B"] in
  exec (build_label_map data 0 ∅) (JMP "A-B") (initial [])
  = Continue (set_pc 2 (initial [])).
Proof.
  intros data.
  refine (proj1 (proj1 (jump_goes_to_last_label data "A-B" (initial []))
                   2%nat eq_refl _)).
  intros j Hj. destruct j as [| [| [| [| j]]]]; try lia; simpl; discriminate.
Defined.

Lemma write_write s t m : write t (write s m) = write (s ++ t) m.
Proof. unfold write. simpl. rewrite app_assoc. reflexivity. Qed.

(** X6: PUTC with several registers writes one character per register, in
    the order of the operands, when every register holds an ASCII code
    point (in [0, 128), which every output encoding can write); nothing
    else changes. *)
Theorem put_writes_in_order label_map rs cs m :
  Forall2 (fun r c => registers m !! r = Some c /\ 0 <= c < 128) rs cs ->
  exec label_map (PUTC rs) m = Continue (write cs m).
Proof.
  simpl. intros H. revert m H.
  assert (G : forall rs cs m pre,
    Forall2 (fun r c => registers m !! r = Some c /\ 0 <= c < 128) rs cs ->
    putc rs (write pre m) = Continue (write (pre ++ cs) m)).
  { clear. intros rs cs m pre H. revert pre.
    induction H as [| r c rs cs [Hr Hc] _ IH]; intros pre.
    - simpl. rewrite app_nil_r. reflexivity.
    - simpl. unfold with_reg. simpl. rewrite Hr.
      replace ((0 <=? c) && (c <? 1114112)) with true
        by (symmetry; apply andb_true_iff; split; [apply Z.leb_le | apply Z.ltb_lt]; lia).
      rewrite write_write, IH, <- app_assoc. reflexivity. }
  intros m H. specialize (G rs cs m [] H). simpl in G.
  replace (write [] m) with m in G; [exact G |].
  destruct m. unfold write. simpl. rewrite app_nil_r. reflexivity.
Qed.

Lemma put_writes_in_order_witness :
  exec ∅ (PUTC ["P"; "Q"; "P"]) (Machine 0 {["P" := 80; "Q" := 65]} ∅ [] [])
  = Continue (Machine 0 {["P" := 80; "Q" := 65]} ∅ [] [80; 65; 80]).
Proof.
  apply (put_writes_in_order ∅ ["P"; "Q"; "P"] [80; 65; 80]).
  repeat constructor; try reflexivity; lia.
Defined.

End InterpreterInvariants.

(* ===================================================================== *)
(** * Division of small operands *)
Section SmallDivision.
Import PyFloat Interp.

Lemma shl_nonneg x k : 0 <= k -> shl x k = x * 2 ^ k.
Proof. intros H. unfold shl. destruct (Z.leb_spec 0 k); [reflexivity | lia]. Qed.

Lemma shl_neg x k : k < 0 -> shl x k = x.
Proof. intros H. unfold shl. destruct (Z.leb_spec 0 k); [lia | reflexivity]. Qed.

Lemma pow2_pos k : 0 <= k -> 0 < 2 ^ k.
Proof. intros H. apply Z.pow_pos_nonneg; lia. Qed.

(** [ilog2_ratio n d] is the exponent [k] with [2^k <= n/d < 2^(k+1)]. *)
Lemma pow2_split x y z : 0 <= y -> 0 <= z -> x = y + z -> 2 ^ x = 2 ^ y * 2 ^ z.
Proof. intros Hy Hz ->. apply Z.pow_add_r; assumption. Qed.

(** [ilog2_ratio n d] is the exponent [k] with [2^k <= n/d < 2^(k+1)]. *)
Lemma ilog2_ratio_spec n d :
  0 < n -> 0 < d ->
  let k := ilog2_ratio n d in
  (0 <= k -> d * 2 ^ k <= n) /\ (k < 0 -> d <= n * 2 ^ (- k))
  /\ (0 <= k + 1 -> n < d * 2 ^ (k + 1))
  /\ (k + 1 < 0 -> n * 2 ^ (- (k + 1)) < d).
Proof.
  intros Hn Hd. unfold ilog2_ratio.
  pose proof (Z.log2_spec n Hn) as [Ln Un].
  pose proof (Z.log2_spec d Hd) as [Ld Ud].
  pose proof (Z.log2_nonneg n) as H0n. pose proof (Z.log2_nonneg d) as H0d.
  set (ln := Z.log2 n) in *. set (ld := Z.log2 d) in *.
  unfold Z.succ in *.
  pose proof (pow2_pos ln H0n) as Pn. pose proof (pow2_pos ld H0d) as Pd.
  assert (Tpos : 0 <= ln - ld -> shl d (ln - ld) = d * 2 ^ (ln - ld))
    by (intros; apply shl_nonneg; lia).
  assert (Tneg : ln - ld < 0 -> shl n (- (ln - ld)) = n * 2 ^ (- (ln - ld)))
    by (intros; apply shl_nonneg; lia).
  assert (Tpos' : 0 <= ln - ld -> shl n (- (ln - ld)) = n).
  { intros H. destruct (Z.eq_dec (ln - ld) 0) as [E | E].
    - rewrite E. simpl. unfold shl. simpl. lia.
    - apply shl_neg. lia. }
  assert (Tneg' : ln - ld < 0 -> shl d (ln - ld) = d)
    by (intros; apply shl_neg; lia).
  destruct (Z.leb_spec (shl d (ln - ld)) (shl n (- (ln - ld)))) as [T | T]; cbv zeta.
  - (* the first guess is the exponent *)
    split; [intros Hk; rewrite Tpos, Tpos' in T by lia; exact T |].
    split; [intros Hk; rewrite Tneg, Tneg' in T by lia; exact T |].
    split.
    + intros Hk.
      pose proof (pow2_split (ln + 1) ld (ln - ld + 1) H0d Hk ltac:(lia)) as E.
      pose proof (pow2_pos (ln - ld + 1) Hk). nia.
    + intros Hk.
      pose proof (pow2_split ld (ln + 1) (- (ln - ld + 1)) ltac:(lia) ltac:(lia)
                    ltac:(lia)) as E.
      pose proof (pow2_pos (- (ln - ld + 1)) ltac:(lia)). nia.
  - (* one less *)
    replace (ln - ld - 1 + 1) with (ln - ld) by lia.
    split.
    + intros Hk.
      pose proof (pow2_split ln (ld + 1) (ln - ld - 1) ltac:(lia) Hk ltac:(lia)) as E.
      pose proof (pow2_pos (ln - ld - 1) Hk). nia.
    + split.
      * intros Hk.
        pose proof (pow2_split (ld + 1) ln (- (ln - ld - 1)) H0n ltac:(lia)
                      ltac:(lia)) as E.
        pose proof (pow2_pos (- (ln - ld - 1)) ltac:(lia)). nia.
      * split.
        -- intros Hk. rewrite Tpos, Tpos' in T by lia. exact T.
        -- intros Hk. rewrite Tneg, Tneg' in T by lia. exact T.
Qed.


(** Rounding to 53 bits cannot carry the quotient of a dividend below
    [2^53] over the next integer. *)
Lemma rounded_quotient n d P :
  0 < n -> 0 < d -> 2 <= P ->
  (2 * P <= d -> False) ->
  let q := (n * P) / d in
  let r := (n * P) mod d in
  q / P = n / d /\ (d <= 2 * r -> (q + 1) / P = n / d).
Proof.
  intros Hn Hd HP Hsmall q r.
  pose proof (Z.div_mod n d ltac:(lia)) as Hnd.
  pose proof (Z.mod_pos_bound n d Hd) as HR.
  pose proof (Z.div_mod (n * P) d ltac:(lia)) as Hqd.
  pose proof (Z.mod_pos_bound (n * P) d Hd) as Hr.
  fold q in Hqd. fold r in Hqd, Hr.
  set (Q := n / d) in *. set (R := n mod d) in *.
  assert (Hq : Q * P <= q < (Q + 1) * P) by nia.
  split.
  - symmetry. apply Z.div_unique with (r := q - Q * P); [left | ]; lia.
  - intros Hup.
    assert (Hlt : q + 1 < (Q + 1) * P).
    { destruct (Z.eq_dec (q + 1) ((Q + 1) * P)) as [E | E]; [| lia].
      exfalso. apply Hsmall. nia. }
    symmetry. apply Z.div_unique with (r := q + 1 - Q * P); [left |]; lia.
Qed.

Lemma nearest_truncates n d :
  0 < n < 2 ^ 53 -> 0 < d ->
  let '(m, e) := nearest_binary64 n d in
  shl m e < 2 ^ 1024
  /\ (if 0 <=? e then m * 2 ^ e else m / 2 ^ (- e)) = n / d.
Proof.
  intros [Hn Hn53] Hd. unfold nearest_binary64.
  destruct (ilog2_ratio_spec n d Hn Hd) as (Lp & Ln & Up & Un).
  set (k := ilog2_ratio n d) in *. cbv zeta in *.
  assert (H1024 : 2 ^ 53 + 1 < 2 ^ 1024).
  { assert (2 ^ 53 + 1 < 2 ^ 54) by (vm_compute; reflexivity).
    assert (2 ^ 54 <= 2 ^ 1024) by (apply Z.pow_le_mono_r; lia). lia. }
  destruct (Z.leb_spec 0 (k - 52)) as [He | He].
  - (* the quotient is at least 2^52: the divisor is 1 *)
    specialize (Lp ltac:(lia)).
    assert (Hk52 : 2 ^ 52 <= 2 ^ k) by (apply Z.pow_le_mono_r; lia).
    assert (Hd1 : d = 1).
    { change (2 ^ 53) with (2 * 2 ^ 52) in Hn53. nia. }
    subst d.
    assert (Hk : k = 52).
    { destruct (Z.eq_dec k 52) as [E | E]; [exact E | exfalso].
      assert (2 ^ 53 <= 2 ^ k) by (apply Z.pow_le_mono_r; lia). lia. }
    rewrite Hk. change (52 - 52) with 0. unfold shl. simpl (- 0). simpl (0 <=? 0).
    cbv iota. change (2 ^ 0) with 1. rewrite !Z.mul_1_r, Z.div_1_r, Z.mod_1_r.
    simpl. rewrite Z.div_1_r. split; lia.
  - (* the significand has a fractional part *)
    rewrite (shl_nonneg n (- (k - 52))) by lia. rewrite (shl_neg d (k - 52)) by lia.
    set (P := 2 ^ (- (k - 52))).
    assert (HP : 2 <= P).
    { unfold P. change 2 with (2 ^ 1) at 1. apply Z.pow_le_mono_r; lia. }
    assert (Hsmall : 2 * P <= d -> False).
    { intros H2P. destruct (Z_lt_le_dec k 0) as [Hk | Hk].
      - specialize (Ln Hk).
        pose proof (pow2_split (- (k - 52) + 1) 53 (- k) ltac:(lia) ltac:(lia)
                      ltac:(lia)) as E.
        pose proof (pow2_split (- (k - 52) + 1) (- (k - 52)) 1 ltac:(lia) ltac:(lia)
                      ltac:(lia)) as E1.
        fold P in E1. change (2 ^ 1) with 2 in E1.
        pose proof (pow2_pos (- k) ltac:(lia)). nia.
      - specialize (Lp Hk).
        pose proof (pow2_split 53 (- (k - 52) + 1) k ltac:(lia) Hk ltac:(lia)) as E.
        pose proof (pow2_split (- (k - 52) + 1) (- (k - 52)) 1 ltac:(lia) ltac:(lia)
                      ltac:(lia)) as E1.
        fold P in E1. change (2 ^ 1) with 2 in E1.
        pose proof (pow2_pos k Hk). nia. }
    destruct (rounded_quotient n d P Hn Hd HP Hsmall) as [Hq Hq1].
    cbv zeta in Hq, Hq1.
    assert (Hq53 : n * P / d < 2 ^ 53).
    { apply Z.div_lt_upper_bound; [exact Hd |].
      destruct (Z_lt_le_dec (k + 1) 0) as [Hk | Hk].
      - specialize (Un Hk).
        pose proof (pow2_split (- (k - 52)) 53 (- (k + 1)) ltac:(lia) ltac:(lia)
                      ltac:(lia)) as E. fold P in E.
        pose proof (pow2_pos (- (k + 1)) ltac:(lia)). nia.
      - specialize (Up Hk).
        pose proof (pow2_split 53 (k + 1) (- (k - 52)) Hk ltac:(lia) ltac:(lia)) as E.
        fold P in E. nia. }
    set (q := n * P / d) in *. set (r := (n * P) mod d) in *.
    assert (Hm : forall m, (m = q \/ (m = q + 1 /\ d <= 2 * r)) ->
                shl m (k - 52) < 2 ^ 1024
                /\ m / P = n / d).
    { intros m Hm. rewrite shl_neg by lia.
      destruct Hm as [-> | [-> Hr]]; (split; [lia |]); [exact Hq | exact (Hq1 Hr)]. }
    destruct (Z.ltb_spec (2 * r) d) as [H2r | H2r]; [apply Hm; left; reflexivity |].
    destruct (Z.ltb_spec d (2 * r)) as [H2r' | H2r'];
      [apply Hm; right; split; [reflexivity | lia] |].
    destruct (Z.even q); apply Hm; [left; reflexivity | right; split; [reflexivity | lia]].
Qed.


Lemma int_truediv_small a b :
  Z.abs a < 2 ^ 53 -> b <> 0 -> int_truediv a b = inr (a ÷ b).
Proof.
  intros Ha Hb. unfold int_truediv.
  destruct (Z.eqb_spec b 0) as [| _]; [contradiction |].
  destruct (Z.eqb_spec a 0) as [-> | Ha0]; [rewrite Z.quot_0_l by exact Hb; reflexivity |].
  pose proof (nearest_truncates (Z.abs a) (Z.abs b) ltac:(lia) ltac:(lia)) as H.
  destruct (nearest_binary64 (Z.abs a) (Z.abs b)) as [m e].
  destruct H as [Hlt Ht].
  destruct (Z.leb_spec (2 ^ 1024) (shl m e)) as [Hge | _]; [lia |].
  rewrite Ht, (Z.quot_div a b Hb). reflexivity.
Qed.

(** X7: when the dividend is below [2^53] in magnitude, CHOP sets the
    destination register to the quotient truncated toward zero, whatever
    the divisor is, except zero; a zero divisor raises ZeroDivisionError and
    changes nothing. *)
Theorem chop_truncates_small_dividend label_map x y a b m :
  registers m !! x = Some a ->
  registers m !! y = Some b ->
  Z.abs a < 2 ^ 53 ->
  exec label_map (DIV x y) m
  = if b =? 0 then Raise ZeroDivisionError m
    else Continue (set_register x (a ÷ b) m).
Proof.
  intros Hx Hy Ha. simpl. unfold with_reg. rewrite Hx, Hy.
  destruct (Z.eqb_spec b 0) as [-> | Hb].
  - reflexivity.
  - rewrite (int_truediv_small a b Ha Hb). reflexivity.
Qed.

Lemma chop_truncates_small_dividend_witness :
  exec ∅ (DIV "P" "Q") (Machine 0 {["P" := -7; "Q" := 2]} ∅ [] [])
  = Continue (Machine 0 {["P" := -3; "Q" := 2]} ∅ [] []).
Proof.
  rewrite (chop_truncates_small_dividend ∅ "P" "Q" (-7) 2).
  - vm_compute. reflexivity.
  - reflexivity.
  - reflexivity.
  - vm_compute. reflexivity.
Defined.

End SmallDivision.

(* ===================================================================== *)
(** * Properties of the lowering to C *)
Section LoweringProperties.
Import Lower.

Lemma append_semicolon_inj s t : s +:+ ";" = t +:+ ";" -> s = t.
Proof.
  revert t. induction s as [| c s IH]; intros [| d t] H;
    rewrite ?append_String, ?append_Empty in H.
  - reflexivity.
  - injection H as _ H. destruct t; discriminate H.
  - injection H as _ H. destruct s; discriminate H.
  - injection H as -> H. f_equal. apply IH. exact H.
Qed.

Lemma declaration_inj a b :
  "    int " +:+ a +:+ ";" = "    int " +:+ b +:+ ";" -> a = b.
Proof.
  intros H. apply (inj (append "    int ")) in H.
  apply append_semicolon_inj. exact H.
Qed.

Lemma seen_spec name seen :
  existsb (String.eqb name) seen = true <-> In name seen.
Proof.
  rewrite existsb_exists. split.
  - intros (x & Hin & Heq). apply String.eqb_eq in Heq. subst. exact Hin.
  - intros Hin. exists name. split; [exact Hin | apply String.eqb_refl].
Qed.

Lemma declarations_spec data : forall seen line,
  In line (declarations data seen)
  <-> exists name, line = "    int " +:+ name +:+ ";"
                   /\ (exists v, In (REGISTER name v) data) /\ ~ In name seen.
Proof.
  induction data as [| op data IH]; intros seen line.
  - simpl. split; [tauto | intros (_ & _ & [_ []] & _)].
  - assert (Hskip : (forall name v, op <> REGISTER name v) ->
      (In line (declarations data seen)
       <-> exists name, line = "    int " +:+ name +:+ ";"
             /\ (exists v, In (REGISTER name v) (op :: data)) /\ ~ In name seen)).
    { intros Hop. rewrite IH. split; intros (name & Hl & [v Hv] & Hs);
        exists name; (split; [exact Hl |]); (split; [| exact Hs]); exists v.
      - right. exact Hv.
      - destruct Hv as [Hv | Hv]; [exfalso; exact (Hop _ _ Hv) | exact Hv]. }
    destruct op as [r v0 | | | | | | | | | | | | | | | | | | | |];
      try (apply Hskip; intros; discriminate).
    clear Hskip. cbn [declarations].
    destruct (existsb (String.eqb r) seen) eqn:E; cbn [negb].
    + apply seen_spec in E. rewrite IH. split; intros (name & Hl & [v Hv] & Hs);
        exists name; (split; [exact Hl |]); (split; [| exact Hs]); exists v.
      * right. exact Hv.
      * destruct Hv as [Hv | Hv]; [| exact Hv].
        injection Hv as -> _. contradiction.
    + assert (Hr : ~ In r seen).
      { intros Hin. apply seen_spec in Hin. congruence. }
      simpl. rewrite IH. split.
      * intros [<- | (name & Hl & [v Hv] & Hs)].
        -- exists r. split; [reflexivity |]. split; [| exact Hr].
           exists v0. left. reflexivity.
        -- exists name. split; [exact Hl |]. split; [exists v; right; exact Hv |].
           intros Hin. apply Hs. apply in_or_app. left. exact Hin.
      * intros (name & Hl & [v Hv] & Hs).
        destruct (String.eqb r name) eqn:En.
        -- apply String.eqb_eq in En. subst. left. reflexivity.
        -- apply String.eqb_neq in En. right. exists name. split; [exact Hl |].
           destruct Hv as [Hv | Hv]; [injection Hv as -> _; contradiction |].
           split; [exists v; exact Hv |].
           intros Hin. apply in_app_or in Hin as [Hin | [Hin | []]];
             [exact (Hs Hin) | exact (En Hin)].
Qed.

Lemma declarations_NoDup data : forall seen, List.NoDup (declarations data seen).
Proof.
  induction data as [| op data IH]; intros seen; [constructor |].
  destruct op; try apply IH. cbn [declarations].
  destruct (existsb (String.eqb name) seen); cbn [negb]; [apply IH |].
  constructor; [| apply IH].
  intros Hin. apply declarations_spec in Hin as (n & Hl & _ & Hs).
  apply declaration_inj in Hl. subst. apply Hs, in_or_app. right. left. reflexivity.
Qed.

(** X8: [to_c] declares a C variable for exactly the registers that some
    REGISTER instruction of the list names, once each, however often a
    register is declared again; a register that only other instructions use
    gets no declaration. *)
Theorem registers_declared_once data :
  List.NoDup (declarations data [])
  /\ forall name,
       In ("    int " +:+ name +:+ ";") (declarations data [])
       <-> exists v, In (REGISTER name v) data.
Proof.
  split; [apply declarations_NoDup |].
  intros name. rewrite declarations_spec. split.
  - intros (n & Hl & Hv & _). apply declaration_inj in Hl. subst. exact Hv.
  - intros Hv. exists name. split; [reflexivity |]. split; [exact Hv | intros []].
Qed.

Lemma c_label_get l n :
  String.get n (c_label l)
  = match String.get n l with
    | Some c => Some (if Ascii.eqb c "-" then "_"%char else c)
    | None => None
    end.
Proof.
  revert n. induction l as [| c l IH]; intros n; [reflexivity |].
  destruct n as [| n]; [reflexivity |]. simpl. apply IH.
Qed.

(** X9: [c_label] keeps the length of a label, leaves no hyphen in it, and
    gives different C labels to different labels that hold no underscore
    (labels are made of register names joined by hyphens, and a register
    name holds letters and digits only). *)
Theorem c_label_is_injective l1 l2 :
  (forall n, String.get n l1 <> Some "_"%char) ->
  (forall n, String.get n l2 <> Some "_"%char) ->
  String.length (c_label l1) = String.length l1
  /\ (forall n, String.get n (c_label l1) <> Some "-"%char)
  /\ (c_label l1 = c_label l2 -> l1 = l2).
Proof.
  intros H1 H2. split; [| split].
  - clear. induction l1 as [| c l IH]; simpl; congruence.
  - intros n. rewrite c_label_get. destruct (String.get n l1) as [c |]; [| discriminate].
    destruct (Ascii.eqb c "-") eqn:E; [discriminate |].
    apply Ascii.eqb_neq in E. congruence.
  - revert l2 H1 H2. induction l1 as [| c l IH]; intros [| d k] H1 H2 H;
      try discriminate; [reflexivity |].
    simpl in H. injection H as Hc Hl.
    assert (Hcd : c = d).
    { pose proof (H1 0%nat) as Hc1. pose proof (H2 0%nat) as Hd1. simpl in *.
      destruct (Ascii.eqb c "-") eqn:Ec, (Ascii.eqb d "-") eqn:Ed.
      - apply Ascii.eqb_eq in Ec, Ed. congruence.
      - subst d. congruence.
      - subst c. congruence.
      - exact Hc. }
    f_equal; [exact Hcd |]. apply IH; [| | exact Hl].
    + intros n. exact (H1 (S n)).
    + intros n. exact (H2 (S n)).
Qed.

Lemma c_label_is_injective_witness :
  c_label "A-B" <> c_label "A-C".
Proof.
  intros H.
  assert (G : "A-B" = "A-C").
  { apply (c_label_is_injective "A-B" "A-C"); [| | exact H];
      intros [| [| [| [| n]]]]; simpl; discriminate. }
  discriminate G.
Defined.

End LoweringProperties.

(* ===================================================================== *)
(** * Properties of the lexer *)
Section LexerProperties.
Import Lexer.

Lemma int_of_digits_app d : forall s acc,
  int_of_digits (d +:+ s) acc = int_of_digits s (int_of_digits d acc).
Proof.
  induction d as [| c d IH]; intros s acc; [reflexivity |].
  rewrite append_String. simpl. apply IH.
Qed.

Lemma pretty_N_char_digit x :
  (x < 10)%N ->
  is_digit (pretty_N_char x) = true
  /\ Z.of_N (N_of_ascii (pretty_N_char x)) - 48 = Z.of_N x.
Proof.
  intros H.
  destruct x as [| [[[[| |] | [| |] |] | [[| |] | [| |] |] |] | [[[| |] | [| |] |] | [[| |] | [| |] |] |] |]];
    try (exfalso; lia); split; reflexivity.
Qed.

(** The digits [pretty_N_go] puts before its accumulator. *)
Lemma pretty_N_go_digits x : forall s,
  exists d, pretty_N_go x s = d +:+ s
            /\ (forall s', span is_digit (d +:+ s') = let '(a, b) := span is_digit s' in (d +:+ a, b))
            /\ (forall acc, exists k, int_of_digits d acc = acc * 10 ^ k + Z.of_N x /\ 0 <= k)
            /\ ((0 < x)%N -> d <> EmptyString).
Proof.
  induction (N.lt_wf_0 x) as [x _ IH]. intros s.
  destruct (decide (x = 0%N)) as [-> | Hx].
  - exists EmptyString. rewrite pretty_N_go_0. split; [reflexivity |]. split.
    + intros s'. rewrite append_Empty. destruct (span is_digit s').
      reflexivity.
    + split; [| intros H; lia]. intros acc. exists 0. simpl. lia.
  - rewrite pretty_N_go_step by lia.
    assert (Hlt : (x `div` 10 < x)%N) by (apply N.div_lt; lia).
    destruct (IH _ Hlt (String (pretty_N_char (x `mod` 10)) s))
      as (d & Hd & Hspan & Hint & _).
    destruct (pretty_N_char_digit (x `mod` 10)) as [Hc Hv];
      [apply N.mod_lt; lia |].
    exists (d +:+ String (pretty_N_char (x `mod` 10)) EmptyString).
    assert (Happ : forall t, (d +:+ String (pretty_N_char (x `mod` 10)) EmptyString) +:+ t
                             = d +:+ String (pretty_N_char (x `mod` 10)) t).
    { intros t. clear. induction d as [| c d IHd]; [reflexivity |].
      rewrite !append_String. f_equal. exact IHd. }
    split; [rewrite Happ; exact Hd |]. split; [| split].
    + intros s'. rewrite Happ, Hspan. simpl. rewrite Hc.
      destruct (span is_digit s') as [a b]. rewrite Happ. reflexivity.
    + intros acc. destruct (Hint acc) as (k & Hk & Hk0). exists (k + 1).
      rewrite int_of_digits_app, Hk. simpl. rewrite Hv.
      split; [| lia]. rewrite Z.pow_add_r by lia.
      pose proof (N.div_mod x 10 ltac:(lia)) as Hdm.
      replace (Z.of_N x) with (10 * Z.of_N (x `div` 10) + Z.of_N (x `mod` 10)) by lia.
      lia.
    + intros _ H. destruct d; discriminate H.
Qed.

(** The decimal numeral of a natural number. *)
Lemma pretty_digits (n : Z) :
  0 <= n ->
  exists c d, pretty n = String c d /\ is_digit c = true
              /\ (forall s', span is_digit (String c d +:+ s')
                             = let '(a, b) := span is_digit s' in
                               (String c d +:+ a, b))
              /\ int_of_digits (String c d) 0 = n.
Proof.
  intros Hn. destruct n as [| p |]; [| | lia].
  - exists "0"%char, EmptyString. split; [reflexivity |]. split; [reflexivity |].
    split; [| reflexivity]. intros s'. rewrite append_String, append_Empty.
    simpl. destruct (span is_digit s'). reflexivity.
  - change (pretty (Z.pos p)) with (pretty (N.pos p)).
    unfold pretty, pretty_N. destruct (decide (N.pos p = 0%N)); [discriminate |].
    destruct (pretty_N_go_digits (N.pos p) EmptyString) as (d & Hd & Hspan & Hint & Hne).
    assert (Hd' : pretty_N_go (N.pos p) EmptyString = d).
    { rewrite Hd. clear. induction d as [| c d IH]; [reflexivity |].
      rewrite append_String. f_equal. exact IH. }
    destruct d as [| c d]; [exfalso; apply Hne; [lia | reflexivity] |].
    exists c, d. split; [exact Hd' |].
    pose proof (Hspan EmptyString) as H0. rewrite append_String in H0.
    simpl in H0. split.
    + destruct (is_digit c); [reflexivity |]. discriminate H0.
    + split; [exact Hspan |]. destruct (Hint 0) as (k & Hk & _).
      rewrite Hk. simpl. reflexivity.
Qed.


(** X10: the lexer reads the decimal numeral of a natural number, followed
    by the end of the text or by a character that is no digit, back as a
    NUMBER token holding that number when the numeral has at most 4300
    digits, printing nothing and leaving the line number as it is; on a
    longer numeral the call raises the ValueError of [int], and the text
    has no token sequence: [tokenize_raises] reports the exception. *)
Theorem number_token_round_trip n rest line :
  0 <= n ->
  match rest with
  | EmptyString => True
  | String c _ => is_digit c = false
  end ->
  ((String.length (pretty n) <= max_str_digits)%nat ->
   token (Lex (pretty n +:+ rest) line)
   = ([], Some (Token T_NUMBER (TokInt n) line), Lex rest line))
  /\ ((max_str_digits < String.length (pretty n))%nat ->
      (exists msg,
         scan false (pretty n +:+ rest) line []
         = Failed [] (ValueError msg) (Lex rest line))
      /\ exists msg, tokenize_raises (pretty n +:+ rest) = Some (ValueError msg)).
Proof.
  intros Hn Hrest.
  destruct (pretty_digits n Hn) as (c & d & Hp & Hc & Hspan & Hint).
  assert (Hs : span is_digit (String c d +:+ rest) = (String c d, rest)).
  { rewrite Hspan.
    replace (span is_digit rest) with (EmptyString, rest).
    - rewrite append_empty_r. reflexivity.
    - destruct rest as [| c' r]; [reflexivity |]. simpl. rewrite Hrest. reflexivity. }
  assert (Hscan : forall l0,
            scan false (pretty n +:+ rest) l0 []
            = match int_of_text (pretty n) with
              | inr k => Found [] (Token T_NUMBER (TokInt k) l0) (Lex rest l0)
              | inl e => Failed [] e (Lex rest l0)
              end).
  { intros l0. rewrite Hp. rewrite append_String. cbn [scan andb].
    unfold master. rewrite Hc. rewrite <- append_String, Hs. reflexivity. }
  split.
  - intros Hlen. unfold token. cbn [lexdata lexlineno]. rewrite Hscan.
    unfold int_of_text. apply Nat.leb_le in Hlen. rewrite Hlen.
    rewrite Hp, Hint. reflexivity.
  - intros Hlen.
    assert (E : exists msg, int_of_text (pretty n) = inl (ValueError msg)).
    { unfold int_of_text. apply Nat.leb_gt in Hlen. rewrite Hlen.
      eexists. reflexivity. }
    destruct E as [msg E]. split; exists msg.
    + rewrite Hscan, E. reflexivity.
    + unfold tokenize_raises. cbn [raises_from lexdata lexlineno].
      rewrite Hscan, E. reflexivity.
Qed.

Lemma number_token_round_trip_witness :
  token (Lex "2024 P" 7) = ([], Some (Token T_NUMBER (TokInt 2024) 7), Lex " P" 7).
Proof.
  apply (number_token_round_trip 2024 " P" 7); [lia | reflexivity |].
  apply Nat.leb_le. vm_compute. reflexivity.
Defined.

(** Line numbers: a token carries the line number at the call, and only
    NEWLINE moves it, by one. *)
Lemma scan_lineno s : forall b line msgs out t l',
  scan b s line msgs = Found out t l' ->
  lineno t = line
  /\ lexlineno l' = line + match type t with T_NEWLINE => 1 | _ => 0 end.
Proof.
  induction s as [| c s IH]; intros b line msgs out t l' H; [discriminate |].
  cbn [scan] in H.
  destruct (b && negb (is_newline c)); [exact (IH _ _ _ _ _ _ H) |].
  destruct (master c s) as [ty w r | |];
    [| exact (IH _ _ _ _ _ _ H) | exact (IH _ _ _ _ _ _ H)].
  destruct ty; try destruct (int_of_text w); try discriminate H;
    injection H as _ <- <-; simpl; split; lia.
Qed.

Lemma tokens_from_lineno fuel : forall l toks last i msgs t,
  tokens_from fuel l = (toks, last) ->
  toks !! i = Some (msgs, t) ->
  lineno t = lexlineno l + line_breaks (take i toks).
Proof.
  induction fuel as [| fuel IH]; intros l toks last i msgs t H Hi.
  - injection H as <- _. discriminate Hi.
  - cbn [tokens_from] in H.
    destruct (token l) as [[out [t0 |]] l'] eqn:E.
    + destruct (tokens_from fuel l') as [ts last'] eqn:F.
      injection H as <- _.
      apply token_found in E.
      destruct (scan_lineno _ _ _ _ _ _ _ E) as [H0 H1].
      destruct i as [| i].
      * injection Hi as _ <-. unfold line_breaks. simpl. lia.
      * simpl in Hi. rewrite (IH l' ts last' i msgs t F Hi), H1.
        unfold line_breaks. cbn [take List.filter snd].
        destruct (type t0); cbn [length]; lia.
    + injection H as <- _. discriminate Hi.
Qed.

(** X11: the line number of every token of a text is one more than the
    number of end-of-line tokens before it: comments, spaces and illegal
    characters never move the line number. *)
Theorem token_line_numbers data i msgs t :
  fst (tokenize data) !! i = Some (msgs, t) ->
  lineno t = 1 + line_breaks (take i (fst (tokenize data))).
Proof.
  intros Hi. unfold tokenize in *.
  destruct (tokens_from (S (String.length data)) (Lex data 1)) as [toks last] eqn:E.
  exact (tokens_from_lineno _ _ _ _ _ _ _ E Hi).
Qed.

Lemma token_line_numbers_witness :
  exists msgs t,
    fst (tokenize ("# one" +:+ nl +:+ nl +:+ "P")) !! 2%nat = Some (msgs, t)
    /\ lineno t = 3.
Proof.
  eexists _, _. split; [vm_compute; reflexivity |].
  refine (token_line_numbers ("# one" +:+ nl +:+ nl +:+ "P") 2 [] _ _).
  vm_compute. reflexivity.
Defined.

Lemma scan_comment s : forall rest line msgs,
  (forall n, String.get n s <> Some "010"%char) ->
  scan true (s +:+ rest) line msgs = scan true rest line msgs.
Proof.
  induction s as [| c s IH]; intros rest line msgs Hs; [reflexivity |].
  rewrite append_String. cbn [scan andb].
  assert (Hc : is_newline c = false).
  { unfold is_newline. apply Ascii.eqb_neq. intros ->. exact (Hs 0%nat eq_refl). }
  rewrite Hc. cbn [negb]. apply IH. intros n. exact (Hs (S n)).
Qed.

(** X12: a comment runs from [#] to the end of its line and gives no token
    and no message: when the text of the comment holds no line feed and is
    followed by a line feed or by the end of the text, the lexer answers as
    if the comment were not there. *)
Theorem comment_is_skipped s rest line :
  (forall n, String.get n s <> Some "010"%char) ->
  match rest with
  | EmptyString => True
  | String c _ => c = "010"%char
  end ->
  token (Lex ("#" +:+ s +:+ rest) line) = token (Lex rest line).
Proof.
  intros Hs Hrest. unfold token. cbn [lexdata lexlineno].
  rewrite append_String, append_Empty. cbn [scan andb].
  change (master "#" (s +:+ rest)) with MComment. cbv iota.
  rewrite scan_comment by exact Hs.
  destruct rest as [| c r]; [reflexivity |]. subst c. reflexivity.
Qed.

Lemma comment_is_skipped_witness :
  token (Lex ("# I have a P" +:+ nl +:+ "P") 4)
  = ([], Some (Token T_NEWLINE (TokStr nl) 4), Lex "P" 5).
Proof.
  change ("# I have a P" +:+ nl +:+ "P") with ("#" +:+ " I have a P" +:+ nl +:+ "P").
  rewrite (comment_is_skipped " I have a P" (nl +:+ "P") 4).
  - reflexivity.
  - intros n. do 13 (destruct n as [| n]; [discriminate |]). discriminate.
  - reflexivity.
Defined.

End LexerProperties.

(* ===================================================================== *)
(** * Command and label lines *)
Section Lines.
Import Lexer Grammar LALR Driver Control Parser.
Local Open Scope nat_scope.

(** [at_line] is the driver after it has asked for the first token of a
    line: at the start of the text that is the first iteration of
    [parser.parse]. *)
Lemma at_line_after_fetch w ec toks last st :
  fetch ppap
    (Config (hd 0 (stack_states w)) (stack_states w) (stack_symbols w) None []
            ec (map (fun e => (fst e, token_sym (snd e))) toks) last st)
  = at_line w ec toks last (print_all (heard toks last) st).
Proof. destruct toks as [| [msgs t] rest]; reflexivity. Qed.

Lemma start_is_first_line n toks last st :
  advance parser productions ppap (S n)
    (start ppap (map (fun e => (fst e, token_sym (snd e))) toks) last st)
  = advance parser productions ppap (S n)
      (at_line FirstLine 0 toks last (print_all (heard toks last) st)).
Proof. destruct toks as [| [msgs t] rest]; reflexivity. Qed.



(** X14: a label line.  Where a line starts (at the start of the text, or
    after other lines, whether [program] is a list or, after a syntax error,
    [None]) and whatever the error count, the line [<a>-<b>], followed by
    the end of the text or by a token that can start a line, brings the
    driver to the start of the next line; each part of the name that is no
    declared register gets the undeclared-register warning.  When there is
    a list (or at the start of the text) the instruction LABEL with the name
    [a-b] is its last element, and the name is entered in [label_names]
    unless it is in [register_names], in which case the already-exists
    warning is printed; [label_names] itself is never consulted.  After a
    syntax error nothing is appended and the tables are unchanged. *)
Theorem label_line_is_kept c1 s1 c2 s2 line w ec toks last st :
  starts_line (first_of toks) ->
  let a := String c1 s1 in
  let b := String c2 s2 in
  let name := a +:+ "-" +:+ b in
  let st1 := print_all (heard toks last)
               (PState (register_names st) (label_names st) (error st)
                  ((stderr st ++ undeclared_warning a line st)
                   ++ undeclared_warning b line st)) in
  advance parser productions ppap 11
    (at_line w ec (quiet (label_line a b line) ++ toks) last st)
  = Next
      (at_line (LaterLine (with_line w (LABEL name)))
         (Nat.iter 4 (fun e => e - 1) ec) toks last
         (match with_line w (LABEL name) with
          | Some _ =>
              PState (register_names st1)
                (label_names st1
                 ++ if mem name (register_names st1) then [] else [name])
                (error st1)
                (stderr st1
                 ++ if mem name (register_names st1)
                    then [quoted name +:+ " label already exists"] else [])
          | None => st1
          end)).
Proof.
  intros Hnext a b name st1. subst a b name st1.
  destruct toks as [| [msgs [ty v ln]] rest];
    [| simpl in Hnext; destruct ty; try (exfalso; intuition discriminate)];
    destruct w as [| [l |]]; reflexivity.
Qed.

Lemma label_line_is_kept_witness :
  advance parser productions ppap 11
    (at_line (LaterLine (Some [])) 0 (quiet (label_line "P" "P" 1)) []
       (PState ["P"] ["P-P"] false []))
  = Next (at_line (LaterLine (Some [LABEL "P-P"])) 0 [] []
            (PState ["P"] ["P-P"; "P-P"] false [])).
Proof.
  exact (label_line_is_kept "P" EmptyString "P" EmptyString 1
           (LaterLine (Some [])) 0 [] []
           (PState ["P"] ["P-P"] false []) I).
Defined.



End Lines.

(* ===================================================================== *)
(** * The table of declared registers *)
Section RegisterTable.
Import Lexer Grammar LALR Driver Control Parser.
Local Open Scope nat_scope.

Lemma grows_same st st' : register_names st' = register_names st -> grows st st'.
Proof.
  intros H. split; [rewrite H; auto | exists []; rewrite H, app_nil_r; reflexivity].
Qed.

Lemma grows_trans st1 st2 st3 : grows st1 st2 -> grows st2 st3 -> grows st1 st3.
Proof.
  intros [N1 [l1 H1]] [N2 [l2 H2]]. split; [auto |].
  exists (l1 ++ l2). rewrite H2, H1, app_assoc. reflexivity.
Qed.

Lemma mem_spec name names : mem name names = true <-> In name names.
Proof.
  unfold mem. rewrite existsb_exists. split.
  - intros (x & Hin & Heq). apply String.eqb_eq in Heq. subst. exact Hin.
  - intros Hin. exists name. split; [exact Hin | apply String.eqb_refl].
Qed.

Lemma add_program_grows l program st : grows st (snd (add_program l program st)).
Proof.
  unfold add_program. destruct program; cbn [snd]; try (apply grows_same; reflexivity).
  cbn [register_names]. destruct (mem name (register_names st)) eqn:E.
  - apply grows_same. simpl. apply app_nil_r.
  - split; [| eexists; reflexivity]. simpl. intros Hnd.
    assert (H : List.NoDup (rev (register_names st ++ [name]))).
    { rewrite rev_app_distr. simpl. constructor; [| apply NoDup_rev; exact Hnd].
      intros Hin. apply in_rev in Hin. apply mem_spec in Hin. congruence. }
    apply NoDup_rev in H. rewrite rev_involutive in H. exact H.
Qed.

Lemma call_grows f p st : grows st (snd (call f p st)).
Proof.
  destruct f; simpl; try (apply grows_same; reflexivity).
  - unfold p_program_fn. destruct (Nat.eqb (len p) 3).
    + destruct (arg p 1); simpl; try (apply grows_same; reflexivity).
      destruct (arg p 2); simpl; try (apply grows_same; reflexivity).
      exact (add_program_grows l i st).
    + destruct (arg p 1); simpl; try (apply grows_same; reflexivity).
      exact (add_program_grows [] i st).
  - unfold p_program_error_fn. destruct (arg p 1); apply grows_same; reflexivity.
  - unfold p_line_fn. destruct (Nat.eqb (len p) 5); [apply grows_same; reflexivity |].
    destruct (Nat.eqb (len p) 7); apply grows_same; reflexivity.
  - unfold p_register_declaration_fn.
    destruct (Nat.eqb (len p) 8); apply grows_same; reflexivity.
  - unfold p_number_fn. destruct (arg p 1) as [| [| [[] [] [] [] [] [] [] []] ?] | | | | |];
      apply grows_same; reflexivity.
  - unfold p_label_fn. destruct (_ && _)%bool; apply grows_same; reflexivity.
  - unfold two_registers. destruct (_ && _)%bool; apply grows_same; reflexivity.
  - unfold two_registers. destruct (_ && _)%bool; apply grows_same; reflexivity.
  - unfold two_registers. destruct (_ && _)%bool; apply grows_same; reflexivity.
  - unfold two_registers. destruct (_ && _)%bool; apply grows_same; reflexivity.
  - unfold two_registers. destruct (_ && _)%bool; apply grows_same; reflexivity.
  - unfold two_registers. destruct (_ && _)%bool; apply grows_same; reflexivity.
  - unfold two_registers. destruct (_ && _)%bool; apply grows_same; reflexivity.
  - unfold one_register. destruct (truthy _); apply grows_same; reflexivity.
  - unfold p_put_fn. destruct (truthy _); apply grows_same; reflexivity.
  - unfold p_registers_fn. destruct (Nat.eqb _ _);
      [destruct (_ && _)%bool | destruct (truthy _)]; apply grows_same; reflexivity.
  - unfold one_register. destruct (truthy _); apply grows_same; reflexivity.
  - unfold four_shapes.
    repeat match goal with
           | |- context [if ?b then _ else _] => destruct b
           end; apply grows_same; reflexivity.
  - unfold four_shapes.
    repeat match goal with
           | |- context [if ?b then _ else _] => destruct b
           end; apply grows_same; reflexivity.
  - unfold p_jump_fn. destruct (truthy _); apply grows_same; reflexivity.
Qed.

Lemma p_error_grows tok st : grows st (p_error tok st).
Proof. destruct tok; apply grows_same; reflexivity. Qed.

Lemma print_all_grows lines st : grows st (print_all lines st).
Proof. destruct lines; apply grows_same; reflexivity. Qed.

Abbreviation qconfig := (config pyval pstate).

Lemma fetch_grows (c : qconfig) : grows (user c) (user (fetch ppap c)).
Proof.
  unfold fetch. destruct (lookahead c); [apply grows_same; reflexivity |].
  destruct (lookaheadstack c); [| apply grows_same; reflexivity].
  destruct (input c) as [| [m t] r]; simpl; apply print_all_grows.
Qed.

Lemma perform_grows a y (c : qconfig) :
  match perform parser productions ppap a y c with
  | Next c' => grows (user c) (user c')
  | Return _ u => grows (user c) u
  | Crash => True
  end.
Proof.
  destruct a as [t | p |]; simpl.
  - destruct y; [apply grows_same; reflexivity | exact I].
  - unfold reduce. destruct (nth_error productions p) as [pr |]; [| exact I].
    pose proof (call_grows (callable pr)
                  (rev (firstn (length (rhs pr)) (symstack c))) (user c)) as H.
    simpl. destruct (call _ _ _) as [v u]. simpl in H.
    destruct (skipn _ _); [exact I |]. destruct (goto _ _ _); [exact H | exact I].
  - destruct (symstack c); [exact I | apply grows_same; reflexivity].
Qed.

Lemma recover_grows y (c : qconfig) :
  match recover ppap y c with
  | Next c' => grows (user c) (user c')
  | Return _ u => grows (user c) u
  | Crash => True
  end.
Proof.
  unfold recover.
  assert (Hu : grows (user c)
                 (if Nat.eqb (errorcount c) 0
                  then error_fn ppap (match stype y with
                                      | T T_end => None
                                      | _ => Some y
                                      end) (user c)
                  else user c)).
  { destruct (Nat.eqb _ _); [apply p_error_grows | apply grows_same; reflexivity]. }
  destruct (_ && _)%bool; [exact Hu |].
  destruct (match stype y with T T_end => true | _ => false end); [exact Hu |].
  destruct (negb _).
  - destruct (symstack c) as [| top ?]; [exact I |].
    destruct (stype top) as [[] |]; exact Hu.
  - destruct (symstack c); [exact I |].
    destruct (statestack c) as [| ? [| ? ?]]; try exact I. exact Hu.
Qed.

Lemma step_grows (c : qconfig) :
  match Driver.step parser productions ppap c with
  | Next c' => grows (user c) (user c')
  | Return _ u => grows (user c) u
  | Crash => True
  end.
Proof.
  unfold Driver.step. destruct (defaulted parser (state c)); [apply perform_grows |].
  pose proof (fetch_grows c) as Hf.
  destruct (lookahead (fetch ppap c)) as [y |]; [| exact I].
  destruct (lookup_action _ _ _) as [a |].
  - pose proof (perform_grows a (Some y) (fetch ppap c)) as H.
    destruct (perform _ _ _ _ _ _); try exact I; eapply grows_trans; eauto.
  - pose proof (recover_grows y (fetch ppap c)) as H.
    destruct (recover _ _ _); try exact I; eapply grows_trans; eauto.
Qed.

Lemma advance_grows n : forall (c : qconfig),
  match advance parser productions ppap n c with
  | Next c' => grows (user c) (user c')
  | Return _ u => grows (user c) u
  | Crash => True
  end.
Proof.
  induction n as [| n IH]; intros c; simpl; [apply grows_same; reflexivity |].
  pose proof (step_grows c) as H.
  destruct (Driver.step parser productions ppap c) as [c1 | |]; try exact H.
  specialize (IH c1). destruct (advance parser productions ppap n c1); try exact I;
    eapply grows_trans; eauto.
Qed.

Lemma start_user data : user (start_of data) = PState [] [] false [].
Proof. unfold start_of. destruct (source data). reflexivity. Qed.

(** X16: whatever the source text, the table of declared registers never
    holds a name twice, at any moment of the parse and when [parse] returns,
    however often a register is declared; and a name entered in the table
    stays in it to the end of the parse. *)
Theorem register_table_has_no_duplicate data :
  (forall c, reached data c ->
     List.NoDup (register_names (user c))
     /\ forall v st name, parse data = Some (v, st) ->
                          In name (register_names (user c)) ->
                          In name (register_names st))
  /\ (forall v st, parse data = Some (v, st) -> List.NoDup (register_names st)).
Proof.
  assert (Hend : forall v st, parse data = Some (v, st) ->
            exists j res, advance parser productions ppap j (start_of data)
                          = Return res st).
  { intros v st Hp.
    destruct (yacc_parse_returns data (parse_some_no_raise data v st Hp))
      as (j & res & st' & Ha & Hy).
    unfold parse in Hp. rewrite Hy in Hp.
    exists j, res. destruct (error st'); injection Hp as _ <-; exact Ha. }
  split.
  - intros c [n Hn]. split.
    + pose proof (advance_grows n (start_of data)) as H. rewrite Hn in H.
      apply H. rewrite start_user. constructor.
    + intros v st name Hp Hin. destruct (Hend v st Hp) as (j & res & Hj).
      destruct (advance_return_after n j _ c res st Hn Hj) as [k Hk].
      pose proof (advance_grows k c) as H. rewrite Hk in H.
      destruct H as [_ [more Hm]]. rewrite Hm. apply in_or_app. left. exact Hin.
  - intros v st Hp. destruct (Hend v st Hp) as (j & res & Hj).
    pose proof (advance_grows j (start_of data)) as H. rewrite Hj in H.
    apply H. rewrite start_user. constructor.
Qed.

Lemma register_table_has_no_duplicate_witness :
  exists v st,
    parse ("I have a P" +:+ nl +:+ "I have no P" +:+ nl) = Some (v, st)
    /\ List.NoDup (register_names st).
Proof.
  eexists _, _. split; [vm_compute; reflexivity |].
  refine (proj2 (register_table_has_no_duplicate
                   ("I have a P" +:+ nl +:+ "I have no P" +:+ nl)) _ _ _).
  vm_compute. reflexivity.
Defined.

Lemma scan_failed s : forall b line msgs out e l',
  scan b s line msgs = Failed out e l' -> exists msg, e = ValueError msg.
Proof.
  induction s as [| c s IH]; intros b line msgs out e l' H; [discriminate |].
  cbn [scan] in H.
  destruct (b && negb (is_newline c))%bool; [exact (IH _ _ _ _ _ _ H) |].
  destruct (master c s) as [ty w r | |];
    [| exact (IH _ _ _ _ _ _ H) | exact (IH _ _ _ _ _ _ H)].
  destruct ty; try discriminate H.
  unfold int_of_text in H. destruct (String.length w <=? max_str_digits);
    [discriminate H |]. injection H as _ <- _. eexists. reflexivity.
Qed.

Lemma raises_from_error fuel : forall l e,
  raises_from fuel l = Some e -> exists msg, e = ValueError msg.
Proof.
  induction fuel as [| fuel IH]; intros l e H; [discriminate |].
  cbn [raises_from] in H.
  destruct (scan false (lexdata l) (lexlineno l) []) as [m t l' | m l' | m e' l'] eqn:E.
  - exact (IH l' e H).
  - discriminate.
  - injection H as <-. exact (scan_failed _ _ _ _ _ _ _ E).
Qed.

(** X17: [parse] returns for every source text that the lexer reads without
    raising: the loop of the driver, error recovery included, ends after at
    most 21 iterations per token of the text and 42 more, and never stops on
    a missing table entry.  On every other text [parse] returns nothing: the
    exception the lexer raises, a ValueError, propagates. *)
Theorem parse_returns_or_raises data :
  match parse_raises data with
  | None =>
      exists j result st,
        j <= 21 * (length (fst (tokenize data)) + 2)
        /\ advance parser productions ppap j (start_of data) = Return result st
        /\ parse data
           = Some (if error st then PyNone
                   else match result with Some v => v | None => PyNone end, st)
  | Some e => parse data = None /\ exists msg, e = ValueError msg
  end.
Proof.
  destruct (parse_raises data) as [e |] eqn:Hraise.
  - split.
    + unfold parse, yacc_parse. rewrite Hraise. reflexivity.
    + exact (raises_from_error _ _ _ Hraise).
  - pose proof (start_input_ok data) as Hok.
    pose proof (start_visited data) as Hin.
    destruct (driver_returns ppap _ (start_of data) eq_refl Hok Hin)
      as (j & res & u & Hj & Ha).
    destruct (yacc_parse_returns data Hraise) as (j' & res' & st' & Ha' & Hy).
    assert (E : Return res' st' = Return res u :> Driver.outcome pyval pstate).
    { destruct (Nat.le_ge_cases j j') as [Hle | Hle].
      - rewrite <- Ha'.
        exact (advance_return_more ppap j j' _ _ _ Ha Hle).
      - rewrite <- Ha. symmetry.
        exact (advance_return_more ppap j' j _ _ _ Ha' Hle). }
    injection E as -> ->.
    exists j, res, u. split; [| split; [exact Ha |]].
    + replace (length (fst (tokenize data))) with (length (input (start_of data)));
        [exact Hj |].
      unfold start_of, source. destruct (tokenize data) as [toks last]. simpl.
      apply length_map.
    + unfold parse. rewrite Hy. destruct (error u); reflexivity.
Qed.

End RegisterTable.

(* ===================================================================== *)
(** * The lexer reaches the end of the text *)
Section LexerProgress.
Import Lexer.
Local Open Scope nat_scope.

Lemma span_length p s :
  String.length (snd (span p s)) <= String.length s.
Proof.
  induction s as [| c s IH]; [simpl; lia |].
  simpl. destruct (p c); [| simpl; lia].
  destruct (span p s) as [a b]. simpl in *. lia.
Qed.

Lemma span_first p c s :
  p c = true ->
  String.length (snd (span p (String c s))) <= String.length s.
Proof.
  intros H. simpl. rewrite H. pose proof (span_length p s) as Hs.
  destruct (span p s) as [a b]. exact Hs.
Qed.

Lemma substring_length n m s :
  String.length (substring n m s) <= String.length s - n.
Proof.
  revert n m. induction s as [| c s IH]; intros n m.
  - destruct n, m; simpl; lia.
  - destruct n as [| n].
    + destruct m as [| m]; simpl; [lia |]. specialize (IH 0 m). lia.
    + simpl. apply IH.
Qed.

(** A token takes at least the character it starts with. *)
Lemma master_consumes c rest ty w r :
  master c rest = MToken ty w r -> String.length r <= String.length rest.
Proof.
  unfold master.
  destruct (is_digit c) eqn:Ed.
  { pose proof (span_first is_digit c rest Ed) as H.
    destruct (span is_digit (String c rest)) as [d r']. intros E.
    injection E as _ _ <-. exact H. }
  destruct (is_upper c) eqn:Eu.
  { assert (Ea : is_alnum c = true) by (unfold is_alnum; rewrite Eu; reflexivity).
    pose proof (span_first is_alnum c rest Ea) as H.
    destruct (span is_alnum (String c rest)) as [d r'].
    destruct (keyword_lookup keyword_map d); intros E; injection E as _ _ <-; exact H. }
  destruct (is_newline c); [intros E; injection E as _ _ <-; lia |].
  destruct (Ascii.eqb c "013").
  { destruct rest as [| c' rest']; [discriminate |].
    destruct (is_newline c'); [| discriminate].
    intros E. injection E as _ _ <-. simpl. lia. }
  destruct (Ascii.eqb c "#"); [discriminate |].
  destruct (is_blank c) eqn:Eb.
  { pose proof (span_first is_blank c rest Eb) as H.
    destruct (span is_blank (String c rest)) as [d r']. intros E.
    injection E as _ _ <-. exact H. }
  destruct (Ascii.eqb c "h").
  { unfold has_prefix. destruct (String.prefix "have" (String c rest)); [| discriminate].
    intros E. injection E as _ _ <-.
    pose proof (substring_length (String.length "have")
                  (String.length (String c rest) - String.length "have")
                  (String c rest)) as H.
    simpl in *. lia. }
  destruct (Ascii.eqb c "a").
  { destruct rest as [| [[] [] [] [] [] [] [] []] r']; intros E;
      injection E as _ _ <-; simpl; lia. }
  destruct (Ascii.eqb c "n").
  { destruct rest as [| [[] [] [] [] [] [] [] []] r']; intros E;
      try discriminate; injection E as _ _ <-; simpl; lia. }
  destruct (Ascii.eqb c "?"); [intros E; injection E as _ _ <-; lia |].
  destruct (Ascii.eqb c "!"); [intros E; injection E as _ _ <-; lia |].
  destruct (Ascii.eqb c "-"); [intros E; injection E as _ _ <-; lia |].
  discriminate.
Qed.

Lemma scan_consumes s : forall b line msgs out t l',
  scan b s line msgs = Found out t l' ->
  String.length (lexdata l') < String.length s.
Proof.
  induction s as [| c s IH]; intros b line msgs out t l' H; [discriminate |].
  cbn [scan] in H.
  destruct (b && negb (is_newline c))%bool;
    [specialize (IH _ _ _ _ _ _ H); simpl; lia |].
  destruct (master c s) as [ty w r | |] eqn:E;
    [| specialize (IH _ _ _ _ _ _ H); simpl; lia
     | specialize (IH _ _ _ _ _ _ H); simpl; lia].
  apply master_consumes in E.
  destruct ty; try destruct (int_of_text w); try discriminate H;
    injection H as _ _ <-; simpl; lia.
Qed.

Lemma tokens_from_enough fuel : forall fuel' l,
  String.length (lexdata l) < fuel -> String.length (lexdata l) < fuel' ->
  tokens_from fuel l = tokens_from fuel' l.
Proof.
  induction fuel as [| fuel IH]; intros fuel' l H H'; [lia |].
  destruct fuel' as [| fuel']; [lia |].
  cbn [tokens_from]. destruct (token l) as [[out [t |]] l1] eqn:E; [| reflexivity].
  apply token_found in E. apply scan_consumes in E.
  rewrite (IH fuel' l1) by lia. reflexivity.
Qed.

(** X18: the lexer always reaches the end of the text.  A call of
    [token()] that returns a token has consumed at least one character, so
    the [len(data) + 1] calls that [tokenize] allows are enough: allowing
    more calls gives the same tokens and the same messages. *)
Theorem lexer_reaches_end_of_text :
  (forall l out t l',
     token l = (out, Some t, l') ->
     String.length (lexdata l') < String.length (lexdata l))
  /\ (forall data more,
        tokens_from (S (String.length data) + more) (Lex data 1) = tokenize data).
Proof.
  split.
  - intros l out t l' H. apply token_found in H.
    exact (scan_consumes _ _ _ _ _ _ _ H).
  - intros data more. unfold tokenize. apply tokens_from_enough; simpl; lia.
Qed.

Lemma lexer_reaches_end_of_text_witness :
  String.length (lexdata (Lex " P" 1)) < String.length (lexdata (Lex "42 P" 1)).
Proof.
  refine (proj1 lexer_reaches_end_of_text (Lex "42 P" 1) []
            (Token T_NUMBER (TokInt 42) 1) (Lex " P" 1) _).
  vm_compute. reflexivity.
Defined.

End LexerProgress.

(* ===================================================================== *)
(** * Put lines *)
Section PutLines.
Import Lexer Grammar LALR Driver Control Parser.
Local Open Scope nat_scope.








End PutLines.

(* ===================================================================== *)
(** * Lines with one operand, and jumps *)
Section ShortLines.
Import Lexer Grammar LALR Driver Control Parser.
Local Open Scope nat_scope.



End ShortLines.

(* ===================================================================== *)
(** * The tokens of a declaration line *)
Section DeclarationText.
Import Lexer Grammar LALR Driver Control Parser.
Local Open Scope nat_scope.






















Lemma repeated_digits z :
  (fix all (s : string) : bool :=
     match s with
     | EmptyString => true
     | String c s' => (is_digit c && all s')%bool
     end) (repeated "0" z) = true.
Proof. induction z as [| z IH]; [reflexivity |]. simpl. exact IH. Qed.














End DeclarationText.

(* ===================================================================== *)
(** * Register declarations *)
Section Declarations.
Import Lexer Grammar LALR Driver Control Parser Interp.
Local Open Scope nat_scope.










End Declarations.

(* ===================================================================== *)
(** * Tokens dropped at the start of the text *)
Section DroppedTokens.
Import Lexer Grammar LALR Driver Control Parser.
Local Open Scope nat_scope.

(** C9 (the code at the failing input): a text whose first line begins with
    a token no line can begin with.  The driver then has only the start state
    on its stack: it throws the token away and goes on, [p_error] prints
    nothing for a token, and the rule [program : error], which prints the
    diagnostic and sets [parser.error], is not reduced.  So [have] alone
    gives the empty instruction list and [-I have 7 P] the declaration of P,
    with nothing printed, as if the lines were valid; the same happens for
    every token type but the five that can begin a line. *)
Theorem invalid_first_token_is_dropped :
  parse ("have" +:+ nl) = Some (PyList [], PState [] [] false [])
  /\ parse ("-I have 7 P" +:+ nl)
     = Some (PyList [REGISTER "P" 7], PState ["P"] [] false [])
  /\ (forall msgs v ln toks last st,
        Forall (fun ty =>
                  Driver.step parser productions ppap
                    (start ppap ((msgs, token_sym (Token ty v ln)) :: toks)
                           last st)
                  = Next (Config 0 [0] [end_sym ppap] None [] 3 toks last
                                 (print_all msgs st)))
               [T_REPLACE; T_APPEND; T_RIP; T_MULTIPLY; T_CHOP; T_PUSH; T_PULL;
                T_PRINT; T_PUT; T_PICK; T_COMPARE; T_SUPERIOR; T_JUMP;
                T_HAVE; T_NO; T_A; T_NUMBER; T_HYPHEN; T_QUESTION_MARK;
                T_EXCLAMATION_MARK]).
Proof.
  split; [vm_compute; reflexivity |]. split; [vm_compute; reflexivity |].
  intros msgs v ln toks last st. repeat constructor.
Qed.

End DroppedTokens.

(* ===================================================================== *)
(** * The driver reads the whole text before it returns *)
Section WholeText.
Import Lexer Grammar LALR Driver Control Parser.
Local Open Scope nat_scope.

Lemma token_like_not_end (y : sym pyval) : token_like y -> stype y <> T T_end.
Proof.
  intros (t & Ht & Hin) He. rewrite Ht in He. injection He as ->.
  unfold token_types in Hin. simpl in Hin.
  repeat (destruct Hin as [Hin | Hin]; [discriminate Hin |]). exact Hin.
Qed.

Lemma fetch_end_is_last (c : config pyval pstate) :
  input_ok c -> end_is_last c -> end_is_last (fetch ppap c).
Proof.
  intros Hok [Hl Hs]. unfold fetch. destruct (lookahead c) as [y |] eqn:E.
  - split; [rewrite E in *; exact Hl | exact Hs].
  - destruct (lookaheadstack c) as [| y rest] eqn:Es.
    + destruct (input c) as [| [m t] r] eqn:Ei.
      * split; simpl; [reflexivity | intros y []].
      * split; simpl.
        -- intros y Hy He. injection Hy as <-. exfalso.
           unfold input_ok in Hok. rewrite Ei in Hok.
           exact (token_like_not_end t (Forall_inv Hok) He).
        -- intros y [].
    + split; simpl.
      * intros y' Hy He. injection Hy as <-. apply (Hs y); [left; reflexivity | exact He].
      * intros y' Hin He. apply (Hs y'); [right; exact Hin | exact He].
Qed.

Lemma perform_end_is_last a y (c c' : config pyval pstate) :
  lookahead c = y ->
  perform parser productions ppap a y c = Next c' ->
  end_is_last c -> end_is_last c'.
Proof.
  intros Hy H [Hl Hs]. destruct a as [t | p |]; simpl in H.
  - destruct y as [y |]; [| discriminate]. unfold shift in H. injection H as <-.
    split; simpl; [discriminate | exact Hs].
  - unfold reduce in H. destruct (nth_error productions p); [| discriminate].
    destruct (reduce_fn ppap _ _ _). destruct (skipn _ _); [discriminate |].
    destruct (goto _ _ _); [| discriminate]. injection H as <-.
    split; simpl; assumption.
  - destruct (symstack c); discriminate.
Qed.

Lemma recover_end_is_last y (c c' : config pyval pstate) :
  lookahead c = Some y ->
  recover ppap y c = Next c' -> end_is_last c -> end_is_last c'.
Proof.
  intros Hy H [Hl Hs]. unfold recover in H.
  destruct (_ && _)%bool;
    [injection H as <-; split; simpl; [discriminate | intros ? []] |].
  destruct (match stype y with T T_end => true | _ => false end); [discriminate |].
  destruct (negb _).
  - destruct (symstack c) as [| top ?]; [discriminate |].
    assert (Hpush : forall u e,
              end_is_last (Config (state c) (statestack c) (top :: l)
                             (Some (Sym (T T_error) e (sline y)))
                             (y :: lookaheadstack c) error_count
                             (input c) (at_eof c) u)).
    { intros u e. split; simpl.
      - intros y' E' He. injection E' as <-. discriminate He.
      - intros y' [<- | Hin] He; [exact (Hl y Hy He) | exact (Hs y' Hin He)]. }
    assert (Hdrop : forall u,
              end_is_last (Config (state c) (statestack c) (top :: l) None
                             (lookaheadstack c) error_count
                             (input c) (at_eof c) u)).
    { intros u. split; simpl; [discriminate | exact Hs]. }
    destruct (stype top) as [[] |]; injection H as <-;
      first [apply Hdrop | apply Hpush].
  - destruct (symstack c); [discriminate |].
    destruct (statestack c) as [| ? [| ? ?]]; try discriminate.
    injection H as <-. split; simpl; assumption.
Qed.

Lemma step_end_is_last (c c' : config pyval pstate) :
  Driver.step parser productions ppap c = Next c' ->
  input_ok c -> end_is_last c -> end_is_last c'.
Proof.
  unfold Driver.step. intros H Hok Hinv.
  destruct (defaulted parser (state c)).
  - exact (perform_end_is_last _ _ c c' eq_refl H Hinv).
  - pose proof (fetch_end_is_last c Hok Hinv) as Hf.
    destruct (lookahead (fetch ppap c)) as [y |] eqn:E; [| discriminate].
    destruct (lookup_action _ _ _).
    + exact (perform_end_is_last _ _ _ c' E H Hf).
    + exact (recover_end_is_last y _ c' E H Hf).
Qed.

Lemma accept_at_end s t :
  lookup_action parser s t = Some Accept -> t = T_end.
Proof.
  assert (Hall : forallb (fun row =>
            forallb (fun e => match snd e with
                              | Accept => terminal_beq (fst e) T_end
                              | _ => true
                              end) row) (action_table parser) = true)
    by (vm_compute; reflexivity).
  unfold lookup_action, actions.
  destruct (find _ _) as [e |] eqn:E; [| discriminate].
  intros H. injection H as H.
  apply find_some in E as [Hin Ht].
  rewrite forallb_forall in Hall.
  assert (Hrow : In (nth s (action_table parser) []) (action_table parser)
                 \/ nth s (action_table parser) [] = []).
  { destruct (Nat.lt_ge_cases s (length (action_table parser))) as [Hlt | Hge].
    - left. apply nth_In. exact Hlt.
    - right. apply nth_overflow. exact Hge. }
  destruct Hrow as [Hrow | Hrow]; [| rewrite Hrow in Hin; destruct Hin].
  specialize (Hall _ Hrow). rewrite forallb_forall in Hall.
  specialize (Hall e Hin). rewrite H in Hall.
  apply internal_terminal_dec_bl in Hall. apply internal_terminal_dec_bl in Ht.
  congruence.
Qed.

Lemma reached_end_is_last data c : reached data c -> end_is_last c.
Proof.
  intros [n Hn]. revert c Hn. induction n as [| n IH]; intros c Hn.
  - simpl in Hn. injection Hn as <-. unfold start_of.
    destruct (source data). split; simpl; [discriminate | intros ? []].
  - replace (S n) with (n + 1) in Hn by lia. rewrite (advance_add ppap) in Hn.
    destruct (advance parser productions ppap n (start_of data)) as [c0 | |] eqn:E;
      try discriminate.
    assert (Hr : reached data c0) by (exists n; exact E).
    destruct (reached_visited data c0 Hr) as [Hok _].
    simpl in Hn.
    destruct (Driver.step parser productions ppap c0) as [c1 | |] eqn:Es;
      try discriminate.
    injection Hn as <-. exact (step_end_is_last c0 c1 Es Hok (IH c0 eq_refl)).
Qed.

Lemma fetch_end (c : config pyval pstate) y :
  input_ok c -> end_is_last c ->
  lookahead (fetch ppap c) = Some y -> stype y = T T_end -> input c = [].
Proof.
  intros Hok [Hl Hs]. unfold fetch. destruct (lookahead c) as [y0 |] eqn:E.
  - rewrite E. intros Hy He. exact (Hl y Hy He).
  - destruct (lookaheadstack c) as [| y0 rest] eqn:Es.
    + destruct (input c) as [| [m t] r] eqn:Ei; [reflexivity |].
      simpl. intros Hy He. injection Hy as <-. exfalso.
      unfold input_ok in Hok. rewrite Ei in Hok.
      exact (token_like_not_end t (Forall_inv Hok) He).
    + simpl. intros Hy He. injection Hy as <-.
      apply (Hs y0); [left; reflexivity | exact He].
Qed.

(** X22: the driver returns only once it has taken every token of the text
    from the lexer and has been told that there is no more: whichever way
    the parse ends (accepted, or given up at the end of the text), none of
    the calls of [token()] on the text is left out, so an exception raised
    by any of them is raised by [parse]. *)
Theorem returns_after_the_last_token data c result st :
  reached data c ->
  Driver.step parser productions ppap c = Return result st ->
  input c = [].
Proof.
  intros Hr Hs. pose proof (reached_end_is_last data c Hr) as Hinv.
  destruct (reached_visited data c Hr) as [Hok _].
  unfold Driver.step in Hs.
  destruct (defaulted parser (state c)) as [a |] eqn:Ed.
  - exfalso. unfold defaulted in Ed.
    destruct (actions parser (state c)) as [| [t [| p |]] [|]]; try discriminate.
    injection Ed as <-. simpl in Hs. unfold reduce in Hs.
    destruct (nth_error productions p); [| discriminate].
    destruct (reduce_fn ppap _ _ _). destruct (skipn _ _); [discriminate |].
    destruct (goto _ _ _); discriminate.
  - destruct (lookahead (fetch ppap c)) as [y |] eqn:E; [| discriminate].
    apply (fetch_end c y Hok Hinv E).
    destruct (lookup_action parser (state (fetch ppap c)) (terminal_of y))
      as [a |] eqn:Ea.
    + destruct a as [t | p |]; simpl in Hs.
      * discriminate.
      * unfold reduce in Hs.
        destruct (nth_error productions p); [| discriminate].
        destruct (reduce_fn ppap _ _ _). destruct (skipn _ _); [discriminate |].
        destruct (goto _ _ _); discriminate.
      * apply accept_at_end in Ea. unfold terminal_of in Ea.
        destruct (stype y) as [t | n]; [congruence | discriminate].
    + unfold recover in Hs.
      destruct (_ && _)%bool; [discriminate |].
      destruct (stype y) as [[] | n]; try reflexivity; exfalso;
        cbv iota in Hs; cbn [negb] in Hs;
        repeat match type of Hs with
               | context [match ?x with _ => _ end] => destruct x
               end; discriminate.
Qed.

Lemma returns_after_the_last_token_witness :
  input (at_line (LaterLine (Some [REGISTER "P" 1])) 0 [] []
           (PState ["P"] [] false []))
  = [].
Proof.
  refine (returns_after_the_last_token ("I have a P" +:+ nl) _
            (Some (PyList [REGISTER "P" 1])) (PState ["P"] [] false []) _ _).
  - exists 14. vm_compute. reflexivity.
  - vm_compute. reflexivity.
Defined.

End WholeText.
